(** * Typed-answer diff engine and review card controller

    A shallow embedding of [src/utils/diff.ts] and of the review-time
    part of [src/gui/card-ui.tsx] (the [CardUI] class), with the
    properties of the alignment engine and of the card state machine.

    Strings are sequences of code units.  The functions of
    [src/utils/diff.ts] are written over any type [U] of code units with
    a decidable equality and take the host's [toLowerCase] and [trim]
    as arguments: [toLowerCase] can return a longer string than it is
    given (the code unit [U+0130] becomes two), and the loop of
    [computeDiff] then reads the lower-cased strings at positions of the
    original ones.  [jsstring] is the strings of code units [0..255]
    (the type [ascii], read as Latin-1), on which [toLowerCase] is a
    length-preserving, unit-by-unit map and [trim] strips the white
    space and line terminator units; [computeDiff] and [isAnswerCorrect]
    are the two functions on these strings. *)

From Stdlib Require Import Ascii String ZArith Lia.
From stdpp Require Import base option list.

Local Open Scope nat_scope.

(** ** Strings of the host language *)

Abbreviation jsstring := (list ascii).

Definition str (s : string) : jsstring := list_ascii_of_string s.

#[global] Instance ascii_eq_dec : EqDecision ascii := Ascii.ascii_dec.

(** [String.prototype.toLowerCase] on one code unit below 256:
    [A-Z] and the Latin-1 capitals [U+00C0..U+00DE] other than the
    multiplication sign [U+00D7] move up by 32. *)
Definition toLowerCaseUnit (c : ascii) : ascii :=
  let n := nat_of_ascii c in
  if ((65 <=? n) && (n <=? 90)) || ((192 <=? n) && (n <=? 222) && negb (n =? 215))
  then ascii_of_nat (n + 32)
  else c.

Definition toLowerCase (s : jsstring) : jsstring := toLowerCaseUnit <$> s.

(** White space and line terminators below 256: TAB, LF, VT, FF, CR,
    SPACE and NBSP. *)
Definition isWhiteSpace (c : ascii) : bool :=
  let n := nat_of_ascii c in
  ((9 <=? n) && (n <=? 13)) || (n =? 32) || (n =? 160).

Fixpoint trimStart (s : jsstring) : jsstring :=
  match s with
  | c :: s' => if isWhiteSpace c then trimStart s' else s
  | [] => []
  end.

Definition trimEnd (s : jsstring) : jsstring := reverse (trimStart (reverse s)).

Definition trim (s : jsstring) : jsstring := trimEnd (trimStart s).

(** *** Strings of 16-bit code units

    A code unit is its number. *)
Abbreviation jsstring16 := (list N).

(** [toLowerCase16] is the host's [toLowerCase] on the strings made of
    the code units of Basic Latin and Latin-1 and of [U+0130] (capital I
    with dot above), the code unit that becomes two, [U+0069 U+0307].
    It leaves every other unit as it is: the capitals of the other
    alphabets, which the host lower-cases too, are not in the strings it
    is used on. *)
Definition toLowerCaseUnit16 (n : N) : jsstring16 :=
  (if n =? 304 then [105; 775]
   else if ((65 <=? n) && (n <=? 90)) || ((192 <=? n) && (n <=? 222) && negb (n =? 215))
   then [n + 32]
   else [n])%N.

Definition toLowerCase16 (s : jsstring16) : jsstring16 := s ≫= toLowerCaseUnit16.

(** White space and line terminators: TAB, LF, VT, FF, CR, SPACE, NBSP,
    [U+1680], [U+2000..U+200A], the line and paragraph separators
    [U+2028] and [U+2029], [U+202F], [U+205F], [U+3000] and [U+FEFF]. *)
Definition isWhiteSpace16 (n : N) : bool :=
  (((9 <=? n) && (n <=? 13)) || (n =? 32) || (n =? 160) || (n =? 5760)
   || ((8192 <=? n) && (n <=? 8202)) || (n =? 8232) || (n =? 8233)
   || (n =? 8239) || (n =? 8287) || (n =? 12288) || (n =? 65279))%N.

Fixpoint trimStart16 (s : jsstring16) : jsstring16 :=
  match s with
  | c :: s' => if isWhiteSpace16 c then trimStart16 s' else s
  | [] => []
  end.

Definition trimEnd16 (s : jsstring16) : jsstring16 := reverse (trimStart16 (reverse s)).

Definition trim16 (s : jsstring16) : jsstring16 := trimEnd16 (trimStart16 s).

(** ** [src/utils/diff.ts] *)

Inductive DiffType := Equal | Insert | Delete.

#[global] Instance DiffType_eq_dec : EqDecision DiffType.
Proof. solve_decision. Defined.

(** The interface [DiffSegment], over the strings of code units [U]. *)
Record DiffSegmentOf (U : Type) := mkDiffSegment { type : DiffType; text : list U }.

Arguments mkDiffSegment {U} type text.
Arguments type {U} d.
Arguments text {U} d.

Abbreviation DiffSegment := (DiffSegmentOf ascii).

(** The per-character entries [{ type, char }] of the local array
    [segments]; the field [type] is [ctype] here. *)
Record CharSegmentOf (U : Type) := mkCharSegment { ctype : DiffType; char : U }.

Arguments mkCharSegment {U} ctype char.
Arguments ctype {U} c.
Arguments char {U} c.

Abbreviation CharSegment := (CharSegmentOf ascii).

(** *** The table [number[][]] *)

(** [dp[i][j]] read as a number, for a cell that exists: the table
    [computeLCS] fills is rectangular and every index [computeLCS] uses
    is inside it (lemma [computeLCS_shape]). *)
Definition dp_get (dp : list (list nat)) (i j : nat) : nat :=
  default 0 (dp !! i ≫= (.!! j)).

(** [dp[i][j] = v], for a cell that exists. *)
Definition dp_set (dp : list (list nat)) (i j v : nat) : list (list nat) :=
  alter (<[j := v]>) i dp.

(** The test [dp[i][j - 1] >= dp[i - 1][j]] of the backtracking loop,
    which reads a table built for the comparison strings at positions of
    the original strings: reading in a row that does not exist is a
    TypeError ([None]); a number that does not exist in its row is
    [undefined], and the comparison with it is false. *)
Definition dp_ge (dp : list (list nat)) (i j : nat) : option bool :=
  row ← dp !! i;
  above ← dp !! (i - 1);
  Some (match row !! (j - 1), above !! j with
        | Some l, Some a => a <=? l
        | _, _ => false
        end).

Section Diff.
Context {U : Type} `{EqDecision U}.

(** One iteration of the inner loop body of [computeLCS]. *)
Definition lcs_cell (str1 str2 : list U) (i : nat) (dp : list (list nat)) (j : nat)
  : list (list nat) :=
  if bool_decide (str1 !! (i - 1) = str2 !! (j - 1))
  then dp_set dp i j (dp_get dp (i - 1) (j - 1) + 1)
  else dp_set dp i j (Nat.max (dp_get dp (i - 1) j) (dp_get dp i (j - 1))).

(** The inner loop, [for (let j = 1; j <= n; j++)]. *)
Definition lcs_row (str1 str2 : list U) (dp : list (list nat)) (i : nat)
  : list (list nat) :=
  foldl (lcs_cell str1 str2 i) dp (seq 1 (length str2)).

Definition computeLCS (str1 str2 : list U) : list (list nat) :=
  let m := length str1 in
  let n := length str2 in
  let dp := replicate (m + 1) (replicate (n + 1) 0) in
  foldl (lcs_row str1 str2) dp (seq 1 m).

(** *** Backtracking *)

(** The loop [while (i > 0 || j > 0)].  The loop variables [i], [j] and
    [segments] are the arguments; [fuel] bounds the number of
    iterations, [None] is a run that did not finish within it, that read
    a string outside its bounds or that raised a TypeError on the table.
    [insert] is the test of the second branch,
    [j > 0 && (i === 0 || dp[i][j - 1] >= dp[i - 1][j])], which reads
    the table only when [j > 0] and [i > 0]. *)
Fixpoint backtrack (userAnswer correctAnswer compareUser compareCorrect : list U)
    (dp : list (list nat)) (fuel i j : nat) (segments : list (CharSegmentOf U))
  : option (list (CharSegmentOf U)) :=
  if negb ((0 <? i) || (0 <? j)) then Some segments
  else
    match fuel with
    | 0 => None
    | S fuel' =>
        let continue := backtrack userAnswer correctAnswer compareUser compareCorrect dp fuel' in
        if (0 <? i) && (0 <? j)
           && bool_decide (compareUser !! (i - 1) = compareCorrect !! (j - 1))
        then
          c ← correctAnswer !! (j - 1);
          continue (i - 1) (j - 1) (segments ++ [mkCharSegment Equal c])
        else
          insert ← (if 0 <? j then if i =? 0 then Some true else dp_ge dp i j
                    else Some false);
          if insert : bool
          then
            c ← correctAnswer !! (j - 1);
            continue i (j - 1) (segments ++ [mkCharSegment Insert c])
          else
            c ← userAnswer !! (i - 1);
            continue (i - 1) j (segments ++ [mkCharSegment Delete c])
    end.

(** *** Merging runs *)

(** One iteration of [for (const seg of segments)]: the last element of
    [result] is extended in place, or a new segment is pushed. *)
Definition merge_step (result : list (DiffSegmentOf U)) (seg : CharSegmentOf U)
  : list (DiffSegmentOf U) :=
  match last result with
  | Some l =>
      if bool_decide (type l = ctype seg)
      then <[length result - 1 := mkDiffSegment (type l) (text l ++ [char seg])]> result
      else result ++ [mkDiffSegment (ctype seg) [char seg]]
  | None => result ++ [mkDiffSegment (ctype seg) [char seg]]
  end.

Definition merge_segments (segments : list (CharSegmentOf U)) : list (DiffSegmentOf U) :=
  foldl merge_step [] segments.

(** [computeDiff], with the host's [toLowerCase] as [host_toLowerCase].
    The table is built for the comparison strings; the loop starts at
    the lengths of the original strings. *)
Definition computeDiff_with (host_toLowerCase : list U → list U)
    (userAnswer correctAnswer : list U) (caseSensitive : bool)
  : option (list (DiffSegmentOf U)) :=
  let compareUser := if caseSensitive then userAnswer else host_toLowerCase userAnswer in
  let compareCorrect := if caseSensitive then correctAnswer else host_toLowerCase correctAnswer in
  if bool_decide (compareUser = compareCorrect)
  then Some [mkDiffSegment Equal correctAnswer]
  else
    let dp := computeLCS compareUser compareCorrect in
    let i := length userAnswer in
    let j := length correctAnswer in
    segments ← backtrack userAnswer correctAnswer compareUser compareCorrect dp (i + j) i j [];
    Some (merge_segments (reverse segments)).

(** [isAnswerCorrect], with the host's [trim] and [toLowerCase]. *)
Definition isAnswerCorrect_with (host_trim host_toLowerCase : list U → list U)
    (userAnswer correctAnswer : list U) (caseSensitive : bool) : bool :=
  if caseSensitive
  then bool_decide (host_trim userAnswer = host_trim correctAnswer)
  else bool_decide (host_toLowerCase (host_trim userAnswer)
                    = host_toLowerCase (host_trim correctAnswer)).

End Diff.

(** The two functions on strings of code units below 256. *)
Definition computeDiff (userAnswer correctAnswer : jsstring) (caseSensitive : bool)
  : option (list DiffSegment) :=
  computeDiff_with toLowerCase userAnswer correctAnswer caseSensitive.

Definition isAnswerCorrect (userAnswer correctAnswer : jsstring) (caseSensitive : bool) : bool :=
  isAnswerCorrect_with trim toLowerCase userAnswer correctAnswer caseSensitive.

(** ** Reference definitions

    The alignment as the specification words it, by structural recursion
    on the two strings read from their ends: no table, no indices, no
    mutable arrays. *)

(** The matching key of a code unit: itself, or its lower case. *)
Definition fold_unit (caseSensitive : bool) : ascii → ascii :=
  if caseSensitive then id else toLowerCaseUnit.

Section Reference.
Context {U : Type} `{EqDecision U}.

(** Length of a longest common subsequence, the textbook recurrence. *)
Fixpoint lcs_length (xs : list U) : list U → nat :=
  match xs with
  | [] => λ _, 0
  | x :: xs' =>
      fix lcs_r (ys : list U) : nat :=
        match ys with
        | [] => 0
        | y :: ys' =>
            if bool_decide (x = y) then lcs_length xs' ys' + 1
            else Nat.max (lcs_length xs' ys) (lcs_r ys')
        end
  end.

(** Backtracking from the ends of both strings: [xs] and [ys] are the
    user's and the correct answer, last character first.  On a match
    (under the fold [f]) emit [Equal] with the correct answer's
    character; otherwise [Insert] when the value to the left (one
    character less of the correct answer) is not smaller than the value
    above (one character less of the user's answer), else [Delete]. *)
Fixpoint align (f : U → U) (xs : list U) : list U → list (CharSegmentOf U) :=
  match xs with
  | [] =>
      fix align_ins (ys : list U) : list (CharSegmentOf U) :=
        match ys with
        | [] => []
        | y :: ys' => mkCharSegment Insert y :: align_ins ys'
        end
  | x :: xs' =>
      fix align_r (ys : list U) : list (CharSegmentOf U) :=
        match ys with
        | [] => mkCharSegment Delete x :: align f xs' []
        | y :: ys' =>
            if bool_decide (f x = f y)
            then mkCharSegment Equal y :: align f xs' ys'
            else if lcs_length (f <$> xs') (f <$> ys) <=? lcs_length (f <$> xs) (f <$> ys')
            then mkCharSegment Insert y :: align_r ys'
            else mkCharSegment Delete x :: align f xs' ys
        end
  end.

(** Run-length merge of adjacent entries of the same kind. *)
Fixpoint group_runs (l : list (CharSegmentOf U)) : list (DiffSegmentOf U) :=
  match l with
  | [] => []
  | s :: l' =>
      match group_runs l' with
      | g :: gs =>
          if bool_decide (ctype s = type g)
          then mkDiffSegment (type g) (char s :: text g) :: gs
          else mkDiffSegment (ctype s) [char s] :: g :: gs
      | [] => [mkDiffSegment (ctype s) [char s]]
      end
  end.

(** The reference alignment of two answers compared under the fold [f]
    of their code units. *)
Definition computeDiff_reference_with (f : U → U) (userAnswer correctAnswer : list U)
  : list (DiffSegmentOf U) :=
  if bool_decide (f <$> userAnswer = f <$> correctAnswer)
  then [mkDiffSegment Equal correctAnswer]
  else group_runs (reverse (align f (reverse userAnswer) (reverse correctAnswer))).

End Reference.

Definition computeDiff_reference (userAnswer correctAnswer : jsstring) (caseSensitive : bool)
  : list DiffSegment :=
  computeDiff_reference_with (fold_unit caseSensitive) userAnswer correctAnswer.

(** ** Projections of a diff *)

Section Projections.
Context {U : Type} `{EqDecision U}.

(** Concatenated text of the segments whose kind is not [k]. *)
Definition text_without (k : DiffType) (segs : list (DiffSegmentOf U)) : list U :=
  concat (text <$> filter (λ s, type s ≠ k) segs).

(** Concatenated text of the segments of kind [k]. *)
Definition text_of_kind (k : DiffType) (segs : list (DiffSegmentOf U)) : list U :=
  concat (text <$> filter (λ s, type s = k) segs).

(** No two consecutive segments share a kind. *)
Fixpoint no_adjacent_same (segs : list (DiffSegmentOf U)) : Prop :=
  match segs with
  | s1 :: ((s2 :: _) as rest) => type s1 ≠ type s2 ∧ no_adjacent_same rest
  | _ => True
  end.

(** The characters of a segment list in their order, each with the kind
    of its segment. *)
Definition entries (segs : list (DiffSegmentOf U)) : list (CharSegmentOf U) :=
  segs ≫= λ s, mkCharSegment (type s) <$> text s.

(** The characters outside the segments of kind [k]. *)
Definition entries_without (k : DiffType) (segs : list (DiffSegmentOf U))
  : list (CharSegmentOf U) :=
  filter (λ e, ctype e ≠ k) (entries segs).

(** What an entry that is not an [Insert] has to do with the character
    [x] of the user's answer it stands for: a [Delete] holds [x] as
    typed; an [Equal] holds a character of the correct answer that
    [x] matched, [matched x] being what a match says of the two. *)
Definition from_user (matched : U → U → Prop) (e : CharSegmentOf U) (x : U) : Prop :=
  match ctype e with
  | Equal => matched x (char e)
  | Delete => char e = x
  | Insert => False
  end.

(** ** Invariants of the table construction *)

(** The value the finished table of [str1] and [str2] holds at [(i, j)]. *)
Definition table_value (str1 str2 : list U) (i j : nat) : nat :=
  lcs_length (reverse (take i str1)) (reverse (take j str2)).

Definition table_shape (str1 str2 : list U) (dp : list (list nat)) : Prop :=
  length dp = length str1 + 1 ∧
  ∀ i row, dp !! i = Some row → length row = length str2 + 1.

(** The cells already final when the loops stand at [(i, j)]. *)
Definition cell_done (i j a b : nat) : Prop :=
  a = 0 ∨ b = 0 ∨ a < i ∨ (a = i ∧ b < j).

Definition table_inv (str1 str2 : list U) (i j : nat) (dp : list (list nat)) : Prop :=
  table_shape str1 str2 dp ∧
  ∀ a b, a ≤ length str1 → b ≤ length str2 → cell_done i j a b →
         dp_get dp a b = table_value str1 str2 a b.

(** What [group_runs] does with one more entry at the front. *)
Definition cons_run (s : CharSegmentOf U) (gs : list (DiffSegmentOf U))
  : list (DiffSegmentOf U) :=
  match gs with
  | g :: gs' =>
      if bool_decide (ctype s = type g)
      then mkDiffSegment (type g) (char s :: text g) :: gs'
      else mkDiffSegment (ctype s) [char s] :: g :: gs'
  | [] => [mkDiffSegment (ctype s) [char s]]
  end.

(** The characters of the entries whose kind is not [k]. *)
Definition chars_without (k : DiffType) (l : list (CharSegmentOf U)) : list U :=
  char <$> filter (λ s, ctype s ≠ k) l.

(** Walking the segments with a cursor [pos] into the correct answer
    ([Equal] and [Insert] advance it): every [Equal] segment holds the
    slice of the correct answer under the cursor. *)
Fixpoint equal_from_correct (correctAnswer : list U) (pos : nat)
    (segs : list (DiffSegmentOf U)) : Prop :=
  match segs with
  | [] => True
  | s :: rest =>
      match type s with
      | Equal =>
          text s = take (length (text s)) (drop pos correctAnswer) ∧
          equal_from_correct correctAnswer (pos + length (text s)) rest
      | Insert => equal_from_correct correctAnswer (pos + length (text s)) rest
      | Delete => equal_from_correct correctAnswer pos rest
      end
  end.

(** The characters of the entries of kind [k]. *)
Definition chars_of_kind (k : DiffType) (l : list (CharSegmentOf U)) : list U :=
  char <$> filter (λ s, ctype s = k) l.

(** Number of characters in the [Insert] and [Delete] segments. *)
Definition diff_cost (segs : list (DiffSegmentOf U)) : nat :=
  length (text_of_kind Insert segs) + length (text_of_kind Delete segs).

(** The comparison string of [s] in [computeDiff] is [s] with the map
    [f] applied to each code unit.  It is so with the identity for [f]
    when the comparison is case sensitive, and otherwise when the host's
    [toLowerCase] works on [s] code unit by code unit, as it does on
    every string of code units below 256. *)
Definition compared_by_units (host_toLowerCase : list U → list U) (caseSensitive : bool)
    (f : U → U) (s : list U) : Prop :=
  (if caseSensitive then s else host_toLowerCase s) = f <$> s.

(** A segment list aligns the two answers compared under the fold [f]:
    without its [Delete] segments it reads as the correct answer,
    without its [Insert] segments as the user's answer (up to [f]). *)
Definition is_alignment_with (f : U → U) (userAnswer correctAnswer : list U)
    (segs : list (DiffSegmentOf U)) : Prop :=
  text_without Delete segs = correctAnswer ∧
  f <$> text_without Insert segs = f <$> userAnswer.

End Projections.

(** A segment list aligns the two answers: without its [Delete]
    segments it reads as the correct answer, without its [Insert]
    segments as the user's answer (up to the fold used for matching). *)
Definition is_alignment (userAnswer correctAnswer : jsstring) (caseSensitive : bool)
    (segs : list DiffSegment) : Prop :=
  text_without Delete segs = correctAnswer ∧
  fold_unit caseSensitive <$> text_without Insert segs
    = fold_unit caseSensitive <$> userAnswer.

(** ** [src/gui/card-ui.tsx]: the review-time state of [CardUI]

    The source imports its enumerations, the card and question classes,
    the settings and the sequencer interface from modules that are not
    at hand; they are declared here with the members [CardUI] uses. *)

(** Modelled from the spec: the enumeration [FlashcardMode] of
    [src/gui/sr-modal], the visible face of the card: front, back, or
    closed once the view is torn down. *)
Inductive FlashcardMode := Front | Back | Closed.

(** Modelled from the spec: the enumeration [ReviewResponse] of
    [src/algorithms/base/repetition-item], the graded responses. *)
Inductive ReviewResponse := Easy | Good | Hard | Reset.

(** Modelled from the spec: the enumeration [FlashcardReviewMode] of
    [src/flashcard-review-sequencer]; [CardUI] only tells [Cram] from
    the rest. *)
Inductive FlashcardReviewMode := Cram | Review.

(** Modelled from the spec: the enumeration [CardType] of
    [src/question]; [CardUI] names the cloze and the two typed-answer
    variants, [OtherCardType] stands for the remaining ones. *)
Inductive CardType := Cloze | SingleLineTypeIn | MultiLineTypeIn | OtherCardType.

#[global] Instance FlashcardMode_eq_dec : EqDecision FlashcardMode.
Proof. solve_decision. Defined.

#[global] Instance ReviewResponse_eq_dec : EqDecision ReviewResponse.
Proof. solve_decision. Defined.

#[global] Instance FlashcardReviewMode_eq_dec : EqDecision FlashcardReviewMode.
Proof. solve_decision. Defined.

#[global] Instance CardType_eq_dec : EqDecision CardType.
Proof. solve_decision. Defined.

(** Modelled from the spec: the classes [Question] of [src/question]
    and [Card] of [src/card], with the fields [CardUI] reads. *)
Record Question := mkQuestion { questionType : CardType }.

Record Card := mkCard { front : jsstring; back : jsstring; question : Question }.

(** Modelled from the spec: the interface [IFlashcardReviewSequencer] of
    [src/flashcard-review-sequencer], as [CardUI] uses it.
    [currentCard] is [None] when the queue is exhausted; the current
    question is the current card's; [processReview] and
    [skipCurrentCard] advance the queue.  The awaited calls are taken to
    complete at once.  [determineCardSchedule], whose result only goes
    into the texts of the rating buttons, is taken to leave the
    sequencer as it is; the controller's calls of it are recorded in the
    field [scheduleQueries] of [CardUI]. *)
Class IFlashcardReviewSequencer (S : Type) := {
  currentCard : S → option Card;
  processReview : ReviewResponse → S → S;
  skipCurrentCard : S → S;
}.

(** Modelled from the spec: the settings of [src/settings] that the
    controller's transitions read. *)
Record SRSettings := mkSRSettings {
  reviewButtonDelay : Z;
  typeInCaseSensitive : bool;
}.

(** What [typeInResult] shows after a check: the diff of the typed
    answer ([None] for the "no input" note), the correct answer and the
    indicator. *)
Record TypeInResult := mkTypeInResult {
  userAnswerDiff : option (list DiffSegment);
  correctAnswerText : jsstring;
  indicatorCorrect : bool;
}.

Inductive ContentItem := Markdown (source : jsstring) | Hr.

(** The widgets: [_hidden] is the class [sr-is-hidden], [_disabled] the
    attribute [disabled].  Button labels and the deck information bar
    are display only and left out. *)
Record Widgets := mkWidgets {
  resetButton_disabled : bool;
  answerButton_hidden : bool;
  hardButton_hidden : bool;
  goodButton_hidden : bool;
  easyButton_hidden : bool;
  typeInContainer_hidden : bool;
  typeInInput_value : jsstring;
  typeInInput_disabled : bool;
  checkAnswerButton_hidden : bool;
  typeInResult : option TypeInResult;
  response_isCram : bool;
  content : list ContentItem;
}.

(** The calls that act on the sequencer or end the session, oldest
    first. *)
Inductive Call :=
  | CallProcessReview (response : ReviewResponse)
  | CallSkipCurrentCard
  | CallBackToDeck.

#[global] Instance Call_eq_dec : EqDecision Call.
Proof. solve_decision. Defined.

(** The state of the controller.  [calls] and [scheduleQueries] are not
    fields of the class: they record what the controller asked of the
    sequencer, [calls] the calls that act on it and [scheduleQueries]
    the responses whose schedule [determineCardSchedule] was asked
    for. *)
Record CardUI (S : Type) := mkCardUI {
  mode : FlashcardMode;
  lastPressed : option Z;
  userTypedAnswer : jsstring;
  reviewSequencer : S;
  settings : SRSettings;
  reviewMode : FlashcardReviewMode;
  widgets : Widgets;
  calls : list Call;
  scheduleQueries : list ReviewResponse;
}.

Arguments mkCardUI {S}.
Arguments mode {S}.
Arguments lastPressed {S}.
Arguments userTypedAnswer {S}.
Arguments reviewSequencer {S}.
Arguments settings {S}.
Arguments reviewMode {S}.
Arguments widgets {S}.
Arguments calls {S}.
Arguments scheduleQueries {S}.

(** The element that has the focus when a key goes down. *)
Inductive ActiveElement := TextArea | TypeInInput | OtherElement.

#[global] Instance ActiveElement_eq_dec : EqDecision ActiveElement.
Proof. solve_decision. Defined.

Record KeyboardEvent := mkKeyboardEvent {
  code : string;
  activeElement : ActiveElement;
  srInFocus : bool;
}.

Section CardUI.
Context {S : Type} `{!IFlashcardReviewSequencer S}.

(** Handlers return [None] for an uncaught [TypeError] (no current
    card where one is read); the state such a run leaves behind is not
    modelled. *)

Definition with_widgets (w : Widgets) (ui : CardUI S) : CardUI S :=
  mkCardUI (mode ui) (lastPressed ui) (userTypedAnswer ui) (reviewSequencer ui)
           (settings ui) (reviewMode ui) w (calls ui) (scheduleQueries ui).

Definition with_mode (m : FlashcardMode) (ui : CardUI S) : CardUI S :=
  mkCardUI m (lastPressed ui) (userTypedAnswer ui) (reviewSequencer ui)
           (settings ui) (reviewMode ui) (widgets ui) (calls ui) (scheduleQueries ui).

Definition with_lastPressed (t : Z) (ui : CardUI S) : CardUI S :=
  mkCardUI (mode ui) (Some t) (userTypedAnswer ui) (reviewSequencer ui)
           (settings ui) (reviewMode ui) (widgets ui) (calls ui) (scheduleQueries ui).

Definition with_userTypedAnswer (a : jsstring) (ui : CardUI S) : CardUI S :=
  mkCardUI (mode ui) (lastPressed ui) a (reviewSequencer ui)
           (settings ui) (reviewMode ui) (widgets ui) (calls ui) (scheduleQueries ui).

(** A call to the sequencer or to [backToDeck]: the new sequencer
    state and the call recorded. *)
Definition with_call (s : S) (c : Call) (ui : CardUI S) : CardUI S :=
  mkCardUI (mode ui) (lastPressed ui) (userTypedAnswer ui) s
           (settings ui) (reviewMode ui) (widgets ui) (calls ui ++ [c]) (scheduleQueries ui).

Definition _currentCard (ui : CardUI S) : option Card :=
  currentCard (reviewSequencer ui).

Definition _currentQuestion (ui : CardUI S) : option Question :=
  question <$> _currentCard ui.

Definition _isTypeInCard (ui : CardUI S) : bool :=
  match questionType <$> _currentQuestion ui with
  | Some SingleLineTypeIn | Some MultiLineTypeIn => true
  | _ => false
  end.

(** The guard [this.lastPressed && timeNow - this.lastPressed < delay]:
    [undefined] and [0] are falsy. *)
Definition debounced (timeNow : Z) (ui : CardUI S) : bool :=
  match lastPressed ui with
  | Some t => negb (t =? 0)%Z && (timeNow - t <? reviewButtonDelay (settings ui))%Z
  | None => false
  end.

Definition _resetResponseButtons (ui : CardUI S) : CardUI S :=
  let w := widgets ui in
  if _isTypeInCard ui
  then
    with_userTypedAnswer []
      (with_widgets
         {| resetButton_disabled := resetButton_disabled w;
            answerButton_hidden := true;
            hardButton_hidden := true;
            goodButton_hidden := true;
            easyButton_hidden := true;
            typeInContainer_hidden := false;
            typeInInput_value := [];
            typeInInput_disabled := false;
            checkAnswerButton_hidden := false;
            typeInResult := None;
            response_isCram := response_isCram w;
            content := content w |} ui)
  else
    with_widgets
      {| resetButton_disabled := resetButton_disabled w;
         answerButton_hidden := false;
         hardButton_hidden := true;
         goodButton_hidden := true;
         easyButton_hidden := true;
         typeInContainer_hidden := true;
         typeInInput_value := typeInInput_value w;
         typeInInput_disabled := typeInInput_disabled w;
         checkAnswerButton_hidden := checkAnswerButton_hidden w;
         typeInResult := typeInResult w;
         response_isCram := response_isCram w;
         content := content w |} ui.

Definition _drawContent (ui : CardUI S) : option (CardUI S) :=
  card ← _currentCard ui;
  let w := widgets ui in
  Some (_resetResponseButtons
          (with_mode Front
             (with_widgets
                {| resetButton_disabled := true;
                   answerButton_hidden := answerButton_hidden w;
                   hardButton_hidden := hardButton_hidden w;
                   goodButton_hidden := goodButton_hidden w;
                   easyButton_hidden := easyButton_hidden w;
                   typeInContainer_hidden := typeInContainer_hidden w;
                   typeInInput_value := typeInInput_value w;
                   typeInInput_disabled := typeInInput_disabled w;
                   checkAnswerButton_hidden := checkAnswerButton_hidden w;
                   typeInResult := typeInResult w;
                   response_isCram := response_isCram w;
                   content := [Markdown (trimStart (front card))] |} ui))).

Definition refresh (ui : CardUI S) : option (CardUI S) := _drawContent ui.

Definition _showNextCard (ui : CardUI S) : option (CardUI S) :=
  match _currentCard ui with
  | Some _ => refresh ui
  | None => Some (with_call (reviewSequencer ui) CallBackToDeck ui)
  end.

Definition _processReview (response : ReviewResponse) (timeNow : Z) (ui : CardUI S)
  : option (CardUI S) :=
  if debounced timeNow ui then Some ui
  else
    let ui := with_lastPressed timeNow ui in
    _showNextCard
      (with_call (processReview response (reviewSequencer ui))
                 (CallProcessReview response) ui).

Definition _skipCurrentCard (ui : CardUI S) : option (CardUI S) :=
  _showNextCard
    (with_call (skipCurrentCard (reviewSequencer ui)) CallSkipCurrentCard ui).

(** [_setupEaseButton] asks the sequencer which schedule the response
    would give the current card ([determineCardSchedule]) and writes the
    text of the button with it.  The texts of the buttons are not part
    of the state; the question put to the sequencer is recorded in
    [scheduleQueries]. *)
Definition _setupEaseButton (reviewResponse : ReviewResponse) (ui : CardUI S) : CardUI S :=
  mkCardUI (mode ui) (lastPressed ui) (userTypedAnswer ui) (reviewSequencer ui)
           (settings ui) (reviewMode ui) (widgets ui) (calls ui)
           (scheduleQueries ui ++ [reviewResponse]).

(** The three calls of [_setupEaseButton] at the end of
    [_checkTypeInAnswer] and of [_showAnswer], which [Cram] mode does
    without. *)
Definition setup_ease_buttons (ui : CardUI S) : CardUI S :=
  if bool_decide (reviewMode ui = Cram) then ui
  else _setupEaseButton Easy (_setupEaseButton Good (_setupEaseButton Hard ui)).

(** The rating buttons as [_checkTypeInAnswer] and [_showAnswer] show
    them: in [Cram] mode the response bar gets the class [is-cram] and
    the Good button is left as it is. *)
Definition show_response_buttons (ui : CardUI S) (w : Widgets) : Widgets :=
  let cram := bool_decide (reviewMode ui = Cram) in
  {| resetButton_disabled := resetButton_disabled w;
     answerButton_hidden := answerButton_hidden w;
     hardButton_hidden := false;
     goodButton_hidden := if cram then goodButton_hidden w else false;
     easyButton_hidden := false;
     typeInContainer_hidden := typeInContainer_hidden w;
     typeInInput_value := typeInInput_value w;
     typeInInput_disabled := typeInInput_disabled w;
     checkAnswerButton_hidden := checkAnswerButton_hidden w;
     typeInResult := typeInResult w;
     response_isCram := if cram then true else response_isCram w;
     content := content w |}.

Definition _checkTypeInAnswer (timeNow : Z) (ui : CardUI S) : option (CardUI S) :=
  if debounced timeNow ui then Some ui
  else
    let ui := with_lastPressed timeNow ui in
    let ui := with_userTypedAnswer (typeInInput_value (widgets ui)) ui in
    card ← _currentCard ui;
    let correctAnswer := trim (back card) in
    let caseSensitive := typeInCaseSensitive (settings ui) in
    diff ← computeDiff (userTypedAnswer ui) correctAnswer caseSensitive;
    let isCorrect := isAnswerCorrect (userTypedAnswer ui) correctAnswer caseSensitive in
    let w := widgets ui in
    let shown :=
      {| userAnswerDiff := if length (userTypedAnswer ui) =? 0 then None else Some diff;
         correctAnswerText := correctAnswer;
         indicatorCorrect := isCorrect |} in
    let w :=
      {| resetButton_disabled := false;
         answerButton_hidden := answerButton_hidden w;
         hardButton_hidden := hardButton_hidden w;
         goodButton_hidden := goodButton_hidden w;
         easyButton_hidden := easyButton_hidden w;
         typeInContainer_hidden := typeInContainer_hidden w;
         typeInInput_value := typeInInput_value w;
         typeInInput_disabled := true;
         checkAnswerButton_hidden := true;
         typeInResult := Some shown;
         response_isCram := response_isCram w;
         content := content w |} in
    Some (setup_ease_buttons (with_widgets (show_response_buttons ui w) (with_mode Back ui))).

Definition _showAnswer (timeNow : Z) (ui : CardUI S) : option (CardUI S) :=
  if debounced timeNow ui then Some ui
  else
    let ui := with_lastPressed timeNow ui in
    let ui := with_mode Back ui in
    q ← _currentQuestion ui;
    card ← _currentCard ui;
    let w := widgets ui in
    let shown :=
      if bool_decide (questionType q ≠ Cloze) then content w ++ [Hr] else [] in
    let w :=
      {| resetButton_disabled := false;
         answerButton_hidden := true;
         hardButton_hidden := hardButton_hidden w;
         goodButton_hidden := goodButton_hidden w;
         easyButton_hidden := easyButton_hidden w;
         typeInContainer_hidden := typeInContainer_hidden w;
         typeInInput_value := typeInInput_value w;
         typeInInput_disabled := typeInInput_disabled w;
         checkAnswerButton_hidden := checkAnswerButton_hidden w;
         typeInResult := typeInResult w;
         response_isCram := response_isCram w;
         content := shown ++ [Markdown (back card)] |} in
    Some (setup_ease_buttons (with_widgets (show_response_buttons ui w) ui)).

(** The click listener of the reset button; a disabled button
    dispatches no click. *)
Definition resetButton_click (timeNow : Z) (ui : CardUI S) : option (CardUI S) :=
  if resetButton_disabled (widgets ui) then Some ui
  else _processReview Reset timeNow ui.

(** The click listener of the skip button. *)
Definition skipButton_click (ui : CardUI S) : option (CardUI S) :=
  _skipCurrentCard ui.

Definition code_in (e : KeyboardEvent) (codes : list string) : bool :=
  existsb (String.eqb (code e)) codes.

(** Runs [action] and consumes the key event. *)
Definition consuming (action : option (CardUI S)) : option (CardUI S * bool) :=
  ui ← action; Some (ui, true).

(** The key handler: the new state, and whether the event was
    consumed ([preventDefault] and [stopPropagation]). *)
Definition _keydownHandler (e : KeyboardEvent) (timeNow : Z) (ui : CardUI S)
  : option (CardUI S * bool) :=
  if bool_decide (activeElement e = TextArea)
     || bool_decide (mode ui = Closed)
     || negb (srInFocus e)
  then Some (ui, false)
  else
    let isTypingInInput := bool_decide (activeElement e = TypeInInput) in
    if code_in e ["KeyS"%string] then
      if negb isTypingInInput then consuming (_skipCurrentCard ui)
      else Some (ui, false)
    else if code_in e ["Space"%string] then
      if isTypingInInput then Some (ui, false)
      else if bool_decide (mode ui = Front) then
        if negb (_isTypeInCard ui) then consuming (_showAnswer timeNow ui)
        else Some (ui, false)
      else if bool_decide (mode ui = Back) then
        consuming (_processReview Good timeNow ui)
      else Some (ui, false)
    else if code_in e ["Enter"%string; "NumpadEnter"%string] then
      if bool_decide (mode ui ≠ Front) then Some (ui, false)
      else if negb (_isTypeInCard ui) then consuming (_showAnswer timeNow ui)
      else Some (ui, false)
    else if code_in e ["Numpad1"%string; "Digit1"%string] then
      if bool_decide (mode ui ≠ Back) then Some (ui, false)
      else consuming (_processReview Hard timeNow ui)
    else if code_in e ["Numpad2"%string; "Digit2"%string] then
      if bool_decide (mode ui ≠ Back) then Some (ui, false)
      else consuming (_processReview Good timeNow ui)
    else if code_in e ["Numpad3"%string; "Digit3"%string] then
      if bool_decide (mode ui ≠ Back) then Some (ui, false)
      else consuming (_processReview Easy timeNow ui)
    else if code_in e ["Numpad0"%string; "Digit0"%string] then
      if bool_decide (mode ui ≠ Back) then Some (ui, false)
      else consuming (_processReview Reset timeNow ui)
    else Some (ui, false).

(** The three debounced actions. *)
Inductive DebouncedAction :=
  | RevealAnswer
  | CheckTypedAnswer
  | GradedResponse (response : ReviewResponse).

Definition perform (a : DebouncedAction) (timeNow : Z) (ui : CardUI S)
  : option (CardUI S) :=
  match a with
  | RevealAnswer => _showAnswer timeNow ui
  | CheckTypedAnswer => _checkTypeInAnswer timeNow ui
  | GradedResponse r => _processReview r timeNow ui
  end.

(** What an accepted action leaves behind. *)
Definition applied (a : DebouncedAction) (ui ui' : CardUI S) : Prop :=
  match a with
  | RevealAnswer | CheckTypedAnswer => mode ui' = Back
  | GradedResponse r =>
      reviewSequencer ui' = processReview r (reviewSequencer ui) ∧
      calls ui ++ [CallProcessReview r] `prefix_of` calls ui'
  end.

(** While the front of the card is shown, the reset button is
    disabled. *)
Definition reset_disabled_in_Front (ui : CardUI S) : Prop :=
  mode ui = Front → resetButton_disabled (widgets ui) = true.
End CardUI.

(** Modelled from the spec: a sequencer for the examples, whose
    implementation is not at hand.  It is a queue of cards: the current
    card is the head, a review or a skip moves on to the next.  The
    theorems hold for every sequencer. *)
Definition QueueSequencer := list Card.

#[global] Instance QueueSequencer_sequencer : IFlashcardReviewSequencer QueueSequencer := {
  currentCard q := head q;
  processReview _ q := tail q;
  skipCurrentCard q := tail q;
}.

Definition basic_card : Card :=
  mkCard (str "capital of France?") (str "Paris") (mkQuestion OtherCardType).

Definition typein_card : Card :=
  mkCard (str "cat in English?") (str " cat ") (mkQuestion SingleLineTypeIn).

Definition initial_widgets : Widgets :=
  {| resetButton_disabled := false;
     answerButton_hidden := false;
     hardButton_hidden := true;
     goodButton_hidden := true;
     easyButton_hidden := true;
     typeInContainer_hidden := true;
     typeInInput_value := [];
     typeInInput_disabled := false;
     checkAnswerButton_hidden := false;
     typeInResult := None;
     response_isCram := false;
     content := [] |}.

(** A controller over a queue of cards before its first card is drawn
    ([mode] is first assigned by [_drawContent]). *)
Definition new_CardUI (queue : QueueSequencer) (delay : Z) (rm : FlashcardReviewMode)
  : CardUI QueueSequencer :=
  {| mode := Front;
     lastPressed := None;
     userTypedAnswer := [];
     reviewSequencer := queue;
     settings := mkSRSettings delay false;
     reviewMode := rm;
     widgets := initial_widgets;
     calls := [];
     scheduleQueries := [] |}.

(** A string that begins, or ends, with a white space unit. *)
Definition starts_with_space (s : jsstring) : Prop :=
  ∃ c, head s = Some c ∧ isWhiteSpace c = true.

Definition ends_with_space (s : jsstring) : Prop :=
  ∃ c, last s = Some c ∧ isWhiteSpace c = true.

Definition all_space (s : jsstring) : Prop :=
  Forall (λ c, isWhiteSpace c = true) s.

(** The strings [isAnswerCorrect] compares. *)
Definition compared (caseSensitive : bool) (s : jsstring) : jsstring :=
  if caseSensitive then trim s else toLowerCase (trim s).

(** The user types [s] into the answer field. *)
Definition type_answer {S} (s : jsstring) (ui : CardUI S) : CardUI S :=
  let w := widgets ui in
  mkCardUI (mode ui) (lastPressed ui) (userTypedAnswer ui) (reviewSequencer ui)
    (settings ui) (reviewMode ui)
    {| resetButton_disabled := resetButton_disabled w;
       answerButton_hidden := answerButton_hidden w;
       hardButton_hidden := hardButton_hidden w;
       goodButton_hidden := goodButton_hidden w;
       easyButton_hidden := easyButton_hidden w;
       typeInContainer_hidden := typeInContainer_hidden w;
       typeInInput_value := s;
       typeInInput_disabled := typeInInput_disabled w;
       checkAnswerButton_hidden := checkAnswerButton_hidden w;
       typeInResult := typeInResult w;
       response_isCram := response_isCram w;
       content := content w |}
    (calls ui) (scheduleQueries ui).

(** A session over a basic card followed by a typed-answer card, with a
    delay of 200 ms, once the first card is drawn. *)
Definition front_ui : CardUI QueueSequencer :=
  default (new_CardUI [] 200 Review)
          (_drawContent (new_CardUI [basic_card; typein_card] 200 Review)).

(** The same session after the answer was revealed at time 1000. *)
Definition back_ui : CardUI QueueSequencer :=
  default front_ui (_showAnswer 1000 front_ui).

(** A session on the typed-answer card, ["dog"] typed, nothing pressed yet. *)
Definition typein_ui (rm : FlashcardReviewMode) : CardUI QueueSequencer :=
  type_answer (str "dog")
    (default (new_CardUI [] 200 rm)
             (_drawContent (new_CardUI [typein_card; basic_card] 200 rm))).

Definition key (c : string) : KeyboardEvent :=
  {| code := c; activeElement := OtherElement; srInFocus := true |}.

(** ** [renderDiffHtml] and [escapeHtml] *)

(** What the element's [innerHTML] gives back for one code unit of its
    [textContent]: the serialisation of a text node replaces the
    ampersand, the no-break space and the two angle brackets by their
    entities. *)
Definition escapeUnit (c : ascii) : jsstring :=
  if bool_decide (c = "&"%char) then str "&amp;"
  else if bool_decide (c = ascii_of_nat 160) then str "&nbsp;"
  else if bool_decide (c = "<"%char) then str "&lt;"
  else if bool_decide (c = ">"%char) then str "&gt;"
  else [c].

Definition escapeHtml (text : jsstring) : jsstring :=
  mjoin (escapeUnit <$> text).

(** The template [<span class="...">escapedText</span>]. *)
Definition span (class escapedText : jsstring) : jsstring :=
  str "<span class=" ++ ["034"%char] ++ class ++ ["034"%char] ++ str ">"
    ++ escapedText ++ str "</span>".

Definition renderSegment (segment : DiffSegment) : jsstring :=
  let escapedText := escapeHtml (text segment) in
  match type segment with
  | Equal => span (str "sr-typein-correct") escapedText
  | Insert => span (str "sr-typein-missing") escapedText
  | Delete => span (str "sr-typein-incorrect") escapedText
  end.

Definition renderDiffHtml (diff : list DiffSegment) : jsstring :=
  mjoin (renderSegment <$> diff).

(** Number of occurrences of a code unit. *)
Definition count_unit (c : ascii) (s : jsstring) : nat :=
  length (filter (λ x, x = c) s).

(** ** States of the controller used in the statements *)

Definition isTypeIn (card : Card) : bool :=
  match questionType (question card) with
  | SingleLineTypeIn | MultiLineTypeIn => true
  | _ => false
  end.

(** The view right after [card] was drawn: its front shown, the rating
    buttons hidden and the reset button disabled; for a typed-answer
    card the empty, enabled answer field with the check button and no
    result, otherwise the answer button. *)
Definition fresh_card {S} (card : Card) (ui : CardUI S) : Prop :=
  let w := widgets ui in
  mode ui = Front ∧
  resetButton_disabled w = true ∧
  hardButton_hidden w = true ∧ goodButton_hidden w = true ∧ easyButton_hidden w = true ∧
  content w = [Markdown (trimStart (front card))] ∧
  if isTypeIn card
  then answerButton_hidden w = true ∧ typeInContainer_hidden w = false ∧
       typeInInput_value w = [] ∧ typeInInput_disabled w = false ∧
       checkAnswerButton_hidden w = false ∧ typeInResult w = None ∧
       userTypedAnswer ui = []
  else answerButton_hidden w = false ∧ typeInContainer_hidden w = true.

(** What no transition of the controller changes. *)
Definition same_session {S} (ui ui' : CardUI S) : Prop :=
  settings ui' = settings ui ∧ reviewMode ui' = reviewMode ui.

(** ** [_formatQuestionContextText] *)

(** [s.startsWith(p)] and [s.endsWith(p)]. *)
Fixpoint startsWith (p s : jsstring) : bool :=
  match p, s with
  | [], _ => true
  | a :: p', b :: s' => bool_decide (a = b) && startsWith p' s'
  | _ :: _, [] => false
  end.

Definition endsWith (p s : jsstring) : bool := startsWith (reverse p) (reverse s).

(** [s.replace(p, "")] for a string pattern: the first occurrence goes. *)
Fixpoint remove_first (p s : jsstring) : jsstring :=
  if startsWith p s then drop (length p) s
  else match s with
       | [] => []
       | c :: s' => c :: remove_first p s'
       end.

(** [s.split(sep)] for a separator of one character. *)
Fixpoint split (sep : ascii) (s : jsstring) : list jsstring :=
  match s with
  | [] => [[]]
  | c :: s' =>
      if bool_decide (c = sep) then [] :: split sep s'
      else match split sep s' with
           | piece :: rest => (c :: piece) :: rest
           | [] => [[c]]
           end
  end.

(** The body of the [forEach] callback, up to the new value of
    [context]; [None] is the [undefined] of a missing array element. *)
Definition context_text (context : jsstring) : option jsstring :=
  if startsWith (str "[[") context && endsWith (str "]]") context
  then
    let context := remove_first (str "]]") (remove_first (str "[[") context) in
    if bool_decide ("|"%char ∈ context) then split "|" context !! 1
    else Some context
  else Some context.

(** [basename] is [this._currentNote.file.basename]. *)
Definition _formatQuestionContextText (basename : jsstring) (questionContext : list jsstring)
  : option jsstring :=
  let separator := str " > " in
  foldl (λ result context,
           r ← result; c ← context_text context; Some (r ++ separator ++ c))
        (Some basename) questionContext.

(** ** [src/gui/card-ui.tsx]: the view, the key listener and the deck
    information bar

    The state of [CardUI] that the transitions above do not read: whether
    the view is hidden, whether the key listener is attached, the decks
    and the counters of the information bar.  The functions that draw a
    card are given again in full, with the deck information they update
    before the card content. *)

(** Modelled from the spec: the class [Deck] of [src/deck], with the
    members [CardUI] reads; [deckRef] is the identity of the object,
    [subdecks] the length of its array of subdecks. *)
Record Deck := mkDeck {
  deckRef : nat;
  deckName : jsstring;
  topicPath : list jsstring;
  subdecks : nat;
}.

(** Modelled from the spec: the statistics [getDeckStats] returns, with
    the three counts [CardUI] reads. *)
Record DeckStats := mkDeckStats {
  cardsInQueueCount : Z;
  decksInQueueOfThisDeckCount : Z;
  cardsInQueueOfThisDeckCount : Z;
}.

(** Modelled from the spec: the deck side of the interface
    [IFlashcardReviewSequencer]; [currentDeck] is [None] for [null]. *)
Class IDeckSequencer (S : Type) := {
  currentDeck : S → option Deck;
  getDeckStats : S → list jsstring → DeckStats;
}.

(** The texts of the information bar; a counter [done/total] is kept as
    the pair of its numbers, [None] before it was first set. *)
Record InfoBar := mkInfoBar {
  chosenDeckName : jsstring;
  chosenDeckCardCounter : option (Z * Z);
  chosenDeckSubDeckCounterWrapper_hidden : bool;
  chosenDeckSubDeckCounter : option (Z * Z);
  currentDeckInfo_hidden : bool;
  currentDeckName : jsstring;
  currentDeckCardCounter : option (Z * Z);
}.

(** The whole controller.  [currentDeck_] and [previousDeck] are the
    fields [currentDeck] and [previousDeck]: [None] for [undefined]
    (never assigned), [Some None] for [null].  [isRandomMode] is
    [settings.flashcardCardOrder === "EveryCardRandomDeckAndCard"]. *)
Record CardView (S : Type) := mkCardView {
  ui : CardUI S;
  view_hidden : bool;
  keydown_listening : bool;
  chosenDeck : option Deck;
  totalCardsInSession : Z;
  totalDecksInSession : Z;
  currentDeck_ : option (option Deck);
  previousDeck : option (option Deck);
  currentDeckTotalCardsInQueue : Z;
  isRandomMode : bool;
  infoBar : InfoBar;
}.

Arguments mkCardView {S}.
Arguments ui {S}.
Arguments view_hidden {S}.
Arguments keydown_listening {S}.
Arguments chosenDeck {S}.
Arguments totalCardsInSession {S}.
Arguments totalDecksInSession {S}.
Arguments currentDeck_ {S}.
Arguments previousDeck {S}.
Arguments currentDeckTotalCardsInQueue {S}.
Arguments isRandomMode {S}.
Arguments infoBar {S}.

Section CardView.
Context {S : Type} `{!IFlashcardReviewSequencer S} `{!IDeckSequencer S}.

Definition with_ui (u : CardUI S) (v : CardView S) : CardView S :=
  mkCardView u (view_hidden v) (keydown_listening v) (chosenDeck v)
    (totalCardsInSession v) (totalDecksInSession v) (currentDeck_ v) (previousDeck v)
    (currentDeckTotalCardsInQueue v) (isRandomMode v) (infoBar v).

Definition with_infoBar (b : InfoBar) (v : CardView S) : CardView S :=
  mkCardView (ui v) (view_hidden v) (keydown_listening v) (chosenDeck v)
    (totalCardsInSession v) (totalDecksInSession v) (currentDeck_ v) (previousDeck v)
    (currentDeckTotalCardsInQueue v) (isRandomMode v) b.

(** The class [sr-is-hidden] of the view and the key listener. *)
Definition with_view (hidden listening : bool) (v : CardView S) : CardView S :=
  mkCardView (ui v) hidden listening (chosenDeck v)
    (totalCardsInSession v) (totalDecksInSession v) (currentDeck_ v) (previousDeck v)
    (currentDeckTotalCardsInQueue v) (isRandomMode v) (infoBar v).

(** [previousDeck !== currentDeck], on object identity. *)
Definition decks_differ (previous : option (option Deck)) (current : option Deck) : bool :=
  match previous, current with
  | Some (Some p), Some c => negb (deckRef p =? deckRef c)
  | Some None, None => false
  | _, _ => true
  end.

Definition _updateChosenDeckInfo (chosen : Deck) (v : CardView S) : CardView S :=
  let chosenDeckStats := getDeckStats (reviewSequencer (ui v)) (topicPath chosen) in
  let b := infoBar v in
  let cards :=
    Some ((totalCardsInSession v - cardsInQueueCount chosenDeckStats)%Z,
          totalCardsInSession v) in
  if subdecks chosen =? 0
  then
    with_infoBar
      {| chosenDeckName := deckName chosen;
         chosenDeckCardCounter := cards;
         chosenDeckSubDeckCounterWrapper_hidden := true;
         chosenDeckSubDeckCounter := chosenDeckSubDeckCounter b;
         currentDeckInfo_hidden := currentDeckInfo_hidden b;
         currentDeckName := currentDeckName b;
         currentDeckCardCounter := currentDeckCardCounter b |} v
  else
    with_infoBar
      {| chosenDeckName := deckName chosen;
         chosenDeckCardCounter := cards;
         chosenDeckSubDeckCounterWrapper_hidden := false;
         chosenDeckSubDeckCounter :=
           Some ((totalDecksInSession v - decksInQueueOfThisDeckCount chosenDeckStats)%Z,
                 totalDecksInSession v);
         currentDeckInfo_hidden := currentDeckInfo_hidden b;
         currentDeckName := currentDeckName b;
         currentDeckCardCounter := currentDeckCardCounter b |} v.

Definition _updateCurrentDeckInfo (chosen : Deck) (current : option Deck) (v : CardView S)
  : option (CardView S) :=
  let b := infoBar v in
  if subdecks chosen =? 0
  then
    Some (with_infoBar
            {| chosenDeckName := chosenDeckName b;
               chosenDeckCardCounter := chosenDeckCardCounter b;
               chosenDeckSubDeckCounterWrapper_hidden :=
                 chosenDeckSubDeckCounterWrapper_hidden b;
               chosenDeckSubDeckCounter := chosenDeckSubDeckCounter b;
               currentDeckInfo_hidden := true;
               currentDeckName := currentDeckName b;
               currentDeckCardCounter := currentDeckCardCounter b |} v)
  else
    d ← current;
    let currentDeckStats := getDeckStats (reviewSequencer (ui v)) (topicPath d) in
    Some (with_infoBar
            {| chosenDeckName := chosenDeckName b;
               chosenDeckCardCounter := chosenDeckCardCounter b;
               chosenDeckSubDeckCounterWrapper_hidden :=
                 chosenDeckSubDeckCounterWrapper_hidden b;
               chosenDeckSubDeckCounter := chosenDeckSubDeckCounter b;
               currentDeckInfo_hidden := false;
               currentDeckName := deckName d;
               currentDeckCardCounter :=
                 if negb (isRandomMode v)
                 then Some ((currentDeckTotalCardsInQueue v
                             - cardsInQueueOfThisDeckCount currentDeckStats)%Z,
                            currentDeckTotalCardsInQueue v)
                 else currentDeckCardCounter b |} v).

(** [_updateInfoBar], without the card context line. *)
Definition _updateInfoBar (chosen : Deck) (current : option Deck) (v : CardView S)
  : option (CardView S) :=
  _updateCurrentDeckInfo chosen current (_updateChosenDeckInfo chosen v).

(** [_drawContent] in full: the deck fields and the information bar,
    then the card as [_drawContent] above draws it. *)
Definition _drawContent_full (v : CardView S) : option (CardView S) :=
  let previous := currentDeck_ v in
  let current := currentDeck (reviewSequencer (ui v)) in
  total ←
    (if decks_differ previous current
     then d ← current;
          Some (cardsInQueueOfThisDeckCount
                  (getDeckStats (reviewSequencer (ui v)) (topicPath d)))
     else Some (currentDeckTotalCardsInQueue v));
  let v :=
    mkCardView (ui v) (view_hidden v) (keydown_listening v) (chosenDeck v)
      (totalCardsInSession v) (totalDecksInSession v) (Some current) previous
      total (isRandomMode v) (infoBar v) in
  chosen ← chosenDeck v;
  v ← _updateInfoBar chosen current v;
  u ← _drawContent (ui v);
  Some (with_ui u v).

Definition refresh_full (v : CardView S) : option (CardView S) := _drawContent_full v.

Definition show (chosen : Deck) (v : CardView S) : option (CardView S) :=
  if negb (view_hidden v) then Some v
  else
    let deckStats := getDeckStats (reviewSequencer (ui v)) (topicPath chosen) in
    let v :=
      mkCardView (ui v) (view_hidden v) (keydown_listening v) (Some chosen)
        (cardsInQueueCount deckStats) (decksInQueueOfThisDeckCount deckStats)
        (currentDeck_ v) (previousDeck v)
        (currentDeckTotalCardsInQueue v) (isRandomMode v) (infoBar v) in
    v ← _drawContent_full v;
    Some (with_view false true v).

Definition hide (v : CardView S) : CardView S :=
  if view_hidden v then v else with_view true false v.

Definition close (v : CardView S) : CardView S :=
  let v := hide v in
  with_view (view_hidden v) false v.

Definition _showNextCard_full (v : CardView S) : option (CardView S) :=
  match _currentCard (ui v) with
  | Some _ => refresh_full v
  | None => Some (with_ui (with_call (reviewSequencer (ui v)) CallBackToDeck (ui v)) v)
  end.

Definition _processReview_full (response : ReviewResponse) (timeNow : Z) (v : CardView S)
  : option (CardView S) :=
  if debounced timeNow (ui v) then Some v
  else
    let u := with_lastPressed timeNow (ui v) in
    _showNextCard_full
      (with_ui (with_call (processReview response (reviewSequencer u))
                          (CallProcessReview response) u) v).

Definition _skipCurrentCard_full (v : CardView S) : option (CardView S) :=
  _showNextCard_full
    (with_ui (with_call (skipCurrentCard (reviewSequencer (ui v)))
                        CallSkipCurrentCard (ui v)) v).

(** [_showAnswer] draws no card: it only touches the state above. *)
Definition _showAnswer_full (timeNow : Z) (v : CardView S) : option (CardView S) :=
  u ← _showAnswer timeNow (ui v); Some (with_ui u v).

Definition _checkTypeInAnswer_full (timeNow : Z) (v : CardView S) : option (CardView S) :=
  u ← _checkTypeInAnswer timeNow (ui v); Some (with_ui u v).

Definition consuming_full (action : option (CardView S)) : option (CardView S * bool) :=
  v ← action; Some (v, true).

Definition _keydownHandler_full (e : KeyboardEvent) (timeNow : Z) (v : CardView S)
  : option (CardView S * bool) :=
  if bool_decide (activeElement e = TextArea)
     || bool_decide (mode (ui v) = Closed)
     || negb (srInFocus e)
  then Some (v, false)
  else
    let isTypingInInput := bool_decide (activeElement e = TypeInInput) in
    if code_in e ["KeyS"%string] then
      if negb isTypingInInput then consuming_full (_skipCurrentCard_full v)
      else Some (v, false)
    else if code_in e ["Space"%string] then
      if isTypingInInput then Some (v, false)
      else if bool_decide (mode (ui v) = Front) then
        if negb (_isTypeInCard (ui v)) then consuming_full (_showAnswer_full timeNow v)
        else Some (v, false)
      else if bool_decide (mode (ui v) = Back) then
        consuming_full (_processReview_full Good timeNow v)
      else Some (v, false)
    else if code_in e ["Enter"%string; "NumpadEnter"%string] then
      if bool_decide (mode (ui v) ≠ Front) then Some (v, false)
      else if negb (_isTypeInCard (ui v)) then consuming_full (_showAnswer_full timeNow v)
      else Some (v, false)
    else if code_in e ["Numpad1"%string; "Digit1"%string] then
      if bool_decide (mode (ui v) ≠ Back) then Some (v, false)
      else consuming_full (_processReview_full Hard timeNow v)
    else if code_in e ["Numpad2"%string; "Digit2"%string] then
      if bool_decide (mode (ui v) ≠ Back) then Some (v, false)
      else consuming_full (_processReview_full Good timeNow v)
    else if code_in e ["Numpad3"%string; "Digit3"%string] then
      if bool_decide (mode (ui v) ≠ Back) then Some (v, false)
      else consuming_full (_processReview_full Easy timeNow v)
    else if code_in e ["Numpad0"%string; "Digit0"%string] then
      if bool_decide (mode (ui v) ≠ Back) then Some (v, false)
      else consuming_full (_processReview_full Reset timeNow v)
    else Some (v, false).

(** A key goes down in the document: the handler runs if [show]
    attached it and [hide] did not detach it since. *)
Definition document_keydown (e : KeyboardEvent) (timeNow : Z) (v : CardView S)
  : option (CardView S * bool) :=
  if keydown_listening v then _keydownHandler_full e timeNow v
  else Some (v, false).

(** The listener is attached exactly while the view is shown. *)
Definition listener_matches_view (v : CardView S) : Prop :=
  keydown_listening v = negb (view_hidden v).

(** What only [show] sets. *)
Definition same_totals (v v' : CardView S) : Prop :=
  chosenDeck v' = chosenDeck v ∧
  totalCardsInSession v' = totalCardsInSession v ∧
  totalDecksInSession v' = totalDecksInSession v ∧
  isRandomMode v' = isRandomMode v.

(** The counters of the chosen deck as the bar must show them for the
    sequencer state of [v]. *)
Definition chosen_counters_current (chosen : Deck) (v : CardView S) : Prop :=
  let stats := getDeckStats (reviewSequencer (ui v)) (topicPath chosen) in
  let b := infoBar v in
  chosenDeckName b = deckName chosen ∧
  chosenDeckCardCounter b =
    Some ((totalCardsInSession v - cardsInQueueCount stats)%Z, totalCardsInSession v) ∧
  currentDeckInfo_hidden b = bool_decide (subdecks chosen = 0) ∧
  chosenDeckSubDeckCounterWrapper_hidden b = bool_decide (subdecks chosen = 0) ∧
  (subdecks chosen ≠ 0 →
   chosenDeckSubDeckCounter b =
     Some ((totalDecksInSession v - decksInQueueOfThisDeckCount stats)%Z,
           totalDecksInSession v)).
End CardView.

(** ** The listeners [init] attaches *)

Inductive Button :=
  | AnswerButton | CheckAnswerButton | HardButton | GoodButton | EasyButton
  | ResetButton | SkipButton.

(** What reaches the controller: a key going down in the document, or a
    click on one of its buttons. *)
Inductive UIEvent :=
  | Keydown (e : KeyboardEvent)
  | Click (b : Button).

Section Listeners.
Context {S : Type} `{!IFlashcardReviewSequencer S} `{!IDeckSequencer S}.

(** The click listeners, on the state the transitions read. *)
Definition click (b : Button) (timeNow : Z) (u : CardUI S) : option (CardUI S) :=
  match b with
  | AnswerButton => _showAnswer timeNow u
  | CheckAnswerButton => _checkTypeInAnswer timeNow u
  | HardButton => _processReview Hard timeNow u
  | GoodButton => _processReview Good timeNow u
  | EasyButton => _processReview Easy timeNow u
  | ResetButton => resetButton_click timeNow u
  | SkipButton => skipButton_click u
  end.

(** The click listeners in full. *)
Definition click_full (b : Button) (timeNow : Z) (v : CardView S) : option (CardView S) :=
  match b with
  | AnswerButton => _showAnswer_full timeNow v
  | CheckAnswerButton => _checkTypeInAnswer_full timeNow v
  | HardButton => _processReview_full Hard timeNow v
  | GoodButton => _processReview_full Good timeNow v
  | EasyButton => _processReview_full Easy timeNow v
  | ResetButton =>
      if resetButton_disabled (widgets (ui v)) then Some v
      else _processReview_full Reset timeNow v
  | SkipButton => _skipCurrentCard_full v
  end.

(** One event handled by the transitions alone: the new state, and
    whether a key event was consumed. *)
Definition handle (ev : UIEvent) (timeNow : Z) (u : CardUI S) : option (CardUI S * bool) :=
  match ev with
  | Keydown e => _keydownHandler e timeNow u
  | Click b => u' ← click b timeNow u; Some (u', false)
  end.

(** One event handled by the whole controller, its listener attached. *)
Definition handle_full (ev : UIEvent) (timeNow : Z) (v : CardView S)
  : option (CardView S * bool) :=
  match ev with
  | Keydown e => _keydownHandler_full e timeNow v
  | Click b => v' ← click_full b timeNow v; Some (v', false)
  end.
(** What an event handler keeps of the view: the class of the view, the
    listener and what [show] set. *)
Definition view_kept (v v' : CardView S) : Prop :=
  view_hidden v' = view_hidden v ∧ keydown_listening v' = keydown_listening v ∧
  same_totals v v'.
End Listeners.

(** Modelled from the spec: the deck side of the example sequencer,
    whose implementation is not at hand.  All cards of the queue are in
    one deck without subdecks, and every count is the length of the
    queue.  The theorems hold for every sequencer. *)
Definition example_deck : Deck :=
  {| deckRef := 1; deckName := str "Geography"; topicPath := [str "Geography"]; subdecks := 0 |}.

#[global] Instance QueueSequencer_decks : IDeckSequencer QueueSequencer := {
  currentDeck q := Some example_deck;
  getDeckStats q path :=
    {| cardsInQueueCount := Z.of_nat (length q);
       decksInQueueOfThisDeckCount := 0;
       cardsInQueueOfThisDeckCount := Z.of_nat (length q) |};
}.

(** The whole controller as [init] leaves it: the view hidden, no
    listener, the two optional lines of the bar hidden. *)
Definition new_CardView (queue : QueueSequencer) : CardView QueueSequencer :=
  {| ui := new_CardUI queue 200 Review;
     view_hidden := true;
     keydown_listening := false;
     chosenDeck := None;
     totalCardsInSession := 0;
     totalDecksInSession := 0;
     currentDeck_ := None;
     previousDeck := None;
     currentDeckTotalCardsInQueue := 0;
     isRandomMode := false;
     infoBar :=
       {| chosenDeckName := [];
          chosenDeckCardCounter := None;
          chosenDeckSubDeckCounterWrapper_hidden := true;
          chosenDeckSubDeckCounter := None;
          currentDeckInfo_hidden := true;
          currentDeckName := [];
          currentDeckCardCounter := None |} |}.

(** A session of two cards once [show] has run. *)
Definition shown_view : CardView QueueSequencer :=
  default (new_CardView []) (show example_deck (new_CardView [basic_card; typein_card])).

(** * Properties of the table *)

Section Diff_facts.
Context {U : Type} `{EqDecision U}.

Lemma lcs_length_nil_r (xs : list U) : lcs_length xs [] = 0.
Proof. by destruct xs. Qed.

Section Table.
Context (str1 str2 : list U).

Local Abbreviation m := (length str1).
Local Abbreviation n := (length str2).
Local Abbreviation V := (table_value str1 str2).

Lemma table_value_0_l j : V 0 j = 0.
Proof. done. Qed.

Lemma table_value_0_r i : V i 0 = 0.
Proof. unfold table_value. by rewrite take_0, lcs_length_nil_r. Qed.

Lemma table_value_step i j :
  i < m → j < n →
  V (S i) (S j) =
    if bool_decide (str1 !! i = str2 !! j) then V i j + 1
    else Nat.max (V i (S j)) (V (S i) j).
Proof.
  intros Hi Hj.
  destruct (lookup_lt_is_Some_2 str1 i Hi) as [x Hx].
  destruct (lookup_lt_is_Some_2 str2 j Hj) as [y Hy].
  unfold table_value.
  rewrite (take_S_r str1 i x Hx), (take_S_r str2 j y Hy), !reverse_snoc, Hx, Hy.
  cbn [lcs_length].
  repeat case_bool_decide; congruence.
Qed.

Lemma dp_get_set dp i j v a b :
  table_shape str1 str2 dp → i ≤ m → j ≤ n →
  dp_get (dp_set dp i j v) a b = if decide (a = i ∧ b = j) then v else dp_get dp a b.
Proof.
  intros [Hlen Hrows] Hi Hj. unfold dp_get, dp_set.
  destruct (decide (a = i)) as [->|Hne].
  - rewrite list_lookup_alter_eq.
    destruct (lookup_lt_is_Some_2 dp i ltac:(lia)) as [row Hrow].
    rewrite Hrow. cbn. pose proof (Hrows _ _ Hrow) as Hr.
    destruct (decide (b = j)) as [->|Hnb].
    + rewrite list_lookup_insert_eq by lia. by rewrite decide_True.
    + rewrite list_lookup_insert_ne by done. rewrite decide_False by tauto. done.
  - rewrite list_lookup_alter_ne by done. rewrite decide_False by tauto. done.
Qed.

Lemma dp_set_shape dp i j v :
  table_shape str1 str2 dp → table_shape str1 str2 (dp_set dp i j v).
Proof.
  intros [Hlen Hrows]. split.
  - unfold dp_set. by rewrite length_alter.
  - intros a row. unfold dp_set. rewrite list_lookup_alter.
    case_decide as Heq; [|apply Hrows].
    destruct (dp !! i) as [r|] eqn:Hr; [|done]. cbn. intros [= <-].
    rewrite length_insert. eauto.
Qed.

Lemma lcs_cell_inv dp i j :
  1 ≤ i ≤ m → 1 ≤ j ≤ n →
  table_inv str1 str2 i j dp → table_inv str1 str2 i (S j) (lcs_cell str1 str2 i dp j).
Proof.
  intros Hi Hj [Hshape Hcells].
  assert (Hnew : ∀ v, v = V i j →
            table_inv str1 str2 i (S j) (dp_set dp i j v)).
  { intros v ->. split; [by apply dp_set_shape|].
    intros a b Ha Hb Hdone. rewrite dp_get_set by (done || lia).
    case_decide as Heq; [by destruct Heq as [-> ->]|].
    apply Hcells; [done..|]. unfold cell_done in *. lia. }
  unfold lcs_cell.
  destruct i as [|i]; [lia|]. destruct j as [|j]; [lia|].
  replace (S i - 1) with i by lia. replace (S j - 1) with j by lia.
  rewrite !Hcells by (unfold cell_done; lia).
  case_bool_decide as Heq; apply Hnew;
    rewrite table_value_step by lia; by case_bool_decide.
Qed.

Lemma lcs_row_prefix_inv dp i k :
  1 ≤ i ≤ m → k ≤ n →
  table_inv str1 str2 i 1 dp →
  table_inv str1 str2 i (S k) (foldl (lcs_cell str1 str2 i) dp (seq 1 k)).
Proof.
  intros Hi. induction k as [|k IH]; intros Hk Hinv; [done|].
  rewrite seq_S, foldl_app. cbn [foldl]. replace (1 + k) with (S k) by done.
  apply lcs_cell_inv; [lia..|]. apply IH; [lia|done].
Qed.

Lemma lcs_row_inv dp i :
  1 ≤ i ≤ m →
  table_inv str1 str2 i 1 dp → table_inv str1 str2 (S i) 1 (lcs_row str1 str2 dp i).
Proof.
  intros Hi Hinv. unfold lcs_row.
  destruct (lcs_row_prefix_inv dp i n Hi ltac:(done) Hinv) as [Hshape Hcells].
  split; [done|]. intros a b Ha Hb Hdone. apply Hcells; [done..|].
  unfold cell_done in *. lia.
Qed.

Lemma lcs_rows_inv dp k :
  k ≤ m →
  table_inv str1 str2 1 1 dp →
  table_inv str1 str2 (S k) 1 (foldl (lcs_row str1 str2) dp (seq 1 k)).
Proof.
  induction k as [|k IH]; intros Hk Hinv; [done|].
  rewrite seq_S, foldl_app. cbn [foldl]. replace (1 + k) with (S k) by done.
  apply lcs_row_inv; [lia|]. apply IH; [lia|done].
Qed.

Lemma table_init_inv :
  table_inv str1 str2 1 1 (replicate (m + 1) (replicate (n + 1) 0)).
Proof.
  split.
  - split; [by rewrite length_replicate|].
    intros i row [-> _]%lookup_replicate. by rewrite length_replicate.
  - intros a b Ha Hb Hdone. unfold dp_get.
    rewrite lookup_replicate_2 by lia. cbn. rewrite lookup_replicate_2 by lia. cbn.
    assert (a = 0 ∨ b = 0) as [-> | ->] by (unfold cell_done in *; lia).
    + by rewrite table_value_0_l.
    + by rewrite table_value_0_r.
Qed.

(** The table has [m + 1] rows of [n + 1] numbers. *)
Lemma computeLCS_shape : table_shape str1 str2 (computeLCS str1 str2).
Proof. apply (lcs_rows_inv _ m); [done|apply table_init_inv]. Qed.

(** Every cell holds the length of a longest common subsequence of the
    two prefixes. *)
Lemma computeLCS_value i j :
  i ≤ m → j ≤ n → dp_get (computeLCS str1 str2) i j = V i j.
Proof.
  intros Hi Hj.
  destruct (lcs_rows_inv _ m ltac:(done) table_init_inv) as [_ Hcells].
  apply Hcells; [done..|]. unfold cell_done. lia.
Qed.
End Table.

(** * The backtracking loop computes the reference alignment *)

Lemma align_cons_cons (f : U → U) x xs y ys :
  align f (x :: xs) (y :: ys) =
    if bool_decide (f x = f y)
    then mkCharSegment Equal y :: align f xs ys
    else if lcs_length (f <$> xs) (f <$> y :: ys) <=? lcs_length (f <$> x :: xs) (f <$> ys)
    then mkCharSegment Insert y :: align f (x :: xs) ys
    else mkCharSegment Delete x :: align f xs (y :: ys).
Proof. done. Qed.

Lemma table_value_fmap (f : U → U) (u c : list U) i j :
  table_value (f <$> u) (f <$> c) i j =
  lcs_length (f <$> reverse (take i u)) (f <$> reverse (take j c)).
Proof. unfold table_value. by rewrite !fmap_reverse, !fmap_take. Qed.

(** Inside the table the test of the loop compares two cells. *)
Lemma dp_ge_get (str1 str2 : list U) dp i j :
  table_shape str1 str2 dp →
  0 < i ≤ length str1 → 0 < j ≤ length str2 →
  dp_ge dp i j = Some (dp_get dp (i - 1) j <=? dp_get dp i (j - 1)).
Proof.
  intros [Hlen Hrows] Hi Hj. unfold dp_ge, dp_get.
  destruct (lookup_lt_is_Some_2 dp i ltac:(lia)) as [row Hrow].
  destruct (lookup_lt_is_Some_2 dp (i - 1) ltac:(lia)) as [above Habove].
  rewrite Hrow, Habove. cbn [mbind option_bind].
  pose proof (Hrows _ _ Hrow) as Hr. pose proof (Hrows _ _ Habove) as Ha.
  destruct (lookup_lt_is_Some_2 row (j - 1) ltac:(lia)) as [l Hl].
  destruct (lookup_lt_is_Some_2 above j ltac:(lia)) as [a Hab].
  by rewrite Hl, Hab.
Qed.

Section Backtrack.
Context (f : U → U) (u c : list U) (dp : list (list nat)).
Context (Hshape : table_shape (f <$> u) (f <$> c) dp).
Context (Hdp : ∀ a b, a ≤ length u → b ≤ length c →
                      dp_get dp a b = table_value (f <$> u) (f <$> c) a b).

Local Abbreviation loop := (backtrack u c (f <$> u) (f <$> c) dp).
Local Abbreviation suffix i j := (align f (reverse (take i u)) (reverse (take j c))).

Lemma backtrack_align fuel : ∀ i j segments,
  i ≤ length u → j ≤ length c → i + j ≤ fuel →
  loop fuel i j segments = Some (segments ++ suffix i j).
Proof.
  induction fuel as [|fuel IH]; intros i j segments Hi Hj Hfuel.
  { assert (i = 0 ∧ j = 0) as [-> ->] by lia. cbn. by rewrite app_nil_r. }
  destruct i as [|i], j as [|j].
  - cbn. by rewrite app_nil_r.
  - destruct (lookup_lt_is_Some_2 c j ltac:(lia)) as [y Hy].
    cbn [backtrack Nat.ltb Nat.leb orb andb negb Nat.eqb].
    replace (S j - 1) with j by lia. rewrite Hy. cbn [mbind option_bind].
    rewrite IH by lia. rewrite <- app_assoc. do 2 f_equal.
    rewrite (take_S_r c j y Hy), reverse_snoc, take_0. done.
  - destruct (lookup_lt_is_Some_2 u i ltac:(lia)) as [x Hx].
    cbn [backtrack Nat.ltb Nat.leb orb andb negb Nat.eqb].
    replace (S i - 1) with i by lia. rewrite Hx. cbn [mbind option_bind].
    rewrite IH by lia. rewrite <- app_assoc. do 2 f_equal.
    rewrite (take_S_r u i x Hx), reverse_snoc, take_0. done.
  - destruct (lookup_lt_is_Some_2 u i ltac:(lia)) as [x Hx].
    destruct (lookup_lt_is_Some_2 c j ltac:(lia)) as [y Hy].
    cbn [backtrack Nat.ltb Nat.leb orb andb negb Nat.eqb].
    rewrite (dp_ge_get _ _ _ _ _ Hshape) by (rewrite length_fmap; lia).
    replace (S i - 1) with i by lia. replace (S j - 1) with j by lia.
    rewrite !list_lookup_fmap, Hx, Hy. cbn [fmap option_fmap option_map].
    rewrite !Hdp by lia. rewrite !table_value_fmap.
    assert (Hxs : reverse (take (S i) u) = x :: reverse (take i u))
      by (by rewrite (take_S_r u i x Hx), reverse_snoc).
    assert (Hys : reverse (take (S j) c) = y :: reverse (take j c))
      by (by rewrite (take_S_r c j y Hy), reverse_snoc).
    rewrite Hxs, Hys, align_cons_cons.
    repeat case_bool_decide; try congruence;
      [|destruct (_ <=? _)]; cbn [mbind option_bind];
      rewrite IH by lia; rewrite ?Hxs, ?Hys, <- app_assoc; done.
Qed.
End Backtrack.

(** * The merge loop computes the run-length grouping *)

Lemma group_runs_cons (s : CharSegmentOf U) l : group_runs (s :: l) = cons_run s (group_runs l).
Proof. done. Qed.

Lemma merge_step_nil (s : CharSegmentOf U) : merge_step [] s = [mkDiffSegment (ctype s) [char s]].
Proof. done. Qed.

Lemma merge_step_snoc pre g (s : CharSegmentOf U) :
  merge_step (pre ++ [g]) s =
    pre ++ (if bool_decide (type g = ctype s)
            then [mkDiffSegment (type g) (text g ++ [char s])]
            else [g; mkDiffSegment (ctype s) [char s]]).
Proof.
  unfold merge_step. rewrite last_snoc.
  case_bool_decide; [|by rewrite <- app_assoc].
  rewrite length_app. cbn [length].
  replace (length pre + 1 - 1) with (length pre + 0) by lia.
  by rewrite insert_app_r.
Qed.

Lemma merge_step_singleton g (s : CharSegmentOf U) :
  merge_step [g] s =
    if bool_decide (type g = ctype s)
    then [mkDiffSegment (type g) (text g ++ [char s])]
    else [g; mkDiffSegment (ctype s) [char s]].
Proof. exact (merge_step_snoc [] g s). Qed.

Lemma merge_step_cons p q l (s : CharSegmentOf U) :
  merge_step (p :: q :: l) s = p :: merge_step (q :: l) s.
Proof.
  destruct l as [|g l _] using rev_ind.
  - change [p; q] with ([p] ++ [q]).
    by rewrite merge_step_snoc, merge_step_singleton.
  - change (p :: q :: l ++ [g]) with ((p :: q :: l) ++ [g]).
    change (q :: l ++ [g]) with ((q :: l) ++ [g]).
    by rewrite !merge_step_snoc.
Qed.

Lemma cons_run_merge_step (a : CharSegmentOf U) gs s :
  cons_run a (merge_step gs s) = merge_step (cons_run a gs) s.
Proof.
  destruct gs as [|g [|p gs]].
  - cbn [cons_run]. rewrite merge_step_nil, merge_step_singleton. cbn [cons_run type text app].
    repeat case_bool_decide; congruence.
  - cbn [cons_run]. rewrite merge_step_singleton.
    repeat case_bool_decide; cbn [cons_run type text];
      rewrite ?merge_step_cons, ?merge_step_singleton; cbn [type text];
      repeat case_bool_decide; cbn [app]; congruence.
  - rewrite merge_step_cons. cbn [cons_run].
    destruct (merge_step (p :: gs) s) as [|p' gs'] eqn:Hm.
    { exfalso. revert Hm. unfold merge_step.
      destruct (last (p :: gs)); [case_bool_decide|]; intros Hm;
        apply (f_equal length) in Hm; revert Hm;
        rewrite ?length_insert, ?length_app; cbn; lia. }
    case_bool_decide; rewrite !merge_step_cons, Hm; done.
Qed.

Lemma group_runs_snoc l (s : CharSegmentOf U) : group_runs (l ++ [s]) = merge_step (group_runs l) s.
Proof.
  induction l as [|a l IH]; [done|].
  cbn [app]. by rewrite !group_runs_cons, IH, cons_run_merge_step.
Qed.

Lemma merge_segments_group_runs (l : list (CharSegmentOf U)) : merge_segments l = group_runs l.
Proof.
  unfold merge_segments.
  induction l as [|s l IH] using rev_ind; [done|].
  by rewrite foldl_app, IH, group_runs_snoc.
Qed.

(** * [computeDiff] returns, and returns the reference alignment *)

(** When the comparison strings are the two answers under a fold [f] of
    the code units, the loops return the reference alignment. *)
Lemma computeDiff_with_refines (host_toLowerCase : list U → list U) (f : U → U)
    (userAnswer correctAnswer : list U) (caseSensitive : bool) :
  (if caseSensitive then userAnswer else host_toLowerCase userAnswer) = f <$> userAnswer →
  (if caseSensitive then correctAnswer else host_toLowerCase correctAnswer)
    = f <$> correctAnswer →
  computeDiff_with host_toLowerCase userAnswer correctAnswer caseSensitive =
    Some (computeDiff_reference_with f userAnswer correctAnswer).
Proof.
  intros Hu Hc. unfold computeDiff_with, computeDiff_reference_with.
  rewrite Hu, Hc.
  case_bool_decide; [done|].
  rewrite backtrack_align; [| | |done..].
  - cbn [mbind option_bind app]. rewrite merge_segments_group_runs.
    by rewrite !firstn_all.
  - apply computeLCS_shape.
  - intros a b Ha Hb. apply computeLCS_value; by rewrite length_fmap.
Qed.

(** * Properties of the grouping *)

Lemma cons_run_no_adjacent_same (s : CharSegmentOf U) gs :
  no_adjacent_same gs → no_adjacent_same (cons_run s gs).
Proof.
  destruct gs as [|g gs]; [done|]. cbn [cons_run].
  case_bool_decide.
  - destruct gs; [done|]. cbn. tauto.
  - cbn. tauto.
Qed.

Lemma group_runs_no_adjacent_same (l : list (CharSegmentOf U)) : no_adjacent_same (group_runs l).
Proof.
  induction l as [|s l IH]; [done|].
  rewrite group_runs_cons. by apply cons_run_no_adjacent_same.
Qed.

Lemma text_without_cons k (s : DiffSegmentOf U) segs :
  text_without k (s :: segs) =
    (if decide (type s ≠ k) then text s else []) ++ text_without k segs.
Proof.
  unfold text_without. rewrite filter_cons. by case_decide.
Qed.

Lemma cons_run_text_without k (s : CharSegmentOf U) gs :
  text_without k (cons_run s gs) =
    (if decide (ctype s ≠ k) then [char s] else []) ++ text_without k gs.
Proof.
  destruct gs as [|g gs]; cbn [cons_run]; [by rewrite !text_without_cons|].
  case_bool_decide as Heq; rewrite !text_without_cons; cbn [type text].
  - rewrite Heq. by case_decide.
  - done.
Qed.

Lemma group_runs_text_without k (l : list (CharSegmentOf U)) :
  text_without k (group_runs l) = chars_without k l.
Proof.
  unfold chars_without. induction l as [|s l IH]; [done|].
  rewrite group_runs_cons, cons_run_text_without, IH, filter_cons.
  by case_decide.
Qed.

(** * Properties of the reference alignment *)

Lemma chars_without_reverse k (l : list (CharSegmentOf U)) :
  chars_without k (reverse l) = reverse (chars_without k l).
Proof. unfold chars_without. by rewrite filter_reverse, fmap_reverse. Qed.

Lemma align_nil_l (f : U → U) ys :
  align f [] ys = mkCharSegment Insert <$> ys.
Proof. induction ys as [|y ys IH]; [done|]. cbn. by rewrite <- IH. Qed.

Lemma align_nil_r (f : U → U) xs :
  align f xs [] = mkCharSegment Delete <$> xs.
Proof. induction xs as [|x xs IH]; [done|]. cbn. by rewrite <- IH. Qed.

(** Dropping the [Delete] entries leaves the correct answer. *)
Lemma align_without_Delete (f : U → U) xs : ∀ ys, chars_without Delete (align f xs ys) = ys.
Proof.
  unfold chars_without.
  induction xs as [|x xs IHx]; intros ys.
  - rewrite align_nil_l. induction ys as [|y ys IHy]; [done|].
    cbn [fmap list_fmap]. rewrite filter_cons_True by done. cbn. by f_equal.
  - induction ys as [|y ys IHy].
    + cbn [align]. rewrite filter_cons_False by (cbn; tauto). apply IHx.
    + rewrite align_cons_cons. case_bool_decide; [|destruct (_ <=? _)].
      * rewrite filter_cons_True by done. cbn. f_equal. apply IHx.
      * rewrite filter_cons_True by done. cbn. f_equal. apply IHy.
      * rewrite filter_cons_False by (cbn; tauto). apply IHx.
Qed.

(** Dropping the [Insert] entries leaves the user's answer, up to the
    fold: a matched character is shown as the correct answer has it. *)
Lemma align_without_Insert (f : U → U) xs : ∀ ys,
  f <$> chars_without Insert (align f xs ys) = f <$> xs.
Proof.
  unfold chars_without.
  induction xs as [|x xs IHx]; intros ys.
  - rewrite align_nil_l. induction ys as [|y ys IHy]; [done|].
    cbn [fmap list_fmap]. rewrite filter_cons_False by (cbn; tauto). apply IHy.
  - induction ys as [|y ys IHy].
    + cbn [align]. rewrite filter_cons_True by done. cbn. f_equal. apply IHx.
    + rewrite align_cons_cons. case_bool_decide as Heq; [|destruct (_ <=? _)].
      * rewrite filter_cons_True by done. cbn. rewrite <- Heq. f_equal. apply IHx.
      * rewrite filter_cons_False by (cbn; tauto). apply IHy.
      * rewrite filter_cons_True by done. cbn. f_equal. apply IHx.
Qed.

Lemma reference_without_Delete (f : U → U) u c :
  text_without Delete (computeDiff_reference_with f u c) = c.
Proof.
  unfold computeDiff_reference_with. case_bool_decide.
  - rewrite text_without_cons. cbn. by rewrite app_nil_r.
  - by rewrite group_runs_text_without, chars_without_reverse,
      align_without_Delete, reverse_involutive.
Qed.

Lemma reference_without_Insert (f : U → U) u c :
  f <$> text_without Insert (computeDiff_reference_with f u c) = f <$> u.
Proof.
  unfold computeDiff_reference_with. case_bool_decide as Heq.
  - rewrite text_without_cons. cbn. by rewrite app_nil_r.
  - by rewrite group_runs_text_without, chars_without_reverse, fmap_reverse,
      align_without_Insert, <- fmap_reverse, reverse_involutive.
Qed.

Lemma reference_no_adjacent_same (f : U → U) u c :
  no_adjacent_same (computeDiff_reference_with f u c).
Proof.
  unfold computeDiff_reference_with. case_bool_decide; [done|].
  apply group_runs_no_adjacent_same.
Qed.

Lemma equal_from_correct_of_without_Delete (c : list U) segs : ∀ pos,
  drop pos c = text_without Delete segs → equal_from_correct c pos segs.
Proof.
  induction segs as [|s segs IH]; intros pos Hdrop; [done|].
  rewrite text_without_cons in Hdrop. cbn [equal_from_correct].
  assert (Hrest : type s ≠ Delete →
            drop (pos + length (text s)) c = text_without Delete segs).
  { intros Hne. rewrite decide_True in Hdrop by done.
    by rewrite <- drop_drop, Hdrop, drop_app_length. }
  destruct (type s) eqn:Htype.
  - split; [|apply IH; by apply Hrest].
    rewrite decide_True in Hdrop by done. by rewrite Hdrop, take_app_length.
  - apply IH. by apply Hrest.
  - apply IH. by rewrite decide_False in Hdrop by (intros ?; done).
Qed.

(** * The alignment is minimal *)

Lemma sublist_fmap_2 {A B} (f : A → B) (l1 l2 : list A) :
  l1 `sublist_of` l2 → f <$> l1 `sublist_of` f <$> l2.
Proof. induction 1; cbn; by constructor. Qed.

Lemma sublist_reverse_2 {A} (l1 l2 : list A) :
  l1 `sublist_of` l2 → reverse l1 `sublist_of` reverse l2.
Proof.
  induction 1 as [|x l1 l2 _ IH|x l1 l2 _ IH]; [done|..]; rewrite ?reverse_cons.
  - by apply sublist_app.
  - rewrite <- (app_nil_r (reverse l1)). apply sublist_app; [done|apply sublist_nil_l].
Qed.

(** No common subsequence is longer than [lcs_length]. *)
Lemma lcs_length_upper_bound (xs : list U) : ∀ ys s,
  s `sublist_of` xs → s `sublist_of` ys → length s ≤ lcs_length xs ys.
Proof.
  induction xs as [|x xs IHx]; intros ys s Hx Hy.
  { apply sublist_nil_r in Hx as ->. cbn. lia. }
  induction ys as [|y ys IHy].
  { apply sublist_nil_r in Hy as ->. cbn. lia. }
  cbn [lcs_length].
  change ((fix lcs_r (ys : list U) : nat :=
             match ys with
             | [] => 0
             | y :: ys' =>
                 if bool_decide (x = y) then lcs_length xs ys' + 1
                 else Nat.max (lcs_length xs ys) (lcs_r ys')
             end) ys) with (lcs_length (x :: xs) ys).
  apply sublist_cons_r in Hx as [Hx|(s' & -> & Hx)];
    apply sublist_cons_r in Hy as [Hy|(s'' & Heq & Hy)].
  - case_bool_decide.
    + specialize (IHx ys s Hx Hy). lia.
    + specialize (IHx (y :: ys) s Hx (sublist_cons _ _ _ Hy)). lia.
  - subst s. case_bool_decide.
    + assert (s'' `sublist_of` xs)
        by (transitivity (y :: s''); [by apply sublist_cons|done]).
      specialize (IHx ys s'' ltac:(done) Hy). cbn. lia.
    + specialize (IHx (y :: ys) (y :: s'') Hx (sublist_skip _ _ _ Hy)). lia.
  - case_bool_decide.
    + assert (s' `sublist_of` ys)
        by (transitivity (x :: s'); [by apply sublist_cons|done]).
      specialize (IHx ys s' Hx ltac:(done)). cbn. lia.
    + specialize (IHy Hy). lia.
  - injection Heq as <- <-. rewrite bool_decide_true by done.
    specialize (IHx ys s' Hx Hy). cbn. lia.
Qed.

Lemma lcs_length_cons_cons (x : U) xs y ys :
  lcs_length (x :: xs) (y :: ys) =
    if bool_decide (x = y) then lcs_length xs ys + 1
    else Nat.max (lcs_length xs (y :: ys)) (lcs_length (x :: xs) ys).
Proof. done. Qed.

(** The alignment matches as many characters as a longest common
    subsequence has. *)
Lemma align_Equal_count (f : U → U) xs : ∀ ys,
  length (chars_of_kind Equal (align f xs ys)) = lcs_length (f <$> xs) (f <$> ys).
Proof.
  unfold chars_of_kind.
  induction xs as [|x xs IHx]; intros ys.
  - rewrite align_nil_l. induction ys as [|y ys IHy]; [done|].
    cbn [fmap list_fmap]. by rewrite filter_cons_False by done.
  - induction ys as [|y ys IHy].
    + cbn [align]. rewrite filter_cons_False by done.
      by rewrite IHx, !lcs_length_nil_r.
    + rewrite align_cons_cons, !fmap_cons, lcs_length_cons_cons.
      case_bool_decide; [|destruct (_ <=? _) eqn:Hle].
      * rewrite filter_cons_True by done. rewrite fmap_cons. cbn [length].
        rewrite IHx. by rewrite Nat.add_1_r.
      * rewrite filter_cons_False by done. rewrite IHy, !fmap_cons.
        apply Nat.leb_le in Hle. lia.
      * rewrite filter_cons_False by done. rewrite IHx, !fmap_cons.
        apply Nat.leb_gt in Hle. lia.
Qed.

Lemma text_of_kind_cons k (s : DiffSegmentOf U) segs :
  text_of_kind k (s :: segs) =
    (if decide (type s = k) then text s else []) ++ text_of_kind k segs.
Proof. unfold text_of_kind. rewrite filter_cons. by case_decide. Qed.

Lemma cons_run_text_of_kind k (s : CharSegmentOf U) gs :
  text_of_kind k (cons_run s gs) =
    (if decide (ctype s = k) then [char s] else []) ++ text_of_kind k gs.
Proof.
  destruct gs as [|g gs]; cbn [cons_run]; [by rewrite !text_of_kind_cons|].
  case_bool_decide as Heq; rewrite !text_of_kind_cons; cbn [type text]; [|done].
  rewrite Heq. by case_decide.
Qed.

Lemma group_runs_text_of_kind k (l : list (CharSegmentOf U)) :
  text_of_kind k (group_runs l) = chars_of_kind k l.
Proof.
  unfold chars_of_kind. induction l as [|s l IH]; [done|].
  rewrite group_runs_cons, cons_run_text_of_kind, IH, filter_cons.
  by case_decide.
Qed.

Lemma text_without_Delete_length (segs : list (DiffSegmentOf U)) :
  length (text_without Delete segs) =
    length (text_of_kind Equal segs) + length (text_of_kind Insert segs).
Proof.
  induction segs as [|s segs IH]; [done|].
  rewrite text_without_cons, !text_of_kind_cons, !length_app, IH.
  destruct (type s); repeat case_decide; try done; cbn [length]; lia.
Qed.

Lemma text_without_Insert_length (segs : list (DiffSegmentOf U)) :
  length (text_without Insert segs) =
    length (text_of_kind Equal segs) + length (text_of_kind Delete segs).
Proof.
  induction segs as [|s segs IH]; [done|].
  rewrite text_without_cons, !text_of_kind_cons, !length_app, IH.
  destruct (type s); repeat case_decide; try done; cbn [length]; lia.
Qed.

Lemma text_of_kind_Equal_sublist k (segs : list (DiffSegmentOf U)) :
  k ≠ Equal → text_of_kind Equal segs `sublist_of` text_without k segs.
Proof.
  intros Hk. induction segs as [|s segs IH]; [done|].
  rewrite text_without_cons, text_of_kind_cons. apply sublist_app; [|done].
  destruct (type s); repeat case_decide; done || congruence || apply sublist_nil_l.
Qed.

Lemma is_alignment_with_cost (f : U → U) u c segs :
  is_alignment_with f u c segs →
  diff_cost segs + 2 * length (text_of_kind Equal segs) = length u + length c.
Proof.
  intros [Hc Hu]. apply (f_equal length) in Hc, Hu.
  rewrite !length_fmap in Hu.
  rewrite text_without_Delete_length in Hc. rewrite text_without_Insert_length in Hu.
  unfold diff_cost. lia.
Qed.

Lemma reference_is_alignment (f : U → U) u c :
  is_alignment_with f u c (computeDiff_reference_with f u c).
Proof.
  split; [apply reference_without_Delete|apply reference_without_Insert].
Qed.

Lemma is_alignment_with_Equal_bound (f : U → U) u c segs :
  is_alignment_with f u c segs →
  length (text_of_kind Equal segs) ≤
    length (text_of_kind Equal (computeDiff_reference_with f u c)).
Proof.
  intros [Hc Hu].
  assert (HEc : f <$> text_of_kind Equal segs `sublist_of` f <$> c).
  { rewrite <- Hc. by apply sublist_fmap_2, text_of_kind_Equal_sublist. }
  assert (HEu : f <$> text_of_kind Equal segs `sublist_of` f <$> u).
  { rewrite <- Hu. by apply sublist_fmap_2, text_of_kind_Equal_sublist. }
  unfold computeDiff_reference_with. case_bool_decide.
  - rewrite text_of_kind_cons. cbn. rewrite app_nil_r.
    apply sublist_length in HEc. by rewrite !length_fmap in HEc.
  - rewrite group_runs_text_of_kind. unfold chars_of_kind.
    rewrite filter_reverse, fmap_reverse, length_reverse.
    fold (chars_of_kind Equal (align f (reverse u) (reverse c))).
    rewrite align_Equal_count, !fmap_reverse.
    rewrite <- (length_fmap f), <- length_reverse.
    apply lcs_length_upper_bound; by apply sublist_reverse_2.
Qed.

(** No alignment of the two answers has fewer inserted and deleted
    characters than the one [computeDiff] builds. *)
Lemma reference_minimal (f : U → U) u c segs :
  is_alignment_with f u c segs →
  diff_cost (computeDiff_reference_with f u c) ≤ diff_cost segs.
Proof.
  intros Hseg.
  pose proof (is_alignment_with_cost _ _ _ _ Hseg).
  pose proof (is_alignment_with_cost _ _ _ _ (reference_is_alignment f u c)).
  pose proof (is_alignment_with_Equal_bound _ _ _ _ Hseg).
  lia.
Qed.

(** * The backtracking loop on any comparison strings

    The loop starts at the lengths of the original strings whatever the
    comparison strings are.  As long as the table has a row for every
    position of the user's answer, it returns: what it emits outside the
    [Delete] entries is the correct answer, and what it emits outside
    the [Insert] entries stands, one for one, for the characters of the
    user's answer. *)

Lemma take_S_reverse {A} (l : list A) i x :
  l !! i = Some x → reverse (take (S i) l) = x :: reverse (take i l).
Proof. intros Hx. by rewrite (take_S_r l i x Hx), reverse_snoc. Qed.

Section Backtrack_any.
Context (u c cu cc : list U) (dp : list (list nat)).
Context (Hrows : length u < length dp).

Local Abbreviation matched :=
  (λ x y, ∃ i j, u !! i = Some x ∧ c !! j = Some y ∧ cu !! i = cc !! j).

Lemma dp_ge_is_Some i j : i ≤ length u → is_Some (dp_ge dp i j).
Proof.
  intros Hi. unfold dp_ge.
  destruct (lookup_lt_is_Some_2 dp i ltac:(lia)) as [row ->].
  destruct (lookup_lt_is_Some_2 dp (i - 1) ltac:(lia)) as [above ->].
  cbn. eauto.
Qed.

Lemma backtrack_any fuel : ∀ i j segments,
  i ≤ length u → j ≤ length c → i + j ≤ fuel →
  ∃ ops,
    backtrack u c cu cc dp fuel i j segments = Some (segments ++ ops) ∧
    chars_without Delete ops = reverse (take j c) ∧
    Forall2 (from_user matched) (filter (λ e, ctype e ≠ Insert) ops) (reverse (take i u)).
Proof.
  assert (Hnil : ∀ segments : list (CharSegmentOf U),
            ∃ ops, Some segments = Some (segments ++ ops) ∧
                   chars_without Delete ops = reverse (take 0 c) ∧
                   Forall2 (from_user matched) (filter (λ e, ctype e ≠ Insert) ops)
                           (reverse (take 0 u))).
  { intros segments. exists []. rewrite app_nil_r. split; [done|]. split; [done|constructor]. }
  induction fuel as [|fuel IH]; intros i j segments Hi Hj Hfuel.
  { assert (i = 0 ∧ j = 0) as [-> ->] by lia. apply Hnil. }
  assert (HInsert : ∀ j' y, j = S j' → c !! j' = Some y →
            ∃ ops,
              backtrack u c cu cc dp fuel i j' (segments ++ [mkCharSegment Insert y])
                = Some (segments ++ ops) ∧
              chars_without Delete ops = reverse (take j c) ∧
              Forall2 (from_user matched) (filter (λ e, ctype e ≠ Insert) ops)
                      (reverse (take i u))).
  { intros j' y -> Hy.
    destruct (IH i j' (segments ++ [mkCharSegment Insert y])) as (ops & Hrun & Hc & Hu);
      [lia..|].
    exists (mkCharSegment Insert y :: ops). rewrite Hrun, <- app_assoc.
    split; [done|]. split.
    - unfold chars_without in *. rewrite filter_cons_True by done.
      by rewrite fmap_cons, Hc, (take_S_reverse _ _ _ Hy).
    - by rewrite filter_cons_False by (cbn; tauto). }
  assert (HDelete : ∀ i' x, i = S i' → u !! i' = Some x →
            ∃ ops,
              backtrack u c cu cc dp fuel i' j (segments ++ [mkCharSegment Delete x])
                = Some (segments ++ ops) ∧
              chars_without Delete ops = reverse (take j c) ∧
              Forall2 (from_user matched) (filter (λ e, ctype e ≠ Insert) ops)
                      (reverse (take i u))).
  { intros i' x -> Hx.
    destruct (IH i' j (segments ++ [mkCharSegment Delete x])) as (ops & Hrun & Hc & Hu);
      [lia..|].
    exists (mkCharSegment Delete x :: ops). rewrite Hrun, <- app_assoc.
    split; [done|]. split.
    - unfold chars_without in *. by rewrite filter_cons_False by (cbn; tauto).
    - rewrite filter_cons_True by done. rewrite (take_S_reverse _ _ _ Hx).
      by constructor. }
  destruct i as [|i], j as [|j].
  - apply Hnil.
  - destruct (lookup_lt_is_Some_2 c j ltac:(lia)) as [y Hy].
    cbn [backtrack Nat.ltb Nat.leb orb andb negb Nat.eqb mbind option_bind].
    replace (S j - 1) with j by lia. rewrite Hy. cbn [mbind option_bind].
    by apply HInsert.
  - destruct (lookup_lt_is_Some_2 u i ltac:(lia)) as [x Hx].
    cbn [backtrack Nat.ltb Nat.leb orb andb negb Nat.eqb mbind option_bind].
    replace (S i - 1) with i by lia. rewrite Hx. cbn [mbind option_bind].
    by apply HDelete.
  - destruct (lookup_lt_is_Some_2 u i ltac:(lia)) as [x Hx].
    destruct (lookup_lt_is_Some_2 c j ltac:(lia)) as [y Hy].
    destruct (dp_ge_is_Some (S i) (S j) Hi) as [b Hb].
    cbn [backtrack Nat.ltb Nat.leb orb andb negb Nat.eqb].
    rewrite Hb. replace (S i - 1) with i by lia. replace (S j - 1) with j by lia.
    rewrite Hx, Hy. cbn [mbind option_bind].
    case_bool_decide as Heq.
    + destruct (IH i j (segments ++ [mkCharSegment Equal y])) as (ops & Hrun & Hc & Hu);
        [lia..|].
      exists (mkCharSegment Equal y :: ops). rewrite Hrun, <- app_assoc.
      split; [done|]. split.
      * unfold chars_without in *. rewrite filter_cons_True by done.
        by rewrite fmap_cons, Hc, (take_S_reverse _ _ _ Hy).
      * rewrite filter_cons_True by done. rewrite (take_S_reverse _ _ _ Hx).
        constructor; [|done]. exists i, j. done.
    + destruct b; [by apply HInsert|by apply HDelete].
Qed.
End Backtrack_any.

(** Exploding the grouped segments gives back the entries. *)
Lemma cons_run_entries (s : CharSegmentOf U) gs :
  entries (cons_run s gs) = s :: entries gs.
Proof.
  destruct s as [k x]. destruct gs as [|g gs]; cbn [cons_run ctype char]; [done|].
  case_bool_decide as Heq; [|done]. by subst k.
Qed.

Lemma group_runs_entries (l : list (CharSegmentOf U)) : entries (group_runs l) = l.
Proof.
  induction l as [|s l IH]; [done|].
  by rewrite group_runs_cons, cons_run_entries, IH.
Qed.

Lemma entries_single_kind k (s : list U) (e : CharSegmentOf U) :
  e ∈ entries [mkDiffSegment k s] → ctype e = k.
Proof.
  unfold entries. cbn. rewrite app_nil_r. intros (x & -> & _)%list_elem_of_fmap. done.
Qed.

(** What [computeDiff] returns, whatever the host's [toLowerCase] does,
    when it does not return a shorter string: the entries [ops] the loop
    emitted, merged; without the [Delete] entries they are the correct
    answer; the others stand one for one for the characters of the
    user's answer, a [Delete] holding the user's character and an
    [Equal] a character of the correct answer found equal to it in the
    comparison strings. *)
Lemma computeDiff_with_any (host_toLowerCase : list U → list U)
    (u c : list U) (caseSensitive : bool) :
  let cu := if caseSensitive then u else host_toLowerCase u in
  let cc := if caseSensitive then c else host_toLowerCase c in
  length u ≤ length cu →
  cu ≠ cc →
  ∃ ops,
    computeDiff_with host_toLowerCase u c caseSensitive = Some (group_runs ops) ∧
    chars_without Delete ops = c ∧
    Forall2
      (from_user (λ x y, ∃ i j, u !! i = Some x ∧ c !! j = Some y ∧ cu !! i = cc !! j))
      (filter (λ e, ctype e ≠ Insert) ops) u.
Proof.
  intros cu cc Hlen Hne. unfold computeDiff_with. fold cu cc.
  rewrite bool_decide_false by done.
  destruct (backtrack_any u c cu cc (computeLCS cu cc)) with
    (fuel := length u + length c) (i := length u) (j := length c)
    (segments := @nil (CharSegmentOf U)) as (ops & Hrun & Hc & Hu); [|done..|].
  { destruct (computeLCS_shape cu cc) as [-> _]. lia. }
  rewrite Hrun. cbn [mbind option_bind app].
  rewrite !firstn_all in *.
  exists (reverse ops). rewrite merge_segments_group_runs. split; [done|]. split.
  - by rewrite chars_without_reverse, Hc, reverse_involutive.
  - apply Forall2_reverse in Hu. rewrite reverse_involutive in Hu.
    by rewrite filter_reverse.
Qed.

(** The deleted characters are characters of the user's answer, in its
    order. *)
Lemma from_user_Delete_sublist (matched : U → U → Prop)
    (ops : list (CharSegmentOf U)) : ∀ u,
  Forall2 (from_user matched) (filter (λ e, ctype e ≠ Insert) ops) u →
  chars_of_kind Delete ops `sublist_of` u.
Proof.
  unfold chars_of_kind.
  induction ops as [|e ops IH]; intros u Hu; [apply sublist_nil_l|].
  destruct (ctype e) eqn:Hk.
  - rewrite filter_cons_True in Hu by congruence.
    rewrite filter_cons_False by congruence.
    apply Forall2_cons_inv_l in Hu as (x & u' & _ & Hu & ->).
    apply sublist_cons. by apply IH.
  - rewrite filter_cons_False in Hu by (intros ?; congruence).
    rewrite filter_cons_False by congruence. by apply IH.
  - rewrite filter_cons_True in Hu by congruence.
    rewrite filter_cons_True by done.
    apply Forall2_cons_inv_l in Hu as (x & u' & He & Hu & ->).
    unfold from_user in He. rewrite Hk in He. rewrite fmap_cons, He.
    apply sublist_skip. by apply IH.
Qed.

(** * Counting the matched characters *)

(** Some common subsequence has the length [lcs_length] gives. *)
Lemma lcs_length_achieved (xs : list U) : ∀ ys,
  ∃ s, s `sublist_of` xs ∧ s `sublist_of` ys ∧ length s = lcs_length xs ys.
Proof.
  induction xs as [|x xs IHx]; intros ys.
  { exists []. split; [done|]. split; [apply sublist_nil_l|done]. }
  induction ys as [|y ys IHy].
  { exists []. split; [apply sublist_nil_l|]. split; [done|]. by rewrite lcs_length_nil_r. }
  rewrite lcs_length_cons_cons. case_bool_decide as Heq.
  - subst y. destruct (IHx ys) as (s & Hx & Hy & Hlen).
    exists (x :: s). split; [by constructor|]. split; [by constructor|]. cbn. lia.
  - destruct (Nat.max_spec (lcs_length xs (y :: ys)) (lcs_length (x :: xs) ys))
      as [[_ ->] | [_ ->]].
    + destruct IHy as (s & Hx & Hy & Hlen).
      exists s. split; [done|]. split; [by constructor|done].
    + destruct (IHx (y :: ys)) as (s & Hx & Hy & Hlen).
      exists s. split; [by constructor|]. split; done.
Qed.

Lemma lcs_length_reverse (xs ys : list U) :
  lcs_length (reverse xs) (reverse ys) = lcs_length xs ys.
Proof.
  apply Nat.le_antisymm.
  - destruct (lcs_length_achieved (reverse xs) (reverse ys)) as (s & Hx & Hy & <-).
    rewrite <- (length_reverse s).
    apply lcs_length_upper_bound.
    + rewrite <- (reverse_involutive xs). by apply sublist_reverse_2.
    + rewrite <- (reverse_involutive ys). by apply sublist_reverse_2.
  - destruct (lcs_length_achieved xs ys) as (s & Hx & Hy & <-).
    rewrite <- (length_reverse s).
    apply lcs_length_upper_bound; by apply sublist_reverse_2.
Qed.

Lemma lcs_length_diag (xs : list U) : lcs_length xs xs = length xs.
Proof.
  apply Nat.le_antisymm.
  - destruct (lcs_length_achieved xs xs) as (s & Hx & _ & <-). by apply sublist_length.
  - by apply lcs_length_upper_bound.
Qed.

Lemma reference_Equal_count (f : U → U) u c :
  length (text_of_kind Equal (computeDiff_reference_with f u c)) =
    lcs_length (f <$> u) (f <$> c).
Proof.
  unfold computeDiff_reference_with. case_bool_decide as Heq.
  - rewrite text_of_kind_cons. cbn. rewrite app_nil_r, Heq, lcs_length_diag.
    by rewrite length_fmap.
  - rewrite group_runs_text_of_kind. unfold chars_of_kind.
    rewrite filter_reverse, fmap_reverse, length_reverse.
    fold (chars_of_kind Equal (align f (reverse u) (reverse c))).
    by rewrite align_Equal_count, !fmap_reverse, lcs_length_reverse.
Qed.

Lemma reference_single_Equal (f : U → U) u c :
  computeDiff_reference_with f u c = [mkDiffSegment Equal c] ↔ f <$> u = f <$> c.
Proof.
  split.
  - intros Href. pose proof (reference_without_Insert f u c) as Hu.
    rewrite Href, text_without_cons in Hu. cbn in Hu. by rewrite app_nil_r in Hu.
  - intros Heq. unfold computeDiff_reference_with. by rewrite bool_decide_true.
Qed.

(** When the comparison strings are the answers with a map applied to
    each code unit, the one segment [Equal] is returned exactly on the
    fast path. *)
Lemma computeDiff_with_single_Equal (host_toLowerCase : list U → list U) (f : U → U)
    (u c : list U) (caseSensitive : bool) :
  compared_by_units host_toLowerCase caseSensitive f u →
  compared_by_units host_toLowerCase caseSensitive f c →
  computeDiff_with host_toLowerCase u c caseSensitive = Some [mkDiffSegment Equal c] ↔
  (if caseSensitive then u else host_toLowerCase u)
    = (if caseSensitive then c else host_toLowerCase c).
Proof.
  intros Hu Hc. rewrite (computeDiff_with_refines _ f) by done.
  unfold compared_by_units in Hu, Hc. rewrite Hu, Hc, <- reference_single_Equal.
  split; [by intros [= ->]|by intros ->].
Qed.

Lemma group_runs_constant k (l : list U) :
  l ≠ [] → group_runs (mkCharSegment k <$> l) = [mkDiffSegment k l].
Proof.
  induction l as [|a l IH]; [done|]. intros _.
  rewrite fmap_cons, group_runs_cons. destruct l as [|b l]; [done|].
  rewrite IH by done. cbn [cons_run ctype type char text].
  by rewrite bool_decide_true.
Qed.

Lemma cons_run_nonempty (s : CharSegmentOf U) gs :
  Forall (λ g, text g ≠ []) gs → Forall (λ g, text g ≠ []) (cons_run s gs).
Proof.
  intros Hgs. destruct gs as [|g gs]; cbn [cons_run]; [by repeat constructor|].
  apply Forall_cons in Hgs as [Hg Hgs].
  case_bool_decide; by repeat constructor.
Qed.

Lemma group_runs_nonempty (l : list (CharSegmentOf U)) :
  Forall (λ g, text g ≠ []) (group_runs l).
Proof.
  induction l as [|s l IH]; [constructor|].
  rewrite group_runs_cons. by apply cons_run_nonempty.
Qed.

Lemma sublist_same_length {A} (l1 l2 : list A) :
  l1 `sublist_of` l2 → length l2 ≤ length l1 → l1 = l2.
Proof.
  induction 1 as [|x l1 l2 _ IH|x l1 l2 Hsub _]; cbn; intros Hlen; [done|..].
  - f_equal. apply IH. lia.
  - apply sublist_length in Hsub. lia.
Qed.

(** The entries outside the [Insert] ones read as the user's answer
    under any map of the code units that identifies matched characters. *)
Lemma from_user_fold (g : U → U) (matched : U → U → Prop)
    (l : list (CharSegmentOf U)) (u : list U) :
  (∀ x y, matched x y → g x = g y) →
  Forall2 (from_user matched) l u → g <$> (char <$> l) = g <$> u.
Proof.
  intros Hg. induction 1 as [|e x l u He _ IH]; [done|].
  rewrite !fmap_cons, IH. f_equal.
  unfold from_user in He. destruct (ctype e); [symmetry; by apply Hg|done|by subst].
Qed.

End Diff_facts.

(** * The functions on strings of code units below 256 *)

Lemma compare_string_fold (s : jsstring) (caseSensitive : bool) :
  (if caseSensitive then s else toLowerCase s) = fold_unit caseSensitive <$> s.
Proof. destruct caseSensitive; cbn; [by rewrite list_fmap_id|done]. Qed.

(** [computeDiff] returns, and returns the reference alignment. *)
Lemma computeDiff_refines userAnswer correctAnswer caseSensitive :
  computeDiff userAnswer correctAnswer caseSensitive =
    Some (computeDiff_reference userAnswer correctAnswer caseSensitive).
Proof. apply computeDiff_with_refines; apply compare_string_fold. Qed.

Lemma computeDiff_reference_without_Delete u c cs :
  text_without Delete (computeDiff_reference u c cs) = c.
Proof. apply reference_without_Delete. Qed.

Lemma computeDiff_reference_without_Insert u c cs :
  fold_unit cs <$> text_without Insert (computeDiff_reference u c cs) = fold_unit cs <$> u.
Proof. apply reference_without_Insert. Qed.

Lemma computeDiff_reference_no_adjacent_same u c cs :
  no_adjacent_same (computeDiff_reference u c cs).
Proof. apply reference_no_adjacent_same. Qed.

Lemma computeDiff_reference_is_alignment u c cs :
  is_alignment u c cs (computeDiff_reference u c cs).
Proof. apply reference_is_alignment. Qed.

(** No alignment of the two answers has fewer inserted and deleted
    characters than the one [computeDiff] builds. *)
Lemma computeDiff_reference_minimal u c cs segs :
  is_alignment u c cs segs →
  diff_cost (computeDiff_reference u c cs) ≤ diff_cost segs.
Proof. apply reference_minimal. Qed.

Lemma computeDiff_reference_Equal_count u c cs :
  length (text_of_kind Equal (computeDiff_reference u c cs)) =
    lcs_length (fold_unit cs <$> u) (fold_unit cs <$> c).
Proof. apply reference_Equal_count. Qed.

Lemma fold_fmap_nil_r cs (u : jsstring) :
  u ≠ [] → fold_unit cs <$> u ≠ fold_unit cs <$> [].
Proof. by destruct u. Qed.

(** * Properties of [trim] *)

Lemma trimStart_split s :
  ∃ l, s = l ++ trimStart s ∧ all_space l.
Proof.
  induction s as [|c s (l & Hs & Hl)]; [exists []; split; [done|constructor]|].
  cbn [trimStart]. destruct (isWhiteSpace c) eqn:Hc.
  - exists (c :: l). split; [cbn; by f_equal|by constructor].
  - exists []. split; [done|constructor].
Qed.

Lemma trimStart_not_space s : ¬ starts_with_space (trimStart s).
Proof.
  induction s as [|c s IH]; intros (c' & Hhead & Hws); [done|].
  cbn [trimStart] in Hhead. destruct (isWhiteSpace c) eqn:Hc.
  - apply IH. by exists c'.
  - cbn in Hhead. congruence.
Qed.

Lemma trimEnd_split s :
  ∃ r, s = trimEnd s ++ r ∧ all_space r.
Proof.
  destruct (trimStart_split (reverse s)) as (l & Hs & Hl).
  exists (reverse l). split.
  - unfold trimEnd. by rewrite <- reverse_app, <- Hs, reverse_involutive.
  - unfold all_space in *. rewrite Forall_forall in *. intros c Hc. apply Hl.
    by apply elem_of_reverse.
Qed.

Lemma trimEnd_not_space s : ¬ ends_with_space (trimEnd s).
Proof.
  intros (c & Hlast & Hws). unfold trimEnd in Hlast. rewrite last_reverse in Hlast.
  apply (trimStart_not_space (reverse s)). by exists c.
Qed.

Lemma trim_split s :
  ∃ l r, s = l ++ trim s ++ r ∧ all_space l ∧ all_space r.
Proof.
  destruct (trimStart_split s) as (l & Hs & Hl).
  destruct (trimEnd_split (trimStart s)) as (r & Ht & Hr).
  exists l, r. unfold trim. by rewrite <- Ht.
Qed.

Lemma trim_not_space s : ¬ starts_with_space (trim s) ∧ ¬ ends_with_space (trim s).
Proof.
  split; [|apply trimEnd_not_space].
  intros (c & Hhead & Hws). apply (trimStart_not_space s). exists c. split; [|done].
  destruct (trimEnd_split (trimStart s)) as (r & Ht & _).
  rewrite Ht. fold (trim s). by destruct (trim s).
Qed.

(** * The claims on the diff engine *)

(** C1 (as amended).  Whatever the host's [toLowerCase] returns, as long
    as it is not shorter than the user's answer, [computeDiff] returns;
    the text of the segments that are not [Delete] is the correct answer
    exactly; a [Delete] character is the user's character as typed, at
    its place: the [p]-th character outside the [Insert] segments, when
    a [Delete] segment holds it, is the [p]-th character of the user's
    answer; the text of the segments that are not [Insert] is the user's
    answer exactly when the comparison is case sensitive; and when it is
    not and [toLowerCase] works on both answers code unit by code unit
    ([f] being what it does to one unit), that text is the user's answer
    up to [f]: a matched character is shown as the correct answer has
    it. *)
Theorem computeDiff_reconstructs {U : Type} `{EqDecision U}
    (host_toLowerCase : list U → list U) (userAnswer correctAnswer : list U)
    (caseSensitive : bool) :
  length userAnswer ≤ length (host_toLowerCase userAnswer) →
  ∃ segs,
    computeDiff_with host_toLowerCase userAnswer correctAnswer caseSensitive = Some segs ∧
    text_without Delete segs = correctAnswer ∧
    (∀ p e, entries_without Insert segs !! p = Some e → ctype e = Delete →
            userAnswer !! p = Some (char e)) ∧
    (caseSensitive = true → text_without Insert segs = userAnswer) ∧
    (∀ f : U → U,
       caseSensitive = false →
       host_toLowerCase userAnswer = f <$> userAnswer →
       host_toLowerCase correctAnswer = f <$> correctAnswer →
       f <$> text_without Insert segs = f <$> userAnswer).
Proof.
  intros Hlen.
  set (cu := if caseSensitive then userAnswer else host_toLowerCase userAnswer).
  set (cc := if caseSensitive then correctAnswer else host_toLowerCase correctAnswer).
  destruct (decide (cu = cc)) as [Heq|Hne].
  - exists [mkDiffSegment Equal correctAnswer].
    split; [unfold computeDiff_with; fold cu cc; by rewrite bool_decide_true|].
    assert (Htext : ∀ k, k ≠ Equal →
              text_without k [mkDiffSegment Equal correctAnswer] = correctAnswer).
    { intros k Hk. rewrite text_without_cons, decide_True by done. apply app_nil_r. }
    split; [by apply Htext|]. split; [|split].
    + intros p e He Hk. apply list_elem_of_lookup_2, list_elem_of_filter in He as [_ He].
      apply entries_single_kind in He. congruence.
    + intros ->. rewrite Htext by done. done.
    + intros f -> Hu Hc. rewrite Htext by done. subst cu cc. cbn in Heq. congruence.
  - destruct (computeDiff_with_any host_toLowerCase userAnswer correctAnswer caseSensitive)
      as (ops & Hrun & Hc & Hu); [by destruct caseSensitive|done|]. fold cu cc in Hu.
    exists (group_runs ops). split; [done|].
    split; [by rewrite group_runs_text_without|]. split; [|split].
    + intros p e He Hk. unfold entries_without in He. rewrite group_runs_entries in He.
      destruct (Forall2_lookup_l _ _ _ _ _ Hu He) as (x & Hx & Hex).
      unfold from_user in Hex. rewrite Hk in Hex. by rewrite Hx, Hex.
    + intros ->. rewrite group_runs_text_without. unfold chars_without.
      assert (Hid : id <$> (char <$> filter (λ e, ctype e ≠ Insert) ops) = id <$> userAnswer).
      { eapply from_user_fold; [|exact Hu].
        intros x y (i & j & Hx & Hy & Hij). subst cu cc. cbn in Hij. unfold id. congruence. }
      by rewrite !list_fmap_id in Hid.
    + intros f -> Hfu Hfc. rewrite group_runs_text_without. unfold chars_without.
      eapply from_user_fold; [|exact Hu].
      intros x y (i & j & Hx & Hy & Hij). subst cu cc. cbn in Hij.
      rewrite Hfu, Hfc, !list_lookup_fmap, Hx, Hy in Hij. cbn in Hij. congruence.
Qed.

Lemma computeDiff_reconstructs_witness :
  length [304; 98]%N ≤ length (toLowerCase16 [304; 98]%N) ∧
  ∃ segs,
    computeDiff_with toLowerCase16 [304; 98]%N [105; 98]%N false = Some segs ∧
    text_without Delete segs = [105; 98]%N ∧
    (∀ p e, entries_without Insert segs !! p = Some e → ctype e = Delete →
            [304; 98]%N !! p = Some (char e)) ∧
    (false = true → text_without Insert segs = [304; 98]%N) ∧
    (∀ f : N → N,
       false = false →
       toLowerCase16 [304; 98]%N = f <$> [304; 98]%N →
       toLowerCase16 [105; 98]%N = f <$> [105; 98]%N →
       f <$> text_without Insert segs = f <$> [304; 98]%N).
Proof.
  split; [vm_compute; lia|].
  apply (computeDiff_reconstructs toLowerCase16 [304; 98]%N [105; 98]%N false).
  vm_compute; lia.
Defined.

(** C1 as stated fails: with the case folded, ["Cat"] against ["cat"]
    yields the single [Equal] segment ["cat"], whose text is not the
    user's answer. *)
Lemma computeDiff_user_casing_lost :
  computeDiff (str "Cat") (str "cat") false = Some [mkDiffSegment Equal (str "cat")] ∧
  text_without Insert [mkDiffSegment Equal (str "cat")] = str "cat" ∧
  text_without Insert [mkDiffSegment Equal (str "cat")] ≠ str "Cat".
Proof. split; [|split]; [vm_compute; reflexivity..|]. vm_compute. discriminate. Qed.

(** C2 (as amended).  For ["kitten"] and ["sitting"] the result is the
    alignment below; it matches the four characters of a longest common
    subsequence, its [Insert] and [Delete] segments hold five characters
    (two deleted, three inserted), and no alignment by insertions and
    deletions has fewer. *)
Theorem computeDiff_kitten_sitting :
  let segs :=
    [mkDiffSegment Delete (str "k"); mkDiffSegment Insert (str "s");
     mkDiffSegment Equal (str "itt"); mkDiffSegment Delete (str "e");
     mkDiffSegment Insert (str "i"); mkDiffSegment Equal (str "n");
     mkDiffSegment Insert (str "g")] in
  computeDiff (str "kitten") (str "sitting") false = Some segs ∧
  is_alignment (str "kitten") (str "sitting") false segs ∧
  lcs_length (str "kitten") (str "sitting") = 4 ∧
  diff_cost segs = 5 ∧
  ∀ segs', is_alignment (str "kitten") (str "sitting") false segs' → 5 ≤ diff_cost segs'.
Proof.
  intros segs.
  assert (Href : computeDiff_reference (str "kitten") (str "sitting") false = segs)
    by (vm_compute; reflexivity).
  split; [by rewrite computeDiff_refines, Href|].
  split; [rewrite <- Href; apply computeDiff_reference_is_alignment|].
  split; [vm_compute; reflexivity|].
  split; [vm_compute; reflexivity|].
  intros segs' Halign.
  change 5 with (diff_cost segs). rewrite <- Href.
  by apply computeDiff_reference_minimal.
Qed.

(** C2 as stated fails: the [Insert] and [Delete] segments of the result
    hold five characters, not three. *)
Lemma computeDiff_kitten_sitting_not_3 :
  ∃ segs,
    computeDiff (str "kitten") (str "sitting") false = Some segs ∧
    diff_cost segs = 5 ∧ diff_cost segs ≠ 3.
Proof. eexists. split; [vm_compute; reflexivity|]. split; vm_compute; [reflexivity|lia]. Qed.

(** C3.  No two consecutive segments of the result have the same kind. *)
Theorem computeDiff_no_adjacent_same (userAnswer correctAnswer : jsstring) (caseSensitive : bool) :
  ∃ segs,
    computeDiff userAnswer correctAnswer caseSensitive = Some segs ∧
    no_adjacent_same segs.
Proof.
  eexists. split; [apply computeDiff_refines|apply computeDiff_reference_no_adjacent_same].
Qed.

(** C4: where the loop is the reference backtracking, and the inputs on
    which it is not.  When the comparison strings are the two answers
    with a map applied to each code unit, [computeDiff] returns exactly
    what the reference backtracking returns.  Lower-casing turns the two
    code units [U+0130 b] of a typed answer into the three
    [i U+0307 b]; the table is built for these, and the loop starts at
    the lengths of the answers as typed and reads the comparison strings
    there.  Against [i b] it matches [i], deletes [b] and inserts [b]:
    one matched character, where a longest common subsequence of the
    comparison strings has two.  And [U+0130] against [i] comes out as
    the one segment [Equal i], a full match, of an answer that
    [isAnswerCorrect] finds wrong. *)
Theorem computeDiff_dotted_I_misaligned :
  (∀ (host_toLowerCase : jsstring16 → jsstring16) (f : N → N) userAnswer correctAnswer
     caseSensitive,
     compared_by_units host_toLowerCase caseSensitive f userAnswer →
     compared_by_units host_toLowerCase caseSensitive f correctAnswer →
     computeDiff_with host_toLowerCase userAnswer correctAnswer caseSensitive =
       Some (computeDiff_reference_with f userAnswer correctAnswer)) ∧
  toLowerCase16 [304; 98]%N = [105; 775; 98]%N ∧
  toLowerCase16 [105; 98]%N = [105; 98]%N ∧
  computeDiff_with toLowerCase16 [304; 98]%N [105; 98]%N false =
    Some [mkDiffSegment Equal [105]%N; mkDiffSegment Delete [98]%N;
          mkDiffSegment Insert [98]%N] ∧
  length (text_of_kind Equal
            [mkDiffSegment Equal [105]%N; mkDiffSegment Delete [98]%N;
             mkDiffSegment Insert [98]%N])
    = 1 ∧
  lcs_length (toLowerCase16 [304; 98]%N) (toLowerCase16 [105; 98]%N) = 2 ∧
  computeDiff_with toLowerCase16 [304]%N [105]%N false = Some [mkDiffSegment Equal [105]%N] ∧
  isAnswerCorrect_with trim16 toLowerCase16 [304]%N [105]%N false = false.
Proof.
  split; [intros host f u c cs; apply computeDiff_with_refines|].
  repeat split; vm_compute; reflexivity.
Qed.

(** C5.  [isAnswerCorrect] holds exactly when the two trimmed strings
    are equal, as they are or lower-cased; the trimmed string is the
    argument without its leading and trailing white space; and the three
    examples. *)
Theorem isAnswerCorrect_trims_and_compares :
  (∀ userAnswer correctAnswer caseSensitive,
     isAnswerCorrect userAnswer correctAnswer caseSensitive = true ↔
     compared caseSensitive userAnswer = compared caseSensitive correctAnswer) ∧
  (∀ s, ∃ l r, s = l ++ trim s ++ r ∧ all_space l ∧ all_space r ∧
               ¬ starts_with_space (trim s) ∧ ¬ ends_with_space (trim s)) ∧
  isAnswerCorrect (str " cat ") (str "cat") false = true ∧
  isAnswerCorrect (str "Cat") (str "cat") true = false ∧
  isAnswerCorrect (str "Cat") (str "cat") false = true.
Proof.
  split; [|split].
  - intros u c cs. unfold isAnswerCorrect, isAnswerCorrect_with, compared.
    destruct cs; apply bool_decide_eq_true.
  - intros s. destruct (trim_split s) as (l & r & Hs & Hl & Hr).
    exists l, r. pose proof (trim_not_space s). tauto.
  - repeat split; vm_compute; reflexivity.
Qed.

(** C10.  Walking the result with a cursor into the correct answer,
    every [Equal] segment is the slice of the correct answer under the
    cursor, so its characters are the correct answer's, in its casing;
    ["CAT"] against ["cat"] without case yields [Equal "cat"]. *)
Theorem computeDiff_equal_text_from_correct
    (userAnswer correctAnswer : jsstring) (caseSensitive : bool) :
  (∃ segs,
     computeDiff userAnswer correctAnswer caseSensitive = Some segs ∧
     equal_from_correct correctAnswer 0 segs ∧
     text_of_kind Equal segs `sublist_of` correctAnswer) ∧
  computeDiff (str "CAT") (str "cat") false = Some [mkDiffSegment Equal (str "cat")].
Proof.
  split; [|vm_compute; reflexivity].
  eexists. split; [apply computeDiff_refines|].
  pose proof (computeDiff_reference_without_Delete userAnswer correctAnswer caseSensitive) as H.
  split.
  - apply equal_from_correct_of_without_Delete. by rewrite drop_0.
  - rewrite <- H at 2. by apply text_of_kind_Equal_sublist.
Qed.

(** * Properties of the card controller *)

Section CardUI_facts.
Context {S : Type} `{!IFlashcardReviewSequencer S}.

Lemma debounced_recent (ui : CardUI S) t0 timeNow :
  lastPressed ui = Some t0 → t0 ≠ 0%Z →
  (timeNow - t0 < reviewButtonDelay (settings ui))%Z →
  debounced timeNow ui = true.
Proof.
  intros Hlast Hpos Hlt. unfold debounced. rewrite Hlast.
  apply andb_true_intro. split; [apply negb_true_iff; lia|lia].
Qed.

(** Before any action was accepted, nothing is debounced. *)
Lemma debounced_initially (ui : CardUI S) timeNow :
  lastPressed ui = None → debounced timeNow ui = false.
Proof. unfold debounced. by intros ->. Qed.

Lemma debounced_old (ui : CardUI S) t0 timeNow :
  lastPressed ui = Some t0 →
  (reviewButtonDelay (settings ui) ≤ timeNow - t0)%Z →
  debounced timeNow ui = false.
Proof.
  intros Hlast Hle. unfold debounced. rewrite Hlast.
  apply andb_false_intro2. lia.
Qed.

Lemma _resetResponseButtons_fields (ui : CardUI S) :
  let ui' := _resetResponseButtons ui in
  mode ui' = mode ui ∧ lastPressed ui' = lastPressed ui ∧
  reviewSequencer ui' = reviewSequencer ui ∧ calls ui' = calls ui ∧
  resetButton_disabled (widgets ui') = resetButton_disabled (widgets ui).
Proof. unfold _resetResponseButtons. by destruct (_isTypeInCard ui). Qed.

(** A freshly drawn card is in [Front] with the reset button disabled. *)
Lemma _drawContent_fields (ui ui' : CardUI S) :
  _drawContent ui = Some ui' →
  mode ui' = Front ∧ lastPressed ui' = lastPressed ui ∧
  reviewSequencer ui' = reviewSequencer ui ∧ calls ui' = calls ui ∧
  resetButton_disabled (widgets ui') = true.
Proof.
  unfold _drawContent. destruct (_currentCard ui) as [card|]; [|done].
  cbn. intros [= <-].
  match goal with |- context [_resetResponseButtons ?u] =>
    destruct (_resetResponseButtons_fields u) as (-> & -> & -> & -> & ->) end.
  done.
Qed.

Lemma _drawContent_is_Some (ui : CardUI S) card :
  _currentCard ui = Some card → is_Some (_drawContent ui).
Proof. unfold _drawContent. intros ->. by eexists. Qed.

(** [_showNextCard] returns; it draws the next card, or calls
    [backToDeck] when there is none. *)
Lemma _showNextCard_fields (ui : CardUI S) :
  ∃ ui', _showNextCard ui = Some ui' ∧
    lastPressed ui' = lastPressed ui ∧
    reviewSequencer ui' = reviewSequencer ui ∧
    match _currentCard ui with
    | Some _ => mode ui' = Front ∧ calls ui' = calls ui
    | None => mode ui' = mode ui ∧ calls ui' = calls ui ++ [CallBackToDeck]
    end.
Proof.
  unfold _showNextCard, refresh.
  destruct (_currentCard ui) as [card|] eqn:Hcard.
  - destruct (_drawContent_is_Some ui card Hcard) as [ui' Hui'].
    exists ui'. destruct (_drawContent_fields _ _ Hui') as (? & ? & ? & ? & ?).
    by rewrite Hui'.
  - by eexists.
Qed.

(** An accepted graded response reaches the sequencer. *)
Lemma _processReview_accepted r timeNow (ui : CardUI S) :
  debounced timeNow ui = false →
  ∃ ui', _processReview r timeNow ui = Some ui' ∧
    lastPressed ui' = Some timeNow ∧
    reviewSequencer ui' = processReview r (reviewSequencer ui) ∧
    calls ui ++ [CallProcessReview r] `prefix_of` calls ui'.
Proof.
  intros Hdeb. unfold _processReview. rewrite Hdeb.
  match goal with |- context [_showNextCard ?u] =>
    destruct (_showNextCard_fields u) as (ui' & Hnext & Hlast & Hseq & Hcalls) end.
  exists ui'. split; [done|]. split; [done|]. split; [done|].
  destruct (_currentCard _); destruct Hcalls as [_ ->]; cbn.
  - done.
  - by apply prefix_app_r.
Qed.

(** A skip reaches the sequencer, whatever the mode. *)
Lemma _skipCurrentCard_fields (ui : CardUI S) :
  ∃ ui', _skipCurrentCard ui = Some ui' ∧
    lastPressed ui' = lastPressed ui ∧
    reviewSequencer ui' = skipCurrentCard (reviewSequencer ui) ∧
    calls ui ++ [CallSkipCurrentCard] `prefix_of` calls ui' ∧
    match currentCard (skipCurrentCard (reviewSequencer ui)) with
    | Some _ => mode ui' = Front
    | None => last (calls ui') = Some CallBackToDeck
    end.
Proof.
  unfold _skipCurrentCard.
  match goal with |- context [_showNextCard ?u] =>
    destruct (_showNextCard_fields u) as (ui' & Hnext & Hlast & Hseq & Hcalls) end.
  exists ui'. split; [done|]. split; [done|]. split; [done|].
  unfold _currentCard in Hcalls. cbn in Hcalls.
  destruct (currentCard _); destruct Hcalls as [Hmode ->]; cbn.
  - done.
  - split; [by apply prefix_app_r|]. by rewrite last_snoc.
Qed.

(** [setup_ease_buttons] only adds to the questions put to the
    sequencer. *)
Lemma setup_ease_buttons_fields (ui : CardUI S) :
  mode (setup_ease_buttons ui) = mode ui ∧
  lastPressed (setup_ease_buttons ui) = lastPressed ui ∧
  userTypedAnswer (setup_ease_buttons ui) = userTypedAnswer ui ∧
  reviewSequencer (setup_ease_buttons ui) = reviewSequencer ui ∧
  settings (setup_ease_buttons ui) = settings ui ∧
  reviewMode (setup_ease_buttons ui) = reviewMode ui ∧
  widgets (setup_ease_buttons ui) = widgets ui ∧
  calls (setup_ease_buttons ui) = calls ui ∧
  scheduleQueries (setup_ease_buttons ui) =
    scheduleQueries ui ++
      (if bool_decide (reviewMode ui = Cram) then [] else [Hard; Good; Easy]).
Proof.
  unfold setup_ease_buttons. case_bool_decide; cbn; [by rewrite app_nil_r|].
  by rewrite <- !app_assoc.
Qed.

Lemma _showAnswer_accepted timeNow (ui : CardUI S) card :
  debounced timeNow ui = false → _currentCard ui = Some card →
  ∃ ui', _showAnswer timeNow ui = Some ui' ∧
    lastPressed ui' = Some timeNow ∧ mode ui' = Back ∧
    resetButton_disabled (widgets ui') = false.
Proof.
  intros Hdeb Hcard. unfold _showAnswer, _currentQuestion, _currentCard in *.
  rewrite Hdeb. cbn. rewrite Hcard. cbn. eexists. split; [done|].
  match goal with |- context [setup_ease_buttons ?u] =>
    destruct (setup_ease_buttons_fields u) as (-> & -> & _ & _ & _ & _ & -> & _) end.
  done.
Qed.

Lemma _checkTypeInAnswer_accepted timeNow (ui : CardUI S) card :
  debounced timeNow ui = false → _currentCard ui = Some card →
  ∃ ui', _checkTypeInAnswer timeNow ui = Some ui' ∧
    lastPressed ui' = Some timeNow ∧ mode ui' = Back ∧
    reviewSequencer ui' = reviewSequencer ui ∧ calls ui' = calls ui ∧
    resetButton_disabled (widgets ui') = false ∧
    hardButton_hidden (widgets ui') = false ∧
    easyButton_hidden (widgets ui') = false ∧
    (if bool_decide (reviewMode ui = Cram)
     then response_isCram (widgets ui') = true
     else goodButton_hidden (widgets ui') = false) ∧
    indicatorCorrect <$> typeInResult (widgets ui') =
      Some (isAnswerCorrect (typeInInput_value (widgets ui)) (trim (back card))
              (typeInCaseSensitive (settings ui))).
Proof.
  intros Hdeb Hcard. unfold _checkTypeInAnswer, _currentCard in *.
  rewrite Hdeb. cbn. rewrite Hcard. cbn. rewrite computeDiff_refines. cbn.
  eexists. split; [done|].
  match goal with |- context [setup_ease_buttons ?u] =>
    destruct (setup_ease_buttons_fields u) as (-> & -> & _ & -> & _ & _ & -> & -> & _) end.
  cbn. by destruct (bool_decide (reviewMode ui = Cram)).
Qed.

(** An action that passes the guard is carried out and stamps its time. *)
Lemma perform_accepted (a : DebouncedAction) timeNow (ui : CardUI S) card :
  debounced timeNow ui = false → _currentCard ui = Some card →
  ∃ ui', perform a timeNow ui = Some ui' ∧
         lastPressed ui' = Some timeNow ∧ applied a ui ui'.
Proof.
  intros Hdeb Hcard. destruct a as [| |r]; cbn [perform applied].
  - destruct (_showAnswer_accepted timeNow ui card Hdeb Hcard) as (ui' & ? & ? & ? & _).
    by exists ui'.
  - destruct (_checkTypeInAnswer_accepted timeNow ui card Hdeb Hcard)
      as (ui' & ? & ? & ? & _).
    by exists ui'.
  - destruct (_processReview_accepted r timeNow ui Hdeb) as (ui' & ? & ? & ? & ?).
    by exists ui'.
Qed.

(** An action caught by the guard changes nothing. *)
Lemma perform_debounced (a : DebouncedAction) timeNow (ui : CardUI S) :
  debounced timeNow ui = true → perform a timeNow ui = Some ui.
Proof.
  intros Hdeb. destruct a; cbn [perform];
    unfold _showAnswer, _checkTypeInAnswer, _processReview; by rewrite Hdeb.
Qed.

(** No handler leaves the front of a card shown with the reset button
    enabled. *)
Lemma _showNextCard_reset (ui ui' : CardUI S) :
  reset_disabled_in_Front ui → _showNextCard ui = Some ui' → reset_disabled_in_Front ui'.
Proof.
  unfold _showNextCard, refresh. intros Hinv.
  destruct (_currentCard ui) as [card|].
  - intros Hdraw _. by destruct (_drawContent_fields _ _ Hdraw) as (_ & _ & _ & _ & ?).
  - by intros [= <-].
Qed.

Lemma perform_reset (a : DebouncedAction) timeNow (ui ui' : CardUI S) :
  reset_disabled_in_Front ui → perform a timeNow ui = Some ui' →
  reset_disabled_in_Front ui'.
Proof.
  intros Hinv Hrun.
  destruct (debounced timeNow ui) eqn:Hdeb.
  { rewrite perform_debounced in Hrun by done. by injection Hrun as <-. }
  destruct a as [| |r]; cbn [perform] in Hrun.
  - destruct (_currentCard ui) as [card|] eqn:Hcard.
    + destruct (_showAnswer_accepted timeNow ui card Hdeb Hcard) as (? & Hrun' & _ & Hm & _).
      rewrite Hrun in Hrun'. injection Hrun' as <-. intros ?. congruence.
    + unfold _showAnswer, _currentQuestion, _currentCard in *.
      rewrite Hdeb in Hrun. cbn in Hrun. by rewrite Hcard in Hrun.
  - destruct (_currentCard ui) as [card|] eqn:Hcard.
    + destruct (_checkTypeInAnswer_accepted timeNow ui card Hdeb Hcard)
        as (? & Hrun' & _ & Hm & _).
      rewrite Hrun in Hrun'. injection Hrun' as <-. intros ?. congruence.
    + unfold _checkTypeInAnswer, _currentCard in *.
      rewrite Hdeb in Hrun. cbn in Hrun. by rewrite Hcard in Hrun.
  - unfold _processReview in Hrun. rewrite Hdeb in Hrun.
    by apply _showNextCard_reset in Hrun.
Qed.

Lemma _skipCurrentCard_reset (ui ui' : CardUI S) :
  reset_disabled_in_Front ui → _skipCurrentCard ui = Some ui' →
  reset_disabled_in_Front ui'.
Proof. intros Hinv Hrun. by apply _showNextCard_reset in Hrun. Qed.
End CardUI_facts.

(** * The claims on the card controller *)

(** C6.  Reveal, check and graded response share one debounce guard.
    With [t0] the time stamp of the previous accepted action (a reading
    of the clock in milliseconds, not zero): an action that comes less
    than the delay after [t0] changes nothing, the time stamp included;
    an action that comes the delay or more after [t0] is carried out and
    the time stamp becomes its own time; and a further action that
    comes the delay or more after that one is carried out as well. *)
Theorem debounce_policy {S : Type} `{!IFlashcardReviewSequencer S}
    (a : DebouncedAction) (ui : CardUI S) (t0 timeNow : Z) :
  lastPressed ui = Some t0 →
  (t0 ≠ 0%Z → (timeNow - t0 < reviewButtonDelay (settings ui))%Z →
     perform a timeNow ui = Some ui) ∧
  (∀ card, _currentCard ui = Some card →
     (reviewButtonDelay (settings ui) ≤ timeNow - t0)%Z →
     ∃ ui1, perform a timeNow ui = Some ui1 ∧
            lastPressed ui1 = Some timeNow ∧ applied a ui ui1 ∧
            ∀ a2 t2 card1, _currentCard ui1 = Some card1 →
              (reviewButtonDelay (settings ui1) ≤ t2 - timeNow)%Z →
              ∃ ui2, perform a2 t2 ui1 = Some ui2 ∧
                     lastPressed ui2 = Some t2 ∧ applied a2 ui1 ui2).
Proof.
  intros Hlast. split.
  - intros Hpos Hlt. apply perform_debounced. by apply (debounced_recent ui t0).
  - intros card Hcard Hle.
    destruct (perform_accepted a timeNow ui card) as (ui1 & Hrun & Hstamp & Happ);
      [by apply (debounced_old ui t0)|done|].
    exists ui1. repeat split; [done..|].
    intros a2 t2 card1 Hcard1 Hle2.
    apply (perform_accepted a2 t2 ui1 card1); [|done].
    by apply (debounced_old ui1 timeNow).
Qed.

Lemma debounce_policy_witness :
  lastPressed back_ui = Some 1000%Z ∧
  (1000%Z ≠ 0%Z → (1100 - 1000 < reviewButtonDelay (settings back_ui))%Z →
     perform (GradedResponse Good) 1100 back_ui = Some back_ui) ∧
  (∀ card, _currentCard back_ui = Some card →
     (reviewButtonDelay (settings back_ui) ≤ 1100 - 1000)%Z →
     ∃ ui1, perform (GradedResponse Good) 1100 back_ui = Some ui1 ∧
            lastPressed ui1 = Some 1100%Z ∧ applied (GradedResponse Good) back_ui ui1 ∧
            ∀ a2 t2 card1, _currentCard ui1 = Some card1 →
              (reviewButtonDelay (settings ui1) ≤ t2 - 1100)%Z →
              ∃ ui2, perform a2 t2 ui1 = Some ui2 ∧
                     lastPressed ui2 = Some t2 ∧ applied a2 ui1 ui2).
Proof.
  split; [reflexivity|].
  apply (debounce_policy (GradedResponse Good) back_ui 1000 1100). reflexivity.
Defined.

(** C7 (as amended).  A skip is accepted in [Front] and in [Back] alike.
    The skip button, in whatever mode, calls the sequencer's
    [skipCurrentCard] and then draws the next card in [Front], or calls
    [backToDeck] when no card is left.  The skip key does the same, and
    is consumed, whenever the key handler is at work: the plugin's view
    in focus, the mode not [Closed], and the focus neither in a text
    area nor in the answer field; otherwise the key is dropped. *)
Theorem skip_accepted_in_any_mode {S : Type} `{!IFlashcardReviewSequencer S}
    (ui : CardUI S) :
  ∃ ui',
    skipButton_click ui = Some ui' ∧
    reviewSequencer ui' = skipCurrentCard (reviewSequencer ui) ∧
    calls ui ++ [CallSkipCurrentCard] `prefix_of` calls ui' ∧
    match currentCard (skipCurrentCard (reviewSequencer ui)) with
    | Some _ => mode ui' = Front
    | None => last (calls ui') = Some CallBackToDeck
    end ∧
    ∀ (e : KeyboardEvent) (timeNow : Z),
      code e = "KeyS"%string →
      _keydownHandler e timeNow ui =
        if bool_decide (srInFocus e = true ∧ mode ui ≠ Closed ∧
                        activeElement e = OtherElement)
        then Some (ui', true)
        else Some (ui, false).
Proof.
  destruct (_skipCurrentCard_fields ui) as (ui' & Hskip & _ & Hseq & Hcalls & Hnext).
  exists ui'. unfold skipButton_click.
  split; [done|]. split; [done|]. split; [done|]. split; [done|].
  intros e timeNow Hcode. unfold _keydownHandler, code_in.
  rewrite Hcode, Hskip. cbn [existsb String.eqb Ascii.eqb Bool.eqb orb andb].
  destruct (activeElement e), (srInFocus e), (decide (mode ui = Closed)) as [Hm|Hm];
    rewrite ?(bool_decide_true (mode ui = Closed)) by done;
    rewrite ?(bool_decide_false (mode ui = Closed)) by done;
    cbn; repeat case_bool_decide; first [done | exfalso; intuition congruence].
Qed.

(** C7 as stated fails: in [Back], the skip key and the skip button are
    not dropped; [skipCurrentCard] is called and the mode becomes
    [Front]. *)
Lemma skip_in_Back_not_ignored :
  mode back_ui = Back ∧
  ∃ ui',
    _keydownHandler (key "KeyS") 5000 back_ui = Some (ui', true) ∧
    skipButton_click back_ui = Some ui' ∧
    mode ui' = Front ∧
    calls back_ui = [] ∧ calls ui' = [CallSkipCurrentCard] ∧
    reviewSequencer back_ui = [basic_card; typein_card] ∧
    reviewSequencer ui' = [typein_card].
Proof. split; [reflexivity|]. eexists. repeat split; vm_compute; reflexivity. Qed.

(** C8 (as amended).  The reset action is available only once the
    answer of the current card has been revealed or checked.  The reset
    key is dropped when the plugin's view is out of focus, when the
    focus is in a text area, and in [Front] mode; in [Back] mode, with
    the view in focus and the focus outside a text area, it submits the
    [Reset] response under the debounce guard, and an accepted one
    reaches the sequencer.  A newly drawn card is in [Front] with the
    reset button disabled, so that a click on it changes nothing; an
    accepted reveal or check puts the card in [Back] and enables the
    button; and no reveal, check, graded response or skip leaves a card
    in [Front] with the button enabled. *)
Theorem reset_key_only_in_Back {S : Type} `{!IFlashcardReviewSequencer S}
    (e : KeyboardEvent) (timeNow : Z) (ui : CardUI S) :
  code e = "Digit0"%string ∨ code e = "Numpad0"%string →
  (activeElement e = TextArea ∨ srInFocus e = false ∨ mode ui = Front →
     _keydownHandler e timeNow ui = Some (ui, false)) ∧
  (mode ui = Back → activeElement e ≠ TextArea → srInFocus e = true →
     _keydownHandler e timeNow ui = consuming (_processReview Reset timeNow ui) ∧
     (debounced timeNow ui = false →
        ∃ ui', _keydownHandler e timeNow ui = Some (ui', true) ∧
               reviewSequencer ui' = processReview Reset (reviewSequencer ui) ∧
               calls ui ++ [CallProcessReview Reset] `prefix_of` calls ui')) ∧
  (∀ ui0 drawn, _drawContent ui0 = Some drawn →
     mode drawn = Front ∧ resetButton_disabled (widgets drawn) = true ∧
     resetButton_click timeNow drawn = Some drawn) ∧
  (∀ (a : DebouncedAction) ui0 card t,
     a = RevealAnswer ∨ a = CheckTypedAnswer →
     _currentCard ui0 = Some card → debounced t ui0 = false →
     ∃ shown, perform a t ui0 = Some shown ∧ mode shown = Back ∧
              resetButton_disabled (widgets shown) = false) ∧
  (∀ (a : DebouncedAction) t ui1 ui2,
     reset_disabled_in_Front ui1 →
     perform a t ui1 = Some ui2 ∨ skipButton_click ui1 = Some ui2 →
     reset_disabled_in_Front ui2).
Proof.
  intros Hcode.
  assert (Hkey : _keydownHandler e timeNow ui =
            if bool_decide (activeElement e = TextArea) || bool_decide (mode ui = Closed)
               || negb (srInFocus e)
            then Some (ui, false)
            else if bool_decide (mode ui ≠ Back) then Some (ui, false)
            else consuming (_processReview Reset timeNow ui)).
  { unfold _keydownHandler, code_in. by destruct Hcode as [-> | ->]. }
  split; [|split; [|split; [|split]]].
  - intros Hdrop. rewrite Hkey.
    destruct (bool_decide (activeElement e = TextArea) || bool_decide (mode ui = Closed)
              || negb (srInFocus e)) eqn:Hguard; [done|].
    apply orb_false_iff in Hguard as [[Ha%bool_decide_eq_false _]%orb_false_iff Hf].
    destruct Hdrop as [?|[Hout|Hm]]; [done| |].
    + by rewrite Hout in Hf.
    + rewrite bool_decide_true; [done|]. by rewrite Hm.
  - intros Hm Hactive Hfocus. rewrite Hkey, Hm, Hfocus.
    rewrite (bool_decide_false (activeElement e = TextArea)) by done.
    rewrite (bool_decide_false (Back = Closed)) by done.
    rewrite (bool_decide_false (Back ≠ Back)) by (intros ?; done).
    split; [done|]. intros Hdeb. cbn.
    destruct (_processReview_accepted Reset timeNow ui Hdeb) as (ui' & -> & _ & ? & ?).
    by exists ui'.
  - intros ui0 drawn Hdraw.
    destruct (_drawContent_fields _ _ Hdraw) as (? & _ & _ & _ & Hdis).
    split; [done|]. split; [done|]. unfold resetButton_click. by rewrite Hdis.
  - intros a ui0 card t [-> | ->] Hcard Hdeb; cbn [perform].
    + destruct (_showAnswer_accepted t ui0 card Hdeb Hcard) as (shown & ? & _ & ? & ?).
      by exists shown.
    + destruct (_checkTypeInAnswer_accepted t ui0 card Hdeb Hcard)
        as (shown & ? & _ & ? & _ & _ & ? & _).
      by exists shown.
  - intros a t ui1 ui2 Hinv [Hrun | Hrun].
    + by apply (perform_reset a t ui1).
    + by apply (_skipCurrentCard_reset ui1).
Qed.

Lemma reset_key_only_in_Back_witness :
  (code (key "Digit0") = "Digit0"%string ∨ code (key "Digit0") = "Numpad0"%string) ∧
  (activeElement (key "Digit0") = TextArea ∨ srInFocus (key "Digit0") = false ∨
   mode back_ui = Front →
     _keydownHandler (key "Digit0") 5000 back_ui = Some (back_ui, false)) ∧
  (mode back_ui = Back → activeElement (key "Digit0") ≠ TextArea →
   srInFocus (key "Digit0") = true →
     _keydownHandler (key "Digit0") 5000 back_ui
       = consuming (_processReview Reset 5000 back_ui) ∧
     (debounced 5000 back_ui = false →
        ∃ ui', _keydownHandler (key "Digit0") 5000 back_ui = Some (ui', true) ∧
               reviewSequencer ui' = processReview Reset (reviewSequencer back_ui) ∧
               calls back_ui ++ [CallProcessReview Reset] `prefix_of` calls ui')) ∧
  (∀ (ui0 drawn : CardUI QueueSequencer), _drawContent ui0 = Some drawn →
     mode drawn = Front ∧ resetButton_disabled (widgets drawn) = true ∧
     resetButton_click 5000 drawn = Some drawn) ∧
  (∀ (a : DebouncedAction) (ui0 : CardUI QueueSequencer) card t,
     a = RevealAnswer ∨ a = CheckTypedAnswer →
     _currentCard ui0 = Some card → debounced t ui0 = false →
     ∃ shown, perform a t ui0 = Some shown ∧ mode shown = Back ∧
              resetButton_disabled (widgets shown) = false) ∧
  (∀ (a : DebouncedAction) t (ui1 ui2 : CardUI QueueSequencer),
     reset_disabled_in_Front ui1 →
     perform a t ui1 = Some ui2 ∨ skipButton_click ui1 = Some ui2 →
     reset_disabled_in_Front ui2).
Proof.
  split; [left; reflexivity|].
  apply (reset_key_only_in_Back (key "Digit0") 5000 back_ui). left; reflexivity.
Defined.

(** C8 as stated fails: on a drawn card still in [Front], the reset key
    is dropped (no call to the sequencer, the event not consumed), and
    the reset button is disabled. *)
Lemma reset_key_ignored_in_Front :
  mode front_ui = Front ∧
  _currentCard front_ui = Some basic_card ∧
  _keydownHandler (key "Digit0") 5000 front_ui = Some (front_ui, false) ∧
  _keydownHandler (key "Numpad0") 5000 front_ui = Some (front_ui, false) ∧
  resetButton_disabled (widgets front_ui) = true ∧
  resetButton_click 5000 front_ui = Some front_ui ∧
  calls front_ui = [].
Proof. repeat split; vm_compute; reflexivity. Qed.

(** C9.  An accepted check of the typed answer always ends in [Back]
    with the reset button enabled and the Hard and Easy buttons shown
    (the Good button too, except in [Cram] mode, where the response bar
    is marked instead); no response is sent to the sequencer; whether
    the answer was correct shows in the result indicator only. *)
Theorem check_typed_answer_goes_Back {S : Type} `{!IFlashcardReviewSequencer S}
    (timeNow : Z) (ui : CardUI S) (card : Card) :
  _currentCard ui = Some card → debounced timeNow ui = false →
  ∃ ui',
    _checkTypeInAnswer timeNow ui = Some ui' ∧
    mode ui' = Back ∧
    resetButton_disabled (widgets ui') = false ∧
    hardButton_hidden (widgets ui') = false ∧
    easyButton_hidden (widgets ui') = false ∧
    (if bool_decide (reviewMode ui = Cram)
     then response_isCram (widgets ui') = true
     else goodButton_hidden (widgets ui') = false) ∧
    reviewSequencer ui' = reviewSequencer ui ∧ calls ui' = calls ui ∧
    indicatorCorrect <$> typeInResult (widgets ui') =
      Some (isAnswerCorrect (typeInInput_value (widgets ui)) (trim (back card))
              (typeInCaseSensitive (settings ui))).
Proof.
  intros Hcard Hdeb.
  destruct (_checkTypeInAnswer_accepted timeNow ui card Hdeb Hcard)
    as (ui' & ? & _ & ? & ? & ? & ? & ? & ? & ? & ?).
  by exists ui'.
Qed.

Lemma check_typed_answer_goes_Back_witness :
  _currentCard (typein_ui Review) = Some typein_card ∧
  debounced 1000 (typein_ui Review) = false ∧
  isAnswerCorrect (typeInInput_value (widgets (typein_ui Review)))
    (trim (back typein_card)) false = false ∧
  ∃ ui',
    _checkTypeInAnswer 1000 (typein_ui Review) = Some ui' ∧
    mode ui' = Back ∧
    resetButton_disabled (widgets ui') = false ∧
    hardButton_hidden (widgets ui') = false ∧
    easyButton_hidden (widgets ui') = false ∧
    (if bool_decide (reviewMode (typein_ui Review) = Cram)
     then response_isCram (widgets ui') = true
     else goodButton_hidden (widgets ui') = false) ∧
    reviewSequencer ui' = reviewSequencer (typein_ui Review) ∧
    calls ui' = calls (typein_ui Review) ∧
    indicatorCorrect <$> typeInResult (widgets ui') =
      Some (isAnswerCorrect (typeInInput_value (widgets (typein_ui Review)))
              (trim (back typein_card))
              (typeInCaseSensitive (settings (typein_ui Review)))).
Proof.
  split; [reflexivity|]. split; [reflexivity|]. split; [vm_compute; reflexivity|].
  apply (check_typed_answer_goes_Back 1000 (typein_ui Review) typein_card);
    reflexivity.
Defined.

(** * Further properties of the diff engine *)

(** X1.  The table of [computeLCS] has one row per prefix of the first
    string and one column per prefix of the second, and the cell
    [(i, j)] holds the length of a longest common subsequence of the
    prefixes of lengths [i] and [j]: some common subsequence has that
    length and none is longer. *)
Theorem computeLCS_cells_are_lcs (str1 str2 : jsstring) (i j : nat) :
  i ≤ length str1 → j ≤ length str2 →
  length (computeLCS str1 str2) = length str1 + 1 ∧
  Forall (λ row, length row = length str2 + 1) (computeLCS str1 str2) ∧
  (∃ s, s `sublist_of` take i str1 ∧ s `sublist_of` take j str2 ∧
        length s = dp_get (computeLCS str1 str2) i j) ∧
  (∀ s, s `sublist_of` take i str1 → s `sublist_of` take j str2 →
        length s ≤ dp_get (computeLCS str1 str2) i j).
Proof.
  intros Hi Hj. destruct (computeLCS_shape str1 str2) as [Hlen Hrows].
  split; [done|]. split.
  { apply Forall_lookup. intros k row Hrow. by apply (Hrows k). }
  rewrite computeLCS_value by done. unfold table_value. rewrite lcs_length_reverse.
  split; [apply lcs_length_achieved|]. intros s. apply lcs_length_upper_bound.
Qed.

Lemma computeLCS_cells_are_lcs_witness :
  3 ≤ length (str "kitten") ∧ 4 ≤ length (str "sitting") ∧
  length (computeLCS (str "kitten") (str "sitting")) = length (str "kitten") + 1 ∧
  Forall (λ row, length row = length (str "sitting") + 1)
         (computeLCS (str "kitten") (str "sitting")) ∧
  (∃ s, s `sublist_of` take 3 (str "kitten") ∧ s `sublist_of` take 4 (str "sitting") ∧
        length s = dp_get (computeLCS (str "kitten") (str "sitting")) 3 4) ∧
  (∀ s, s `sublist_of` take 3 (str "kitten") → s `sublist_of` take 4 (str "sitting") →
        length s ≤ dp_get (computeLCS (str "kitten") (str "sitting")) 3 4).
Proof.
  split; [vm_compute; lia|]. split; [vm_compute; lia|].
  apply (computeLCS_cells_are_lcs (str "kitten") (str "sitting") 3 4); vm_compute; lia.
Defined.

(** X2.  When the comparison strings are the two answers with a map
    [f] applied to each code unit, the result of [computeDiff] aligns
    the two answers, and no alignment has fewer inserted and deleted
    characters. *)
Theorem computeDiff_minimal {U : Type} `{EqDecision U}
    (host_toLowerCase : list U → list U) (f : U → U)
    (userAnswer correctAnswer : list U) (caseSensitive : bool) :
  compared_by_units host_toLowerCase caseSensitive f userAnswer →
  compared_by_units host_toLowerCase caseSensitive f correctAnswer →
  ∃ segs,
    computeDiff_with host_toLowerCase userAnswer correctAnswer caseSensitive = Some segs ∧
    is_alignment_with f userAnswer correctAnswer segs ∧
    ∀ segs', is_alignment_with f userAnswer correctAnswer segs' →
             diff_cost segs ≤ diff_cost segs'.
Proof.
  intros Hu Hc. eexists. split; [by apply computeDiff_with_refines|].
  split; [apply reference_is_alignment|].
  intros segs'. apply reference_minimal.
Qed.

Lemma computeDiff_minimal_witness :
  compared_by_units toLowerCase false toLowerCaseUnit (str "kitten") ∧
  compared_by_units toLowerCase false toLowerCaseUnit (str "sitting") ∧
  ∃ segs,
    computeDiff_with toLowerCase (str "kitten") (str "sitting") false = Some segs ∧
    is_alignment_with toLowerCaseUnit (str "kitten") (str "sitting") segs ∧
    ∀ segs', is_alignment_with toLowerCaseUnit (str "kitten") (str "sitting") segs' →
             diff_cost segs ≤ diff_cost segs'.
Proof.
  split; [reflexivity|]. split; [reflexivity|].
  apply (computeDiff_minimal toLowerCase toLowerCaseUnit (str "kitten") (str "sitting") false);
    reflexivity.
Defined.

(** X3.  When the comparison strings are the two answers with a map
    [f] applied to each code unit, the [Equal] segments hold as many
    characters as a longest common subsequence of the two comparison
    strings has, and the [Insert] and [Delete] segments hold all the
    others. *)
Theorem computeDiff_counts {U : Type} `{EqDecision U}
    (host_toLowerCase : list U → list U) (f : U → U)
    (userAnswer correctAnswer : list U) (caseSensitive : bool) :
  compared_by_units host_toLowerCase caseSensitive f userAnswer →
  compared_by_units host_toLowerCase caseSensitive f correctAnswer →
  ∃ segs,
    computeDiff_with host_toLowerCase userAnswer correctAnswer caseSensitive = Some segs ∧
    let common := lcs_length (f <$> userAnswer) (f <$> correctAnswer) in
    length (text_of_kind Equal segs) = common ∧
    length (text_of_kind Insert segs) = length correctAnswer - common ∧
    length (text_of_kind Delete segs) = length userAnswer - common ∧
    diff_cost segs + 2 * common = length userAnswer + length correctAnswer.
Proof.
  intros Hcu Hcc. eexists. split; [by apply computeDiff_with_refines|]. cbn zeta.
  pose proof (reference_Equal_count f userAnswer correctAnswer) as HE.
  pose proof (reference_without_Delete f userAnswer correctAnswer) as Hc.
  pose proof (reference_without_Insert f userAnswer correctAnswer) as Hu.
  apply (f_equal length) in Hc, Hu. rewrite !length_fmap in Hu.
  rewrite text_without_Delete_length in Hc. rewrite text_without_Insert_length in Hu.
  unfold diff_cost. lia.
Qed.

Lemma computeDiff_counts_witness :
  compared_by_units toLowerCase false toLowerCaseUnit (str "kitten") ∧
  compared_by_units toLowerCase false toLowerCaseUnit (str "sitting") ∧
  ∃ segs,
    computeDiff_with toLowerCase (str "kitten") (str "sitting") false = Some segs ∧
    let common := lcs_length (toLowerCaseUnit <$> str "kitten")
                             (toLowerCaseUnit <$> str "sitting") in
    length (text_of_kind Equal segs) = common ∧
    length (text_of_kind Insert segs) = length (str "sitting") - common ∧
    length (text_of_kind Delete segs) = length (str "kitten") - common ∧
    diff_cost segs + 2 * common = length (str "kitten") + length (str "sitting").
Proof.
  split; [reflexivity|]. split; [reflexivity|].
  apply (computeDiff_counts toLowerCase toLowerCaseUnit (str "kitten") (str "sitting") false);
    reflexivity.
Defined.

(** X4.  When the comparison strings are the two answers with a map
    [f] applied to each code unit, the result is the single segment
    [Equal correctAnswer] exactly when the two comparison strings are
    equal; and, whatever the host's [toLowerCase] does, a string
    compared with itself gives one [Equal] segment, the empty string
    included. *)
Theorem computeDiff_single_Equal_iff {U : Type} `{EqDecision U}
    (host_toLowerCase : list U → list U) (f : U → U)
    (userAnswer correctAnswer : list U) (caseSensitive : bool) :
  compared_by_units host_toLowerCase caseSensitive f userAnswer →
  compared_by_units host_toLowerCase caseSensitive f correctAnswer →
  (computeDiff_with host_toLowerCase userAnswer correctAnswer caseSensitive
     = Some [mkDiffSegment Equal correctAnswer] ↔
   f <$> userAnswer = f <$> correctAnswer) ∧
  (∀ s, computeDiff_with host_toLowerCase s s caseSensitive = Some [mkDiffSegment Equal s]).
Proof.
  intros Hu Hc. split.
  - rewrite (computeDiff_with_single_Equal _ f) by done.
    unfold compared_by_units in Hu, Hc. by rewrite Hu, Hc.
  - intros s. unfold computeDiff_with. by rewrite bool_decide_true.
Qed.

Lemma computeDiff_single_Equal_iff_witness :
  compared_by_units toLowerCase false toLowerCaseUnit (str "Cat") ∧
  compared_by_units toLowerCase false toLowerCaseUnit (str "cat") ∧
  (computeDiff_with toLowerCase (str "Cat") (str "cat") false
     = Some [mkDiffSegment Equal (str "cat")] ↔
   toLowerCaseUnit <$> str "Cat" = toLowerCaseUnit <$> str "cat") ∧
  (∀ s, computeDiff_with toLowerCase s s false = Some [mkDiffSegment Equal s]).
Proof.
  split; [reflexivity|]. split; [reflexivity|].
  apply (computeDiff_single_Equal_iff toLowerCase toLowerCaseUnit (str "Cat") (str "cat") false);
    reflexivity.
Defined.

(** X5.  Against an empty typed answer the whole correct answer is one
    [Insert] segment, and against an empty correct answer the whole
    typed answer is one [Delete] segment. *)
Theorem computeDiff_empty_side (s : jsstring) (caseSensitive : bool) :
  s ≠ [] →
  computeDiff [] s caseSensitive = Some [mkDiffSegment Insert s] ∧
  computeDiff s [] caseSensitive = Some [mkDiffSegment Delete s].
Proof.
  intros Hs. rewrite !computeDiff_refines. unfold computeDiff_reference, computeDiff_reference_with.
  rewrite bool_decide_false by (symmetry; by apply fold_fmap_nil_r).
  rewrite bool_decide_false by (by apply fold_fmap_nil_r).
  rewrite reverse_nil, align_nil_l, align_nil_r, <- !fmap_reverse, !reverse_involutive.
  by rewrite !group_runs_constant.
Qed.

Lemma computeDiff_empty_side_witness :
  str "cat" ≠ [] ∧
  computeDiff [] (str "cat") false = Some [mkDiffSegment Insert (str "cat")] ∧
  computeDiff (str "cat") [] false = Some [mkDiffSegment Delete (str "cat")].
Proof. split; [discriminate|]. apply (computeDiff_empty_side (str "cat") false). discriminate. Defined.

(** X6.  No segment of the result is empty, except for the one [Equal]
    segment returned when both answers are empty. *)
Theorem computeDiff_segments_nonempty (userAnswer correctAnswer : jsstring) (caseSensitive : bool) :
  (∃ segs,
     computeDiff userAnswer correctAnswer caseSensitive = Some segs ∧
     (Forall (λ g, text g ≠ []) segs ∨ (userAnswer = [] ∧ correctAnswer = []))) ∧
  computeDiff [] [] caseSensitive = Some [mkDiffSegment Equal []].
Proof.
  split; [|by destruct caseSensitive].
  eexists. split; [apply computeDiff_refines|].
  unfold computeDiff_reference, computeDiff_reference_with. case_bool_decide as Heq.
  - destruct correctAnswer as [|c cs'].
    + right. split; [|done]. by destruct userAnswer.
    + left. by repeat constructor.
  - left. apply group_runs_nonempty.
Qed.

(** X25.  Whatever the host's [toLowerCase] returns, as long as it is
    not shorter than the user's answer, [computeDiff] returns a list in
    which no two consecutive segments have the same kind; every [Equal]
    segment is the slice of the correct answer under the cursor, so that
    the matched text is a subsequence of the correct answer; the deleted
    text is a subsequence of the user's answer; and no segment is empty
    unless the correct answer is. *)
Theorem computeDiff_with_any_host {U : Type} `{EqDecision U}
    (host_toLowerCase : list U → list U) (userAnswer correctAnswer : list U)
    (caseSensitive : bool) :
  length userAnswer ≤ length (host_toLowerCase userAnswer) →
  ∃ segs,
    computeDiff_with host_toLowerCase userAnswer correctAnswer caseSensitive = Some segs ∧
    no_adjacent_same segs ∧
    equal_from_correct correctAnswer 0 segs ∧
    text_of_kind Equal segs `sublist_of` correctAnswer ∧
    text_of_kind Delete segs `sublist_of` userAnswer ∧
    (Forall (λ g, text g ≠ []) segs ∨ correctAnswer = []).
Proof.
  intros Hlen.
  set (cu := if caseSensitive then userAnswer else host_toLowerCase userAnswer).
  set (cc := if caseSensitive then correctAnswer else host_toLowerCase correctAnswer).
  assert (Hfrom : ∀ segs : list (DiffSegmentOf U),
            text_without Delete segs = correctAnswer →
            equal_from_correct correctAnswer 0 segs ∧
            text_of_kind Equal segs `sublist_of` correctAnswer).
  { intros segs Hc. split.
    - apply equal_from_correct_of_without_Delete. by rewrite drop_0.
    - pose proof (text_of_kind_Equal_sublist Delete segs ltac:(done)) as Hsub.
      by rewrite Hc in Hsub. }
  destruct (decide (cu = cc)) as [Heq|Hne].
  - exists [mkDiffSegment Equal correctAnswer].
    split; [unfold computeDiff_with; fold cu cc; by rewrite bool_decide_true|].
    split; [done|].
    destruct (Hfrom [mkDiffSegment Equal correctAnswer]) as [? ?].
    { rewrite text_without_cons, decide_True by done. apply app_nil_r. }
    split; [done|]. split; [done|]. split; [apply sublist_nil_l|].
    destruct correctAnswer; [by right|left; by repeat constructor].
  - destruct (computeDiff_with_any host_toLowerCase userAnswer correctAnswer caseSensitive)
      as (ops & Hrun & Hc & Hu); [by destruct caseSensitive|done|].
    exists (group_runs ops). split; [done|].
    split; [apply group_runs_no_adjacent_same|].
    destruct (Hfrom (group_runs ops)) as [? ?]; [by rewrite group_runs_text_without|].
    split; [done|]. split; [done|]. split.
    + rewrite group_runs_text_of_kind. by eapply from_user_Delete_sublist.
    + left. apply group_runs_nonempty.
Qed.

Lemma computeDiff_with_any_host_witness :
  length [304; 98]%N ≤ length (toLowerCase16 [304; 98]%N) ∧
  ∃ segs,
    computeDiff_with toLowerCase16 [304; 98]%N [105; 98]%N false = Some segs ∧
    no_adjacent_same segs ∧
    equal_from_correct [105; 98]%N 0 segs ∧
    text_of_kind Equal segs `sublist_of` [105; 98]%N ∧
    text_of_kind Delete segs `sublist_of` [304; 98]%N ∧
    (Forall (λ g, text g ≠ []) segs ∨ [105; 98]%N = []).
Proof.
  split; [vm_compute; lia|].
  apply (computeDiff_with_any_host toLowerCase16 [304; 98]%N [105; 98]%N false).
  vm_compute; lia.
Defined.

(** * Further properties of [isAnswerCorrect] *)

Lemma trimStart_all_space s : all_space s → trimStart s = [].
Proof.
  induction 1 as [|c s Hc _ IH]; [done|]. cbn [trimStart]. by rewrite Hc.
Qed.

Lemma trimStart_app_l l s : all_space l → trimStart (l ++ s) = trimStart s.
Proof.
  induction 1 as [|c l Hc _ IH]; [done|]. cbn [app trimStart]. by rewrite Hc.
Qed.

Lemma trimStart_app_r s r :
  trimStart s ≠ [] → trimStart (s ++ r) = trimStart s ++ r.
Proof.
  induction s as [|c s IH]; [done|]. cbn [app trimStart].
  destruct (isWhiteSpace c); [apply IH|done].
Qed.

Lemma trimStart_nil_all_space s : trimStart s = [] → all_space s.
Proof.
  induction s as [|c s IH]; [constructor|]. cbn [trimStart].
  destruct (isWhiteSpace c) eqn:Hc; [|done]. intros Hs. constructor; [done|by apply IH].
Qed.

Lemma all_space_reverse s : all_space s → all_space (reverse s).
Proof.
  unfold all_space. rewrite !Forall_forall. intros Hs c Hc. apply Hs.
  by apply elem_of_reverse.
Qed.

Lemma trimEnd_app_r s r : all_space r → trimEnd (s ++ r) = trimEnd s.
Proof.
  intros Hr. unfold trimEnd. rewrite reverse_app, trimStart_app_l; [done|].
  by apply all_space_reverse.
Qed.

Lemma trimEnd_nil : trimEnd [] = [].
Proof. done. Qed.

Lemma trim_app_space l s r :
  all_space l → all_space r → trim (l ++ s ++ r) = trim s.
Proof.
  intros Hl Hr. unfold trim. rewrite trimStart_app_l by done.
  destruct (trimStart s) as [|c t] eqn:Hs.
  - rewrite trimStart_all_space; [done|].
    apply Forall_app. split; [by apply trimStart_nil_all_space|done].
  - rewrite trimStart_app_r by (by rewrite Hs). rewrite Hs. by apply trimEnd_app_r.
Qed.

Lemma trim_sublist s : trim s `sublist_of` s.
Proof.
  destruct (trim_split s) as (l & r & Hs & _). rewrite Hs at 2.
  apply sublist_inserts_l, sublist_inserts_r. done.
Qed.

(** X7.  White space before and after either answer does not change the
    verdict of [isAnswerCorrect]. *)
Theorem isAnswerCorrect_ignores_outer_space
    (userAnswer correctAnswer l1 r1 l2 r2 : jsstring) (caseSensitive : bool) :
  all_space l1 → all_space r1 → all_space l2 → all_space r2 →
  isAnswerCorrect (l1 ++ userAnswer ++ r1) (l2 ++ correctAnswer ++ r2) caseSensitive
    = isAnswerCorrect userAnswer correctAnswer caseSensitive.
Proof.
  intros Hl1 Hr1 Hl2 Hr2. unfold isAnswerCorrect, isAnswerCorrect_with.
  by rewrite !trim_app_space.
Qed.

Lemma isAnswerCorrect_ignores_outer_space_witness :
  all_space (str " ") ∧ all_space (str "  ") ∧ all_space [] ∧ all_space (str " ") ∧
  isAnswerCorrect (str " " ++ str "Cat" ++ str "  ") ([] ++ str "cat" ++ str " ") false
    = isAnswerCorrect (str "Cat") (str "cat") false.
Proof.
  assert (H1 : all_space (str " ")) by (repeat constructor).
  assert (H2 : all_space (str "  ")) by (repeat constructor).
  assert (H0 : all_space []) by constructor.
  split; [done|]. split; [done|]. split; [done|]. split; [done|].
  by apply (isAnswerCorrect_ignores_outer_space (str "Cat") (str "cat")).
Defined.

Lemma isAnswerCorrect_compared u c cs :
  isAnswerCorrect u c cs = true ↔ compared cs u = compared cs c.
Proof.
  unfold isAnswerCorrect, isAnswerCorrect_with, compared.
  destruct cs; apply bool_decide_eq_true.
Qed.

Lemma compared_fold cs s : compared cs s = fold_unit cs <$> trim s.
Proof. unfold compared. apply compare_string_fold. Qed.

(** [isAnswerCorrect] is an equivalence on answers: every answer is
    correct for itself, the verdict does not depend on which of the two
    is the typed one, and two answers correct for a third are correct
    for each other; an answer correct with case sensitivity is correct
    without it. *)
Lemma isAnswerCorrect_equivalence (a b c : jsstring) (caseSensitive : bool) :
  isAnswerCorrect a a caseSensitive = true ∧
  isAnswerCorrect a b caseSensitive = isAnswerCorrect b a caseSensitive ∧
  (isAnswerCorrect a b caseSensitive = true → isAnswerCorrect b c caseSensitive = true →
   isAnswerCorrect a c caseSensitive = true) ∧
  (isAnswerCorrect a b true = true → isAnswerCorrect a b false = true).
Proof.
  split; [by apply isAnswerCorrect_compared|]. split; [|split].
  - apply eq_true_iff_eq. rewrite !isAnswerCorrect_compared. by split.
  - rewrite !isAnswerCorrect_compared. congruence.
  - rewrite !isAnswerCorrect_compared. unfold compared. by intros ->.
Qed.

(** X8.  The verdict and the diff agree on trimmed input: when the
    comparison strings of the two trimmed answers are these answers
    with a map [f] applied to each code unit, the answer is correct
    exactly when the diff of the two trimmed strings is the one segment
    [Equal] with the trimmed correct answer. *)
Theorem isAnswerCorrect_iff_diff_trimmed {U : Type} `{EqDecision U}
    (host_trim host_toLowerCase : list U → list U) (f : U → U)
    (userAnswer correctAnswer : list U) (caseSensitive : bool) :
  compared_by_units host_toLowerCase caseSensitive f (host_trim userAnswer) →
  compared_by_units host_toLowerCase caseSensitive f (host_trim correctAnswer) →
  isAnswerCorrect_with host_trim host_toLowerCase userAnswer correctAnswer caseSensitive
    = true ↔
  computeDiff_with host_toLowerCase (host_trim userAnswer) (host_trim correctAnswer)
      caseSensitive
    = Some [mkDiffSegment Equal (host_trim correctAnswer)].
Proof.
  intros Hu Hc. rewrite (computeDiff_with_single_Equal _ f) by done.
  unfold isAnswerCorrect_with. destruct caseSensitive; apply bool_decide_eq_true.
Qed.

Lemma isAnswerCorrect_iff_diff_trimmed_witness :
  compared_by_units toLowerCase false toLowerCaseUnit (trim (str " Cat ")) ∧
  compared_by_units toLowerCase false toLowerCaseUnit (trim (str "cat")) ∧
  (isAnswerCorrect_with trim toLowerCase (str " Cat ") (str "cat") false = true ↔
   computeDiff_with toLowerCase (trim (str " Cat ")) (trim (str "cat")) false
     = Some [mkDiffSegment Equal (trim (str "cat"))]).
Proof.
  split; [reflexivity|]. split; [reflexivity|].
  apply (isAnswerCorrect_iff_diff_trimmed trim toLowerCase toLowerCaseUnit
           (str " Cat ") (str "cat") false); reflexivity.
Defined.

(** X9.  When the typed answer is judged correct, the correct answer has
    no outer white space (as [_checkTypeInAnswer] passes it), the
    trimmed typed answer is the typed answer without some characters at
    its two ends, and the comparison strings are the answers with a map
    [f] applied to each code unit, then the diff of the answer as typed
    has nothing to insert: every character of the correct answer is
    matched, and what is deleted is as long as what [trim] removed
    around the typed answer. *)
Theorem correct_answer_diff_has_no_Insert {U : Type} `{EqDecision U}
    (host_trim host_toLowerCase : list U → list U) (f : U → U)
    (userAnswer correctAnswer : list U) (caseSensitive : bool) :
  compared_by_units host_toLowerCase caseSensitive f userAnswer →
  compared_by_units host_toLowerCase caseSensitive f correctAnswer →
  compared_by_units host_toLowerCase caseSensitive f (host_trim userAnswer) →
  (∃ l r, userAnswer = l ++ host_trim userAnswer ++ r) →
  host_trim correctAnswer = correctAnswer →
  isAnswerCorrect_with host_trim host_toLowerCase userAnswer correctAnswer caseSensitive
    = true →
  ∃ segs,
    computeDiff_with host_toLowerCase userAnswer correctAnswer caseSensitive = Some segs ∧
    text_of_kind Insert segs = [] ∧
    text_of_kind Equal segs = correctAnswer ∧
    length (text_of_kind Delete segs) = length userAnswer - length (host_trim userAnswer).
Proof.
  intros Hcu Hcc Hct (l & r & Hpad) Htrim Hok.
  assert (Hsame : f <$> host_trim userAnswer = f <$> correctAnswer).
  { unfold isAnswerCorrect_with in Hok. rewrite Htrim in Hok.
    unfold compared_by_units in Hct, Hcc. rewrite <- Hct, <- Hcc.
    destruct caseSensitive; by apply bool_decide_eq_true in Hok. }
  assert (Hsub : host_trim userAnswer `sublist_of` userAnswer).
  { rewrite Hpad at 2. apply sublist_inserts_l, sublist_inserts_r. done. }
  eexists. split; [by apply (computeDiff_with_refines _ f)|].
  set (segs := computeDiff_reference_with f userAnswer correctAnswer).
  pose proof (reference_Equal_count f userAnswer correctAnswer) as HE.
  pose proof (reference_without_Delete f userAnswer correctAnswer) as Hc.
  pose proof (reference_without_Insert f userAnswer correctAnswer) as Hu.
  fold segs in HE, Hc, Hu.
  assert (Hcommon : length correctAnswer ≤
            lcs_length (f <$> userAnswer) (f <$> correctAnswer)).
  { rewrite <- (length_fmap f).
    apply lcs_length_upper_bound; [|done].
    rewrite <- Hsame. by apply sublist_fmap_2. }
  pose proof (f_equal length Hc) as Hclen. pose proof (f_equal length Hu) as Hulen.
  rewrite !length_fmap in Hulen.
  rewrite text_without_Delete_length in Hclen. rewrite text_without_Insert_length in Hulen.
  assert (Hlen : length (host_trim userAnswer) = length correctAnswer)
    by (apply (f_equal length) in Hsame; by rewrite !length_fmap in Hsame).
  assert (HI : text_of_kind Insert segs = []) by (apply length_zero_iff_nil; lia).
  split; [done|]. split; [|lia].
  pose proof (text_of_kind_Equal_sublist Delete segs ltac:(done)) as HsubE.
  rewrite Hc in HsubE. apply sublist_same_length in HsubE; [done|lia].
Qed.

Lemma correct_answer_diff_has_no_Insert_witness :
  compared_by_units toLowerCase false toLowerCaseUnit (str " Cat ") ∧
  compared_by_units toLowerCase false toLowerCaseUnit (str "cat") ∧
  compared_by_units toLowerCase false toLowerCaseUnit (trim (str " Cat ")) ∧
  (∃ l r, str " Cat " = l ++ trim (str " Cat ") ++ r) ∧
  trim (str "cat") = str "cat" ∧
  isAnswerCorrect_with trim toLowerCase (str " Cat ") (str "cat") false = true ∧
  ∃ segs,
    computeDiff_with toLowerCase (str " Cat ") (str "cat") false = Some segs ∧
    text_of_kind Insert segs = [] ∧
    text_of_kind Equal segs = str "cat" ∧
    length (text_of_kind Delete segs) = length (str " Cat ") - length (trim (str " Cat ")).
Proof.
  assert (Hpad : ∃ l r, str " Cat " = l ++ trim (str " Cat ") ++ r)
    by (exists (str " "), (str " "); vm_compute; reflexivity).
  split; [reflexivity|]. split; [reflexivity|]. split; [reflexivity|].
  split; [exact Hpad|]. split; [vm_compute; reflexivity|]. split; [vm_compute; reflexivity|].
  apply (correct_answer_diff_has_no_Insert trim toLowerCase toLowerCaseUnit
           (str " Cat ") (str "cat") false);
    [reflexivity..|exact Hpad|vm_compute; reflexivity|vm_compute; reflexivity].
Defined.

(** * Properties of the rendering *)

Lemma escapeUnit_cases c :
  (c = "&"%char ∧ escapeUnit c = str "&amp;") ∨
  (c = ascii_of_nat 160 ∧ escapeUnit c = str "&nbsp;") ∨
  (c = "<"%char ∧ escapeUnit c = str "&lt;") ∨
  (c = ">"%char ∧ escapeUnit c = str "&gt;") ∨
  (c ≠ "&"%char ∧ c ≠ ascii_of_nat 160 ∧ c ≠ "<"%char ∧ c ≠ ">"%char ∧ escapeUnit c = [c]).
Proof.
  unfold escapeUnit. repeat case_bool_decide; subst; tauto.
Qed.

Lemma escapeHtml_cons c t : escapeHtml (c :: t) = escapeUnit c ++ escapeHtml t.
Proof. done. Qed.

Lemma escapeHtml_app a b : escapeHtml (a ++ b) = escapeHtml a ++ escapeHtml b.
Proof. unfold escapeHtml. by rewrite fmap_app, join_app. Qed.

Lemma escapeHtml_no_markup t c :
  c ∈ escapeHtml t → c ≠ "<"%char ∧ c ≠ ">"%char ∧ c ≠ ascii_of_nat 160.
Proof.
  induction t as [|a t IH]; [by intros ?%elem_of_nil|].
  rewrite escapeHtml_cons, elem_of_app. intros [Hc|Hc]; [|by apply IH].
  destruct (escapeUnit_cases a) as [[_ H]|[[_ H]|[[_ H]|[[_ H]|(? & ? & ? & ? & H)]]]];
    rewrite H in Hc; cbn in Hc;
    repeat (apply elem_of_cons in Hc as [->|Hc]); try (by apply elem_of_nil in Hc);
    done.
Qed.

Lemma escapeHtml_inj a : ∀ b, escapeHtml a = escapeHtml b → a = b.
Proof.
  induction a as [|x a IH]; intros [|y b] Heq.
  - done.
  - exfalso. rewrite escapeHtml_cons in Heq.
    destruct (escapeUnit_cases y) as [[_ H]|[[_ H]|[[_ H]|[[_ H]|(? & ? & ? & ? & H)]]]];
      rewrite H in Heq; discriminate.
  - exfalso. rewrite escapeHtml_cons in Heq.
    destruct (escapeUnit_cases x) as [[_ H]|[[_ H]|[[_ H]|[[_ H]|(? & ? & ? & ? & H)]]]];
      rewrite H in Heq; discriminate.
  - rewrite !escapeHtml_cons in Heq.
    destruct (escapeUnit_cases x) as [[-> Hx]|[[-> Hx]|[[-> Hx]|[[-> Hx]|(? & ? & ? & ? & Hx)]]]];
    destruct (escapeUnit_cases y) as [[-> Hy]|[[-> Hy]|[[-> Hy]|[[-> Hy]|(? & ? & ? & ? & Hy)]]]];
      rewrite ?Hx, ?Hy in Heq; cbn in Heq; simplify_eq; try done;
      f_equal; by apply IH.
Qed.

Lemma escapeHtml_plain t :
  Forall (λ c, c ≠ "&"%char ∧ c ≠ ascii_of_nat 160 ∧ c ≠ "<"%char ∧ c ≠ ">"%char) t →
  escapeHtml t = t.
Proof.
  induction 1 as [|c t (? & ? & ? & ?) _ IH]; [done|].
  rewrite escapeHtml_cons, IH. unfold escapeUnit.
  by rewrite !bool_decide_false.
Qed.

(** X10.  [escapeHtml] leaves no angle bracket and no no-break space in
    the text, keeps a text without the four special characters as it
    is, and never maps two texts to the same string. *)
Theorem escapeHtml_safe_and_injective (text : jsstring) :
  Forall (λ c, c ≠ "<"%char ∧ c ≠ ">"%char ∧ c ≠ ascii_of_nat 160) (escapeHtml text) ∧
  (Forall (λ c, c ≠ "&"%char ∧ c ≠ ascii_of_nat 160 ∧ c ≠ "<"%char ∧ c ≠ ">"%char) text →
   escapeHtml text = text) ∧
  (∀ other, escapeHtml text = escapeHtml other → text = other).
Proof.
  split; [|split].
  - apply Forall_forall. intros c. apply escapeHtml_no_markup.
  - apply escapeHtml_plain.
  - apply escapeHtml_inj.
Qed.

Lemma count_unit_app c a b : count_unit c (a ++ b) = count_unit c a + count_unit c b.
Proof. unfold count_unit. by rewrite filter_app, length_app. Qed.

Lemma count_unit_zero c s : (∀ x, x ∈ s → x ≠ c) → count_unit c s = 0.
Proof.
  unfold count_unit. induction s as [|a s IH]; intros Hs; [done|].
  rewrite filter_cons_False by (apply Hs; left).
  apply IH. intros x Hx. apply Hs. by right.
Qed.

Lemma count_unit_escapeHtml c t :
  c = "<"%char ∨ c = ">"%char → count_unit c (escapeHtml t) = 0.
Proof.
  intros Hc. apply count_unit_zero. intros x Hx.
  apply escapeHtml_no_markup in Hx as (? & ? & _). destruct Hc; congruence.
Qed.

Lemma count_unit_renderSegment c segment :
  c = "<"%char ∨ c = ">"%char → count_unit c (renderSegment segment) = 2.
Proof.
  intros Hc. unfold renderSegment, span.
  destruct (type segment); rewrite !count_unit_app, count_unit_escapeHtml by done;
    destruct Hc as [-> | ->]; vm_compute; reflexivity.
Qed.

Lemma renderDiffHtml_cons segment diff :
  renderDiffHtml (segment :: diff) = renderSegment segment ++ renderDiffHtml diff.
Proof. done. Qed.

(** X11.  In the HTML of a diff the only angle brackets are those of the
    tags: each segment brings one opening and one closing tag, whatever
    its text holds; and the HTML of a diff put together from two is the
    two HTML strings put together. *)
Theorem renderDiffHtml_tags_only (diff : list DiffSegment) :
  count_unit "<"%char (renderDiffHtml diff) = 2 * length diff ∧
  count_unit ">"%char (renderDiffHtml diff) = 2 * length diff ∧
  ∀ more, renderDiffHtml (diff ++ more) = renderDiffHtml diff ++ renderDiffHtml more.
Proof.
  split; [|split].
  - induction diff as [|s diff IH]; [done|].
    rewrite renderDiffHtml_cons, count_unit_app, IH, count_unit_renderSegment by (by left).
    cbn [length]. lia.
  - induction diff as [|s diff IH]; [done|].
    rewrite renderDiffHtml_cons, count_unit_app, IH, count_unit_renderSegment by (by right).
    cbn [length]. lia.
  - intros more. unfold renderDiffHtml. by rewrite fmap_app, join_app.
Qed.

(** * Further properties of the card controller *)

Section CardUI_more.
Context {S : Type} `{!IFlashcardReviewSequencer S}.

Lemma _isTypeInCard_currentCard (ui : CardUI S) card :
  _currentCard ui = Some card → _isTypeInCard ui = isTypeIn card.
Proof. unfold _isTypeInCard, _currentQuestion, isTypeIn. by intros ->. Qed.

Lemma _drawContent_fresh (ui : CardUI S) card :
  _currentCard ui = Some card →
  ∃ ui', _drawContent ui = Some ui' ∧ fresh_card card ui' ∧ same_session ui ui' ∧
         lastPressed ui' = lastPressed ui ∧
         reviewSequencer ui' = reviewSequencer ui ∧ calls ui' = calls ui.
Proof.
  intros Hcard. unfold _drawContent. rewrite Hcard. cbn [mbind option_bind].
  eexists. split; [done|].
  unfold _resetResponseButtons, fresh_card, same_session.
  match goal with |- context [_isTypeInCard ?u] =>
    rewrite (_isTypeInCard_currentCard u card Hcard) end.
  by destruct (isTypeIn card).
Qed.

Lemma _showNextCard_fresh (ui : CardUI S) card :
  _currentCard ui = Some card →
  ∃ ui', _showNextCard ui = Some ui' ∧ fresh_card card ui' ∧ same_session ui ui' ∧
         lastPressed ui' = lastPressed ui ∧
         reviewSequencer ui' = reviewSequencer ui ∧ calls ui' = calls ui.
Proof.
  intros Hcard. unfold _showNextCard, refresh. rewrite Hcard.
  by apply _drawContent_fresh.
Qed.

Lemma _showNextCard_end (ui : CardUI S) :
  _currentCard ui = None →
  _showNextCard ui = Some (with_call (reviewSequencer ui) CallBackToDeck ui).
Proof. unfold _showNextCard. by intros ->. Qed.

(** X12.  An accepted graded response is passed to the sequencer once
    and stamps its time.  If the sequencer then has a card, that card is
    shown fresh, whatever the view showed before: in [Front], its front
    as the content, the rating buttons hidden, the reset button
    disabled, and for a typed-answer card an empty answer field with
    nothing left of the previous answer.  If it has none, [backToDeck]
    is called and mode and widgets stay as they were. *)
Theorem graded_response_advances (ui : CardUI S) (r : ReviewResponse) (timeNow : Z) :
  debounced timeNow ui = false →
  ∃ ui', _processReview r timeNow ui = Some ui' ∧
    reviewSequencer ui' = processReview r (reviewSequencer ui) ∧
    lastPressed ui' = Some timeNow ∧ same_session ui ui' ∧
    match currentCard (processReview r (reviewSequencer ui)) with
    | Some next => fresh_card next ui' ∧ calls ui' = calls ui ++ [CallProcessReview r]
    | None => calls ui' = calls ui ++ [CallProcessReview r; CallBackToDeck] ∧
              mode ui' = mode ui ∧ widgets ui' = widgets ui
    end.
Proof.
  intros Hdeb. unfold _processReview. rewrite Hdeb.
  destruct (currentCard (processReview r (reviewSequencer ui))) as [next|] eqn:Hnext.
  - match goal with |- context [_showNextCard ?u] =>
      destruct (_showNextCard_fresh u next Hnext) as (ui' & -> & ? & ? & ? & ? & ?) end.
    by exists ui'.
  - rewrite _showNextCard_end by done.
    eexists. split; [done|]. cbn. by rewrite <- app_assoc.
Qed.

(** X13.  A skip is passed to the sequencer once, is not debounced and
    leaves the time stamp alone.  If the sequencer then has a card, that
    card is shown fresh; if it has none, [backToDeck] is called and mode
    and widgets stay as they were. *)
Theorem skip_advances (ui : CardUI S) :
  ∃ ui', _skipCurrentCard ui = Some ui' ∧
    reviewSequencer ui' = skipCurrentCard (reviewSequencer ui) ∧
    lastPressed ui' = lastPressed ui ∧ same_session ui ui' ∧
    match currentCard (skipCurrentCard (reviewSequencer ui)) with
    | Some next => fresh_card next ui' ∧ calls ui' = calls ui ++ [CallSkipCurrentCard]
    | None => calls ui' = calls ui ++ [CallSkipCurrentCard; CallBackToDeck] ∧
              mode ui' = mode ui ∧ widgets ui' = widgets ui
    end.
Proof.
  unfold _skipCurrentCard.
  destruct (currentCard (skipCurrentCard (reviewSequencer ui))) as [next|] eqn:Hnext.
  - match goal with |- context [_showNextCard ?u] =>
      destruct (_showNextCard_fresh u next Hnext) as (ui' & -> & ? & ? & ? & ? & ?) end.
    by exists ui'.
  - rewrite _showNextCard_end by done.
    eexists. split; [done|]. cbn. by rewrite <- app_assoc.
Qed.

Lemma _drawContent_scheduleQueries (ui ui' : CardUI S) :
  _drawContent ui = Some ui' → scheduleQueries ui' = scheduleQueries ui.
Proof.
  unfold _drawContent. destruct (_currentCard ui) as [card|]; [|done].
  cbn. intros [= <-]. unfold _resetResponseButtons. by destruct (_isTypeInCard _).
Qed.

(** X14.  Revealing the answer of a freshly drawn card puts the back
    under the front, after a rule; for a cloze card the back replaces
    the front.  The answer button goes away, the reset button is
    enabled and the Hard and Easy buttons are shown.  No response and
    no skip is sent to the sequencer; outside [Cram] mode it is asked
    for the schedules of Hard, Good and Easy, in this order, for the
    texts of the buttons. *)
Theorem reveal_shows_back (ui0 ui : CardUI S) (card : Card) (timeNow : Z) :
  _currentCard ui0 = Some card → _drawContent ui0 = Some ui →
  debounced timeNow ui = false →
  ∃ ui', _showAnswer timeNow ui = Some ui' ∧
    mode ui' = Back ∧
    content (widgets ui') =
      (if bool_decide (questionType (question card) = Cloze)
       then [Markdown (back card)]
       else [Markdown (trimStart (front card)); Hr; Markdown (back card)]) ∧
    answerButton_hidden (widgets ui') = true ∧
    resetButton_disabled (widgets ui') = false ∧
    hardButton_hidden (widgets ui') = false ∧
    easyButton_hidden (widgets ui') = false ∧
    calls ui' = calls ui0 ∧
    scheduleQueries ui' =
      scheduleQueries ui0 ++
        (if bool_decide (reviewMode ui0 = Cram) then [] else [Hard; Good; Easy]).
Proof.
  intros Hcard Hdraw Hdeb.
  pose proof (_drawContent_scheduleQueries _ _ Hdraw) as Hqueries.
  destruct (_drawContent_fresh ui0 card Hcard)
    as (ui1 & Hdraw1 & Hfresh & [_ Hrm] & _ & Hseq & Hcalls).
  rewrite Hdraw in Hdraw1. injection Hdraw1 as <-.
  destruct Hfresh as (_ & _ & _ & _ & _ & Hcontent & _).
  assert (Hcard1 : _currentCard ui = Some card) by (unfold _currentCard in *; by rewrite Hseq).
  unfold _showAnswer, _currentQuestion. rewrite Hdeb.
  unfold _currentCard in *. cbn. rewrite Hcard1. cbn.
  eexists. split; [done|].
  match goal with |- context [setup_ease_buttons ?u] =>
    destruct (setup_ease_buttons_fields u) as (-> & _ & _ & _ & _ & _ & -> & -> & ->) end.
  cbn. rewrite Hcontent, Hcalls, Hqueries, Hrm.
  repeat split; try done.
  repeat case_bool_decide; done.
Qed.
End CardUI_more.

Section CardUI_keys.
Context {S : Type} `{!IFlashcardReviewSequencer S}.

(** X15.  An accepted check keeps the text as typed, compares it with
    the trimmed back of the card and freezes the answer field: the
    result shows the trimmed back as the correct answer and, for a
    non-empty input, the diff against it, whose segments other than
    [Delete] spell the correct answer; for an empty input it shows the
    "no input" note instead of a diff.  The card content is untouched. *)
Theorem check_shows_result (ui : CardUI S) (card : Card) (timeNow : Z) :
  _currentCard ui = Some card → debounced timeNow ui = false →
  ∃ ui' shown,
    _checkTypeInAnswer timeNow ui = Some ui' ∧
    typeInResult (widgets ui') = Some shown ∧
    userTypedAnswer ui' = typeInInput_value (widgets ui) ∧
    typeInInput_value (widgets ui') = typeInInput_value (widgets ui) ∧
    typeInInput_disabled (widgets ui') = true ∧
    checkAnswerButton_hidden (widgets ui') = true ∧
    content (widgets ui') = content (widgets ui) ∧
    correctAnswerText shown = trim (back card) ∧
    match userAnswerDiff shown with
    | None => typeInInput_value (widgets ui) = []
    | Some segs =>
        typeInInput_value (widgets ui) ≠ [] ∧
        computeDiff (typeInInput_value (widgets ui)) (trim (back card))
                    (typeInCaseSensitive (settings ui)) = Some segs ∧
        text_without Delete segs = trim (back card)
    end.
Proof.
  intros Hcard Hdeb. unfold _checkTypeInAnswer, _currentCard in *.
  rewrite Hdeb. cbn. rewrite Hcard. cbn. rewrite computeDiff_refines. cbn.
  eexists _, _. split; [done|].
  match goal with |- context [setup_ease_buttons ?u] =>
    destruct (setup_ease_buttons_fields u) as (_ & _ & -> & _ & _ & _ & -> & _) end.
  cbn. repeat split.
  destruct (typeInInput_value (widgets ui)) as [|c typed] eqn:Hin; cbn; [done|].
  split; [done|]. split; [done|]. apply computeDiff_reference_without_Delete.
Qed.

Lemma consuming_not_false (action : option (CardUI S)) ui' :
  consuming action = Some (ui', false) → False.
Proof. unfold consuming. by destruct action. Qed.

Lemma _keydownHandler_cases (e : KeyboardEvent) (timeNow : Z) (ui : CardUI S) :
  _keydownHandler e timeNow ui = Some (ui, false) ∨
  _keydownHandler e timeNow ui = consuming (_skipCurrentCard ui) ∨
  _keydownHandler e timeNow ui = consuming (_showAnswer timeNow ui) ∨
  ∃ r, _keydownHandler e timeNow ui = consuming (_processReview r timeNow ui).
Proof.
  unfold _keydownHandler.
  repeat match goal with
         | |- context [if ?b then _ else _] => destruct b
         end; eauto.
Qed.

(** X16.  Every key event either leaves the state as it is and is not
    consumed, or runs exactly one of skip, reveal and graded response
    and is consumed; an event that is not consumed never changes the
    state. *)
Theorem keydown_consumed_or_unchanged (e : KeyboardEvent) (timeNow : Z) (ui : CardUI S) :
  (_keydownHandler e timeNow ui = Some (ui, false) ∨
   _keydownHandler e timeNow ui = consuming (_skipCurrentCard ui) ∨
   _keydownHandler e timeNow ui = consuming (_showAnswer timeNow ui) ∨
   ∃ r, _keydownHandler e timeNow ui = consuming (_processReview r timeNow ui)) ∧
  ∀ ui', _keydownHandler e timeNow ui = Some (ui', false) → ui' = ui.
Proof.
  split; [apply _keydownHandler_cases|]. intros ui' Hkey.
  destruct (_keydownHandler_cases e timeNow ui) as [H|[H|[H|[r H]]]];
    rewrite H in Hkey; [congruence|by apply consuming_not_false in Hkey..].
Qed.

Lemma code_in_singleton_false (e : KeyboardEvent) c :
  code e ≠ c → code_in e [c] = false.
Proof. intros Hne. unfold code_in. cbn. by rewrite (proj2 (String.eqb_neq _ _) Hne). Qed.

(** X17.  Keys that do nothing: every key while the focus is in a text
    area, the mode is [Closed] or the plugin view is out of focus; and,
    on a typed-answer card in [Front], every key but the skip key, and
    the skip key too while the focus is in the answer field.  So the
    answer can be typed freely, and no key reveals or checks a
    typed-answer card. *)
Theorem keydown_ignored (e : KeyboardEvent) (timeNow : Z) (ui : CardUI S) :
  activeElement e = TextArea ∨ mode ui = Closed ∨ srInFocus e = false ∨
  (mode ui = Front ∧ _isTypeInCard ui = true ∧
   (code e ≠ "KeyS"%string ∨ activeElement e = TypeInInput)) →
  _keydownHandler e timeNow ui = Some (ui, false).
Proof.
  intros Hcase. unfold _keydownHandler.
  destruct Hcase as [Ha|[Hm|[Hf|(Hm & Ht & Hkey)]]].
  - by rewrite Ha.
  - rewrite (bool_decide_true (mode ui = Closed)) by done.
    by destruct (bool_decide (activeElement e = TextArea)).
  - rewrite Hf. by rewrite orb_true_r.
  - destruct (bool_decide _ || bool_decide _ || negb _); [done|].
    rewrite Hm, Ht.
    assert (Hskip : code_in e ["KeyS"%string] = false ∨ activeElement e = TypeInInput).
    { destruct Hkey as [Hne|?]; [left; by apply code_in_singleton_false|by right]. }
    cbn [negb].
    destruct Hskip as [-> | ->];
      repeat first
        [ case_bool_decide
        | match goal with |- context [code_in ?e ?l] => destruct (code_in e l) end ];
      done.
Qed.

(** X18.  A skip does not open the debounce window again: an action that
    follows a skip less than the delay after the last accepted action is
    still dropped. *)
Theorem skip_keeps_debounce_window (a : DebouncedAction) (ui ui' : CardUI S) (t0 timeNow : Z) :
  lastPressed ui = Some t0 → t0 ≠ 0%Z →
  (timeNow - t0 < reviewButtonDelay (settings ui))%Z →
  _skipCurrentCard ui = Some ui' →
  perform a timeNow ui' = Some ui'.
Proof.
  intros Hlast Hne Hlt Hskip.
  assert (Hframe : lastPressed ui' = lastPressed ui ∧ settings ui' = settings ui).
  { unfold _skipCurrentCard in Hskip.
    destruct (currentCard (skipCurrentCard (reviewSequencer ui))) as [next|] eqn:Hnext.
    - match type of Hskip with _showNextCard ?u = _ =>
        destruct (_showNextCard_fresh u next Hnext) as (ui1 & Hrun & _ & [? _] & ? & _) end.
      rewrite Hrun in Hskip. by injection Hskip as <-.
    - rewrite _showNextCard_end in Hskip by done. by injection Hskip as <-. }
  destruct Hframe as [Hlast' Hset'].
  apply perform_debounced, (debounced_recent ui' t0); [congruence|done|by rewrite Hset'].
Qed.

End CardUI_keys.

Lemma check_shows_result_witness :
  _currentCard (typein_ui Cram) = Some typein_card ∧
  debounced 1000 (typein_ui Cram) = false ∧
  ∃ ui' shown,
    _checkTypeInAnswer 1000 (typein_ui Cram) = Some ui' ∧
    typeInResult (widgets ui') = Some shown ∧
    userTypedAnswer ui' = typeInInput_value (widgets (typein_ui Cram)) ∧
    typeInInput_value (widgets ui') = typeInInput_value (widgets (typein_ui Cram)) ∧
    typeInInput_disabled (widgets ui') = true ∧
    checkAnswerButton_hidden (widgets ui') = true ∧
    content (widgets ui') = content (widgets (typein_ui Cram)) ∧
    correctAnswerText shown = trim (back typein_card) ∧
    match userAnswerDiff shown with
    | None => typeInInput_value (widgets (typein_ui Cram)) = []
    | Some segs =>
        typeInInput_value (widgets (typein_ui Cram)) ≠ [] ∧
        computeDiff (typeInInput_value (widgets (typein_ui Cram))) (trim (back typein_card))
                    (typeInCaseSensitive (settings (typein_ui Cram))) = Some segs ∧
        text_without Delete segs = trim (back typein_card)
    end.
Proof.
  split; [reflexivity|]. split; [reflexivity|].
  apply (check_shows_result (typein_ui Cram) typein_card 1000); reflexivity.
Defined.


Lemma keydown_ignored_witness :
  (activeElement (mkKeyboardEvent "Enter" TypeInInput true) = TextArea ∨
   mode (typein_ui Review) = Closed ∨
   srInFocus (mkKeyboardEvent "Enter" TypeInInput true) = false ∨
   (mode (typein_ui Review) = Front ∧ _isTypeInCard (typein_ui Review) = true ∧
    (code (mkKeyboardEvent "Enter" TypeInInput true) ≠ "KeyS"%string ∨
     activeElement (mkKeyboardEvent "Enter" TypeInInput true) = TypeInInput))) ∧
  _keydownHandler (mkKeyboardEvent "Enter" TypeInInput true) 1000 (typein_ui Review)
    = Some (typein_ui Review, false).
Proof.
  assert (H : mode (typein_ui Review) = Front ∧ _isTypeInCard (typein_ui Review) = true ∧
    (code (mkKeyboardEvent "Enter" TypeInInput true) ≠ "KeyS"%string ∨
     activeElement (mkKeyboardEvent "Enter" TypeInInput true) = TypeInInput)).
  { split; [reflexivity|]. split; [reflexivity|]. right. reflexivity. }
  split; [tauto|].
  apply (keydown_ignored (mkKeyboardEvent "Enter" TypeInInput true) 1000 (typein_ui Review)).
  tauto.
Defined.


Lemma skip_keeps_debounce_window_witness :
  lastPressed back_ui = Some 1000%Z ∧ 1000%Z ≠ 0%Z ∧
  (1100 - 1000 < reviewButtonDelay (settings back_ui))%Z ∧
  _skipCurrentCard back_ui = Some (default back_ui (_skipCurrentCard back_ui)) ∧
  perform CheckTypedAnswer 1100 (default back_ui (_skipCurrentCard back_ui))
    = Some (default back_ui (_skipCurrentCard back_ui)).
Proof.
  split; [reflexivity|]. split; [discriminate|]. split; [vm_compute; reflexivity|].
  split; [reflexivity|].
  apply (skip_keeps_debounce_window CheckTypedAnswer back_ui _ 1000 1100);
    [reflexivity|discriminate|vm_compute; reflexivity|reflexivity].
Defined.


Lemma graded_response_advances_witness :
  debounced 5000 back_ui = false ∧
  ∃ ui', _processReview Good 5000 back_ui = Some ui' ∧
    reviewSequencer ui' = processReview Good (reviewSequencer back_ui) ∧
    lastPressed ui' = Some 5000%Z ∧ same_session back_ui ui' ∧
    match currentCard (processReview Good (reviewSequencer back_ui)) with
    | Some next => fresh_card next ui' ∧ calls ui' = calls back_ui ++ [CallProcessReview Good]
    | None => calls ui' = calls back_ui ++ [CallProcessReview Good; CallBackToDeck] ∧
              mode ui' = mode back_ui ∧ widgets ui' = widgets back_ui
    end.
Proof.
  split; [reflexivity|]. apply (graded_response_advances back_ui Good 5000). reflexivity.
Defined.

Lemma reveal_shows_back_witness :
  _currentCard (new_CardUI [basic_card; typein_card] 200 Review) = Some basic_card ∧
  _drawContent (new_CardUI [basic_card; typein_card] 200 Review) = Some front_ui ∧
  debounced 1000 front_ui = false ∧
  ∃ ui', _showAnswer 1000 front_ui = Some ui' ∧
    mode ui' = Back ∧
    content (widgets ui') =
      (if bool_decide (questionType (question basic_card) = Cloze)
       then [Markdown (back basic_card)]
       else [Markdown (trimStart (front basic_card)); Hr; Markdown (back basic_card)]) ∧
    answerButton_hidden (widgets ui') = true ∧
    resetButton_disabled (widgets ui') = false ∧
    hardButton_hidden (widgets ui') = false ∧
    easyButton_hidden (widgets ui') = false ∧
    calls ui' = calls (new_CardUI [basic_card; typein_card] 200 Review) ∧
    scheduleQueries ui' =
      scheduleQueries (new_CardUI [basic_card; typein_card] 200 Review) ++
        (if bool_decide (reviewMode (new_CardUI [basic_card; typein_card] 200 Review) = Cram)
         then [] else [Hard; Good; Easy]).
Proof.
  split; [reflexivity|]. split; [reflexivity|]. split; [reflexivity|].
  apply (reveal_shows_back (new_CardUI [basic_card; typein_card] 200 Review)
           front_ui basic_card 1000); reflexivity.
Defined.

(** * Properties of [_formatQuestionContextText] *)

Lemma startsWith_app p s : startsWith p (p ++ s) = true.
Proof. induction p as [|a p IH]; [done|]. cbn. by rewrite bool_decide_true, IH. Qed.

Lemma endsWith_app p s : endsWith p (s ++ p) = true.
Proof. unfold endsWith. rewrite reverse_app. apply startsWith_app. Qed.

Lemma remove_first_prefix p s : remove_first p (p ++ s) = s.
Proof.
  destruct (p ++ s) as [|c t] eqn:Heq; cbn [remove_first].
  - apply app_eq_nil in Heq as [-> ->]. done.
  - rewrite <- Heq, startsWith_app. by rewrite drop_app_length.
Qed.

Lemma remove_first_closing t :
  "]"%char ∉ t → remove_first (str "]]") (t ++ str "]]") = t.
Proof.
  induction t as [|c t IH]; intros Hnot; [done|].
  apply not_elem_of_cons in Hnot as [Hc Ht].
  cbn [app remove_first startsWith str list_ascii_of_string].
  rewrite bool_decide_false by congruence. cbn [andb]. f_equal. by apply IH.
Qed.

Lemma split_no_sep sep s : sep ∉ s → split sep s = [s].
Proof.
  induction s as [|c s IH]; intros Hnot; [done|].
  apply not_elem_of_cons in Hnot as [Hc Hs].
  cbn [split]. rewrite bool_decide_false by congruence. by rewrite IH.
Qed.

Lemma split_app_sep sep a b :
  sep ∉ a → split sep (a ++ sep :: b) = a :: split sep b.
Proof.
  induction a as [|c a IH]; intros Hnot.
  - cbn. by rewrite bool_decide_true.
  - apply not_elem_of_cons in Hnot as [Hc Ha].
    cbn [app split]. rewrite bool_decide_false by congruence. by rewrite IH.
Qed.

Lemma split_nonempty sep s : split sep s ≠ [].
Proof.
  induction s as [|c s IH]; [done|]. cbn [split].
  case_bool_decide; [done|]. by destruct (split sep s).
Qed.

Lemma split_second sep s : sep ∈ s → is_Some (split sep s !! 1).
Proof.
  induction s as [|c s IH]; [by intros ?%elem_of_nil|].
  intros Hin. cbn [split]. case_bool_decide as Hc.
  - pose proof (split_nonempty sep s). destruct (split sep s); [done|]. by eexists.
  - apply elem_of_cons in Hin as [?|Hin]; [congruence|].
    destruct (IH Hin) as [x Hx]. destruct (split sep s) as [|p rest]; [done|].
    by exists x.
Qed.

Lemma context_text_is_Some context : is_Some (context_text context).
Proof.
  unfold context_text. destruct (_ && _); [|by eexists].
  case_bool_decide; [by apply split_second|by eexists].
Qed.

Lemma _formatQuestionContextText_snoc basename contexts context :
  _formatQuestionContextText basename (contexts ++ [context]) =
    r ← _formatQuestionContextText basename contexts;
    c ← context_text context;
    Some (r ++ str " > " ++ c).
Proof. unfold _formatQuestionContextText. by rewrite foldl_app. Qed.

(** X19.  A context that is a wiki link is shown without its brackets,
    and a link with an alias is shown as its alias (for a page name and
    an alias free of the closing bracket and of the bar); any other
    context is shown as it is. *)
Theorem context_text_of_link (page alias plain : jsstring) :
  "]"%char ∉ page → "|"%char ∉ page → "]"%char ∉ alias → "|"%char ∉ alias →
  startsWith (str "[[") plain && endsWith (str "]]") plain = false →
  context_text (str "[[" ++ page ++ str "]]") = Some page ∧
  context_text (str "[[" ++ page ++ str "|" ++ alias ++ str "]]") = Some alias ∧
  context_text plain = Some plain.
Proof.
  intros Hp1 Hp2 Ha1 Ha2 Hplain. split; [|split].
  - unfold context_text.
    rewrite startsWith_app, (app_assoc _ page), endsWith_app, <- app_assoc.
    cbn [andb]. rewrite remove_first_prefix, remove_first_closing by done.
    by rewrite bool_decide_false.
  - unfold context_text.
    rewrite startsWith_app.
    replace (str "[[" ++ page ++ str "|" ++ alias ++ str "]]")
      with ((str "[[" ++ page ++ str "|" ++ alias) ++ str "]]")
      by (by rewrite <- !app_assoc).
    rewrite endsWith_app. cbn [andb].
    rewrite <- !app_assoc, remove_first_prefix.
    replace (page ++ str "|" ++ alias ++ str "]]")
      with ((page ++ str "|" ++ alias) ++ str "]]")
      by (by rewrite <- !app_assoc).
    rewrite remove_first_closing.
    2:{ rewrite !not_elem_of_app. split; [done|]. split; [|done].
        cbn. intros [?|?%elem_of_nil]%elem_of_cons; done. }
    rewrite bool_decide_true.
    2:{ rewrite !elem_of_app. right. left. cbn. left. }
    change (str "|" ++ alias) with ("|"%char :: alias).
    by rewrite split_app_sep, split_no_sep.
  - unfold context_text. by rewrite Hplain.
Qed.

Lemma context_text_of_link_witness :
  ("]"%char ∉ str "Paris") ∧ ("|"%char ∉ str "Paris") ∧
  ("]"%char ∉ str "the capital") ∧ ("|"%char ∉ str "the capital") ∧
  startsWith (str "[[") (str "Cities") && endsWith (str "]]") (str "Cities") = false ∧
  context_text (str "[[" ++ str "Paris" ++ str "]]") = Some (str "Paris") ∧
  context_text (str "[[" ++ str "Paris" ++ str "|" ++ str "the capital" ++ str "]]")
    = Some (str "the capital") ∧
  context_text (str "Cities") = Some (str "Cities").
Proof.
  assert (H1 : "]"%char ∉ str "Paris") by (by apply (bool_decide_unpack _)).
  assert (H2 : "|"%char ∉ str "Paris") by (by apply (bool_decide_unpack _)).
  assert (H3 : "]"%char ∉ str "the capital") by (by apply (bool_decide_unpack _)).
  assert (H4 : "|"%char ∉ str "the capital") by (by apply (bool_decide_unpack _)).
  split; [done|]. split; [done|]. split; [done|]. split; [done|]. split; [reflexivity|].
  by apply (context_text_of_link (str "Paris") (str "the capital") (str "Cities")).
Defined.

(** X20.  [_formatQuestionContextText] always yields a text: the note's
    base name followed, for each context in order, by the separator and
    the text shown for that context; when no context is a wiki link it
    is the base name and the contexts joined by [" > "]. *)
Theorem _formatQuestionContextText_joins (basename : jsstring) (questionContext : list jsstring) :
  ∃ shown,
    Forall2 (λ context c, context_text context = Some c) questionContext shown ∧
    _formatQuestionContextText basename questionContext
      = Some (basename ++ mjoin ((λ c, str " > " ++ c) <$> shown)) ∧
    (Forall (λ context, startsWith (str "[[") context && endsWith (str "]]") context = false)
            questionContext → shown = questionContext).
Proof.
  induction questionContext as [|context contexts (shown & Hshown & Hfmt & Hplain)] using rev_ind.
  { exists []. split; [constructor|]. split; [cbn; by rewrite app_nil_r|done]. }
  destruct (context_text_is_Some context) as [c Hc].
  exists (shown ++ [c]). split; [|split].
  - apply Forall2_app; [done|]. by repeat constructor.
  - rewrite _formatQuestionContextText_snoc, Hfmt, Hc. cbn [mbind option_bind].
    rewrite fmap_app, join_app. cbn. by rewrite !app_nil_r, <- !app_assoc.
  - intros [Hall Hlast]%Forall_app. rewrite Hplain by done. f_equal.
    apply Forall_inv in Hlast. cbn beta in Hlast.
    unfold context_text in Hc.
    destruct (startsWith (str "[[") context && endsWith (str "]]") context); [done|].
    by injection Hc as <-.
Qed.

(** * Properties of the view and of the deck information bar *)

Section CardView_facts.
Context {S : Type} `{!IFlashcardReviewSequencer S} `{!IDeckSequencer S}.

Lemma view_kept_refl (v : CardView S) : view_kept v v.
Proof. by repeat split. Qed.

Lemma view_kept_with_ui u (v : CardView S) : view_kept v (with_ui u v).
Proof. by repeat split. Qed.

Lemma _updateInfoBar_fields chosen current (v v' : CardView S) :
  _updateInfoBar chosen current v = Some v' →
  ui v' = ui v ∧ view_kept v v' ∧
  currentDeck_ v' = currentDeck_ v ∧ previousDeck v' = previousDeck v ∧
  currentDeckTotalCardsInQueue v' = currentDeckTotalCardsInQueue v ∧
  chosen_counters_current chosen v'.
Proof.
  unfold _updateInfoBar, _updateCurrentDeckInfo, _updateChosenDeckInfo,
    chosen_counters_current, view_kept, same_totals.
  destruct (subdecks chosen =? 0) eqn:Hsub.
  - apply Nat.eqb_eq in Hsub. intros [= <-]. cbn.
    rewrite bool_decide_true by done. repeat split; done.
  - apply Nat.eqb_neq in Hsub. destruct current as [d|]; [|done]. intros [= <-]. cbn.
    rewrite bool_decide_false by done. repeat split; done.
Qed.

(** The full drawing draws the card as the transitions do, keeps the
    view and brings the counters of the chosen deck up to date. *)
Lemma _drawContent_full_fields (v v' : CardView S) :
  _drawContent_full v = Some v' →
  _drawContent (ui v) = Some (ui v') ∧ view_kept v v' ∧
  currentDeck_ v' = Some (currentDeck (reviewSequencer (ui v))) ∧
  previousDeck v' = currentDeck_ v ∧
  ∃ chosen, chosenDeck v = Some chosen ∧ chosen_counters_current chosen v'.
Proof.
  unfold _drawContent_full. intros Hdraw.
  destruct (if decks_differ _ _ then _ else _) as [total|]; [|done].
  cbn in Hdraw. destruct (chosenDeck v) as [chosen|] eqn:Hchosen; [|done].
  cbn in Hdraw.
  destruct (_updateInfoBar chosen _ _) as [v1|] eqn:Hbar; [|done].
  cbn in Hdraw. destruct (_drawContent (ui v1)) as [u|] eqn:Hu; [|done].
  injection Hdraw as <-.
  destruct (_updateInfoBar_fields _ _ _ _ Hbar)
    as (Hui & (? & ? & ? & ? & ? & ?) & ? & ? & ? & Hcount).
  unfold view_kept, same_totals. cbn in *. rewrite Hui in Hu.
  destruct (_drawContent_fields _ _ Hu) as (_ & _ & Hseq & _).
  split; [done|]. split; [repeat split; congruence|].
  split; [congruence|]. split; [congruence|].
  exists chosen. split; [done|].
  unfold chosen_counters_current in *. cbn. rewrite Hseq, <- Hui. done.
Qed.

Lemma _showNextCard_full_fields (v v' : CardView S) :
  _showNextCard_full v = Some v' →
  _showNextCard (ui v) = Some (ui v') ∧ view_kept v v' ∧
  (is_Some (_currentCard (ui v)) →
   ∃ chosen, chosenDeck v = Some chosen ∧ chosen_counters_current chosen v').
Proof.
  unfold _showNextCard_full, _showNextCard, refresh_full, refresh.
  destruct (_currentCard (ui v)) as [card|].
  - intros Hdraw. destruct (_drawContent_full_fields _ _ Hdraw) as (? & ? & _ & _ & ?).
    split; [done|]. split; [done|]. by intros _.
  - intros [= <-]. split; [done|]. split; [apply view_kept_with_ui|].
    by intros [? ?].
Qed.

Lemma _processReview_full_fields r timeNow (v v' : CardView S) :
  _processReview_full r timeNow v = Some v' →
  _processReview r timeNow (ui v) = Some (ui v') ∧ view_kept v v'.
Proof.
  unfold _processReview_full, _processReview.
  destruct (debounced timeNow (ui v)).
  - intros [= <-]. split; [done|apply view_kept_refl].
  - intros Hnext. apply _showNextCard_full_fields in Hnext as (? & ? & _). done.
Qed.

Lemma _skipCurrentCard_full_fields (v v' : CardView S) :
  _skipCurrentCard_full v = Some v' →
  _skipCurrentCard (ui v) = Some (ui v') ∧ view_kept v v'.
Proof.
  unfold _skipCurrentCard_full, _skipCurrentCard.
  intros Hnext. apply _showNextCard_full_fields in Hnext as (? & ? & _). done.
Qed.

Lemma _showAnswer_full_fields timeNow (v v' : CardView S) :
  _showAnswer_full timeNow v = Some v' →
  _showAnswer timeNow (ui v) = Some (ui v') ∧ view_kept v v'.
Proof.
  unfold _showAnswer_full. destruct (_showAnswer timeNow (ui v)); [|done].
  intros [= <-]. split; [done|apply view_kept_with_ui].
Qed.

Lemma _checkTypeInAnswer_full_fields timeNow (v v' : CardView S) :
  _checkTypeInAnswer_full timeNow v = Some v' →
  _checkTypeInAnswer timeNow (ui v) = Some (ui v') ∧ view_kept v v'.
Proof.
  unfold _checkTypeInAnswer_full. destruct (_checkTypeInAnswer timeNow (ui v)); [|done].
  intros [= <-]. split; [done|apply view_kept_with_ui].
Qed.

Lemma consuming_full_fields (action : option (CardView S)) (core : option (CardUI S))
    (v v' : CardView S) c :
  (∀ w, action = Some w → core = Some (ui w) ∧ view_kept v w) →
  consuming_full action = Some (v', c) →
  consuming core = Some (ui v', c) ∧ view_kept v v'.
Proof.
  intros Hact. unfold consuming_full, consuming.
  destruct action as [w|]; [|done]. intros [= <- <-].
  destruct (Hact w eq_refl) as [-> ?]. done.
Qed.

Lemma _keydownHandler_full_fields e timeNow (v v' : CardView S) c :
  _keydownHandler_full e timeNow v = Some (v', c) →
  _keydownHandler e timeNow (ui v) = Some (ui v', c) ∧ view_kept v v'.
Proof.
  unfold _keydownHandler_full, _keydownHandler.
  repeat match goal with
         | |- context [if ?b then _ else _] => destruct b
         end;
    first
      [ by (intros [= <- <-]; split; [done|apply view_kept_refl])
      | apply consuming_full_fields; intros w;
        first [ apply _skipCurrentCard_full_fields
              | apply _showAnswer_full_fields
              | apply _processReview_full_fields ] ].
Qed.

Lemma click_full_fields b timeNow (v v' : CardView S) :
  click_full b timeNow v = Some v' →
  click b timeNow (ui v) = Some (ui v') ∧ view_kept v v'.
Proof.
  destruct b; cbn [click_full click]; unfold resetButton_click, skipButton_click;
    first [ apply _showAnswer_full_fields
          | apply _checkTypeInAnswer_full_fields
          | apply _processReview_full_fields
          | apply _skipCurrentCard_full_fields
          | idtac ].
  destruct (resetButton_disabled _).
  - intros [= <-]. split; [done|apply view_kept_refl].
  - apply _processReview_full_fields.
Qed.

Lemma full_controller_projects_aux (ev : UIEvent) (timeNow : Z) (v v' : CardView S) (c : bool) :
  handle_full ev timeNow v = Some (v', c) →
  handle ev timeNow (ui v) = Some (ui v', c) ∧
  view_hidden v' = view_hidden v ∧ keydown_listening v' = keydown_listening v ∧
  same_totals v v'.
Proof.
  destruct ev as [e|b]; cbn [handle_full handle].
  - apply _keydownHandler_full_fields.
  - destruct (click_full b timeNow v) as [w|] eqn:Hclick; [|done].
    intros [= <- <-]. apply click_full_fields in Hclick as [-> ?]. done.
Qed.

(** X21.  The deck information has no say in the transitions: whatever
    the whole controller does on a key or on a click, its mode, time
    stamp, widgets and calls to the sequencer are those the transitions
    alone give; and no event changes whether the view is hidden, whether
    the key listener is attached, the chosen deck or the session
    totals. *)
Theorem full_controller_projects (ev : UIEvent) (timeNow : Z) (v v' : CardView S) (c : bool) :
  handle_full ev timeNow v = Some (v', c) →
  handle ev timeNow (ui v) = Some (ui v', c) ∧
  view_hidden v' = view_hidden v ∧ keydown_listening v' = keydown_listening v ∧
  same_totals v v'.
Proof. apply full_controller_projects_aux. Qed.

(** X22.  Whenever a card is drawn (by [show], and after an accepted
    graded response or a skip that leaves a card), the counter of the
    chosen deck reads the session total less the cards the sequencer
    still has in the queue, over the session total; the subdeck counter
    and the current deck line are shown exactly when the chosen deck has
    subdecks.  The session totals are those [show] read. *)
Theorem deck_counters_follow_sequencer (r : ReviewResponse) (timeNow : Z) (v v' : CardView S)
    (chosen : Deck) (next : Card) :
  chosenDeck v = Some chosen →
  (_drawContent_full v = Some v' → chosen_counters_current chosen v') ∧
  (debounced timeNow (ui v) = false →
   currentCard (processReview r (reviewSequencer (ui v))) = Some next →
   _processReview_full r timeNow v = Some v' →
   reviewSequencer (ui v') = processReview r (reviewSequencer (ui v)) ∧
   totalCardsInSession v' = totalCardsInSession v ∧
   chosen_counters_current chosen v') ∧
  (currentCard (skipCurrentCard (reviewSequencer (ui v))) = Some next →
   _skipCurrentCard_full v = Some v' →
   reviewSequencer (ui v') = skipCurrentCard (reviewSequencer (ui v)) ∧
   totalCardsInSession v' = totalCardsInSession v ∧
   chosen_counters_current chosen v').
Proof.
  intros Hchosen. split; [|split].
  - intros Hdraw. destruct (_drawContent_full_fields _ _ Hdraw) as (_ & _ & _ & _ & c & Hc & ?).
    rewrite Hchosen in Hc. by injection Hc as <-.
  - intros Hdeb Hnext Hrun.
    destruct (_processReview_full_fields _ _ _ _ Hrun) as (Hcore & _ & _ & _ & Htot & _).
    destruct (_processReview_accepted r timeNow (ui v) Hdeb) as (u & Hu & _ & Hseq & _).
    rewrite Hu in Hcore. injection Hcore as ->.
    split; [done|]. split; [done|].
    unfold _processReview_full in Hrun. rewrite Hdeb in Hrun.
    apply _showNextCard_full_fields in Hrun as (_ & _ & Hcount).
    destruct Hcount as (c & Hc & ?); [by eexists|].
    cbn in Hc. rewrite Hchosen in Hc. by injection Hc as <-.
  - intros Hnext Hrun.
    destruct (_skipCurrentCard_full_fields _ _ Hrun) as (Hcore & _ & _ & _ & Htot & _).
    destruct (_skipCurrentCard_fields (ui v)) as (u & Hu & _ & Hseq & _).
    rewrite Hu in Hcore. injection Hcore as ->.
    split; [done|]. split; [done|].
    apply _showNextCard_full_fields in Hrun as (_ & _ & Hcount).
    destruct Hcount as (c & Hc & ?); [by eexists|].
    cbn in Hc. rewrite Hchosen in Hc. by injection Hc as <-.
Qed.

(** X23.  [show] on a hidden view reads the session totals, draws the
    first card, unhides the view and attaches the key listener; the
    counter of the chosen deck then reads nought done of the total.
    [show] on a view that is shown does nothing. *)
Theorem show_starts_session (chosen : Deck) (v v' : CardView S) :
  show chosen v = Some v' →
  (view_hidden v = false → v' = v) ∧
  (view_hidden v = true →
   let stats := getDeckStats (reviewSequencer (ui v)) (topicPath chosen) in
   view_hidden v' = false ∧ keydown_listening v' = true ∧
   chosenDeck v' = Some chosen ∧
   totalCardsInSession v' = cardsInQueueCount stats ∧
   totalDecksInSession v' = decksInQueueOfThisDeckCount stats ∧
   chosenDeckCardCounter (infoBar v') = Some (0%Z, cardsInQueueCount stats) ∧
   mode (ui v') = Front ∧ reviewSequencer (ui v') = reviewSequencer (ui v) ∧
   calls (ui v') = calls (ui v)).
Proof.
  unfold show. destruct (view_hidden v) eqn:Hhidden; cbn [negb].
  - intros Hshow. split; [done|]. intros _.
    match type of Hshow with (?d ≫= _) = _ => destruct d as [v1|] eqn:Hdraw; [|done] end.
    injection Hshow as <-.
    destruct (_drawContent_full_fields _ _ Hdraw)
      as (Hcore & (_ & _ & Hch & Htc & Htd & _) & _ & _ & c & Hc & Hcount).
    cbn in Hch, Htc, Htd, Hc, Hcore. injection Hc as <-.
    destruct (_drawContent_fields _ _ Hcore) as (? & _ & Hseq & ? & _).
    destruct Hcount as (_ & Hcards & _). cbn.
    rewrite Hcards, Htc, Hseq. cbn.
    repeat split; try done. by rewrite Z.sub_diag.
  - intros [= <-]. split; [done|]. done.
Qed.

(** X24.  The key listener is attached exactly while the view is shown:
    [show], [hide], [close] and every event keep it so; [hide] and
    [close] then do the same, doing them twice changes nothing more,
    and a key that goes down while the view is hidden changes nothing. *)
Theorem listener_follows_view (e : KeyboardEvent) (timeNow : Z) (v : CardView S) :
  listener_matches_view v →
  listener_matches_view (hide v) ∧
  close v = hide v ∧ hide (hide v) = hide v ∧
  view_hidden (hide v) = true ∧
  document_keydown e timeNow (hide v) = Some (hide v, false) ∧
  (∀ chosen v', show chosen v = Some v' → listener_matches_view v') ∧
  (∀ ev v' c, handle_full ev timeNow v = Some (v', c) → listener_matches_view v').
Proof.
  unfold listener_matches_view, close, hide, document_keydown. intros Hinv.
  destruct v as [u hidden listening ? ? ? ? ? ? ? ?]. cbn in *. subst listening.
  destruct hidden; cbn; repeat split; try done.
  - intros chosen v'. unfold show. cbn.
    match goal with |- (?d ≫= _) = _ → _ => destruct d; [|done] end.
    by intros [= <-].
  - intros ev v' c Hev.
    apply full_controller_projects_aux in Hev as (_ & -> & -> & _). done.
  - intros chosen v'. unfold show. cbn. by intros [= <-].
  - intros ev v' c Hev.
    apply full_controller_projects_aux in Hev as (_ & -> & -> & _). done.
Qed.
End CardView_facts.

Lemma full_controller_projects_witness :
  handle_full (Keydown (key "KeyS")) 1000 shown_view
    = Some (default (shown_view, false) (handle_full (Keydown (key "KeyS")) 1000 shown_view)) ∧
  handle (Keydown (key "KeyS")) 1000 (ui shown_view)
    = Some (ui (default (shown_view, false)
                  (handle_full (Keydown (key "KeyS")) 1000 shown_view)).1, true) ∧
  view_hidden (default (shown_view, false)
                 (handle_full (Keydown (key "KeyS")) 1000 shown_view)).1
    = view_hidden shown_view ∧
  keydown_listening (default (shown_view, false)
                       (handle_full (Keydown (key "KeyS")) 1000 shown_view)).1
    = keydown_listening shown_view ∧
  same_totals shown_view
    (default (shown_view, false) (handle_full (Keydown (key "KeyS")) 1000 shown_view)).1.
Proof.
  split; [reflexivity|].
  apply (full_controller_projects (Keydown (key "KeyS")) 1000 shown_view). reflexivity.
Defined.

Lemma deck_counters_follow_sequencer_witness :
  chosenDeck shown_view = Some example_deck ∧
  (_drawContent_full shown_view = Some (default shown_view (_skipCurrentCard_full shown_view)) →
   chosen_counters_current example_deck (default shown_view (_skipCurrentCard_full shown_view))) ∧
  (debounced 1000 (ui shown_view) = false →
   currentCard (processReview Good (reviewSequencer (ui shown_view))) = Some typein_card →
   _processReview_full Good 1000 shown_view
     = Some (default shown_view (_skipCurrentCard_full shown_view)) →
   reviewSequencer (ui (default shown_view (_skipCurrentCard_full shown_view)))
     = processReview Good (reviewSequencer (ui shown_view)) ∧
   totalCardsInSession (default shown_view (_skipCurrentCard_full shown_view))
     = totalCardsInSession shown_view ∧
   chosen_counters_current example_deck (default shown_view (_skipCurrentCard_full shown_view))) ∧
  (currentCard (skipCurrentCard (reviewSequencer (ui shown_view))) = Some typein_card →
   _skipCurrentCard_full shown_view = Some (default shown_view (_skipCurrentCard_full shown_view)) →
   reviewSequencer (ui (default shown_view (_skipCurrentCard_full shown_view)))
     = skipCurrentCard (reviewSequencer (ui shown_view)) ∧
   totalCardsInSession (default shown_view (_skipCurrentCard_full shown_view))
     = totalCardsInSession shown_view ∧
   chosen_counters_current example_deck (default shown_view (_skipCurrentCard_full shown_view))).
Proof.
  split; [reflexivity|].
  apply (deck_counters_follow_sequencer Good 1000 shown_view
           (default shown_view (_skipCurrentCard_full shown_view)) example_deck typein_card).
  reflexivity.
Defined.

Lemma show_starts_session_witness :
  show example_deck (new_CardView [basic_card; typein_card]) = Some shown_view ∧
  (view_hidden (new_CardView [basic_card; typein_card]) = false →
   shown_view = new_CardView [basic_card; typein_card]) ∧
  (view_hidden (new_CardView [basic_card; typein_card]) = true →
   let stats := getDeckStats (reviewSequencer (ui (new_CardView [basic_card; typein_card])))
                  (topicPath example_deck) in
   view_hidden shown_view = false ∧ keydown_listening shown_view = true ∧
   chosenDeck shown_view = Some example_deck ∧
   totalCardsInSession shown_view = cardsInQueueCount stats ∧
   totalDecksInSession shown_view = decksInQueueOfThisDeckCount stats ∧
   chosenDeckCardCounter (infoBar shown_view) = Some (0%Z, cardsInQueueCount stats) ∧
   mode (ui shown_view) = Front ∧
   reviewSequencer (ui shown_view)
     = reviewSequencer (ui (new_CardView [basic_card; typein_card])) ∧
   calls (ui shown_view) = calls (ui (new_CardView [basic_card; typein_card]))).
Proof.
  split; [reflexivity|].
  apply (show_starts_session example_deck (new_CardView [basic_card; typein_card]) shown_view).
  reflexivity.
Defined.

Lemma listener_follows_view_witness :
  listener_matches_view shown_view ∧
  listener_matches_view (hide shown_view) ∧
  close shown_view = hide shown_view ∧ hide (hide shown_view) = hide shown_view ∧
  view_hidden (hide shown_view) = true ∧
  document_keydown (key "Space") 1000 (hide shown_view) = Some (hide shown_view, false) ∧
  (∀ chosen v', show chosen shown_view = Some v' → listener_matches_view v') ∧
  (∀ ev v' c, handle_full ev 1000 shown_view = Some (v', c) → listener_matches_view v').
Proof.
  split; [reflexivity|].
  apply (listener_follows_view (key "Space") 1000 shown_view). reflexivity.
Defined.
